(** * PianoTutor key-light controller

    A shallow embedding of [mscore/tutor.cpp] and [mscore/tutor.h]: the
    [Tutor] class that drives a strip of LEDs, one per piano key, through
    a serial link to an Arduino.

    Conventions of the embedding.
    - C [int], [long] and [size_t] values are [Z]; signed overflow is
      undefined in C++ and is not modelled (no counter of the program
      comes near the limits).  [&] is [Z.land], [/] and [%] on [int] are
      [Z.quot] and [Z.rem] (truncation towards zero).
    - [double] is the kernel's binary64 [PrimFloat.float].
    - The non-WIN32 branch of every [#ifdef] is the one embedded.
    - The mutex is not modelled: every public operation holds [mtx] from
      its first access of the shared state to its return, so each call is
      one atomic step, and the [assert(!mtx.try_lock())] lines hold.
    - The operating system and the device are an environment inside the
      state: scripts of the replies that [open], [read] and [write] will
      give, and a log of what the program did.  A call that waits for the
      device for ever has no result ([None]); neither has a call whose
      behaviour C++ leaves undefined because it stores outside an array.
    - [clock_gettime(CLOCK_MONOTONIC, _)] is read at most once by each
      public operation; the reading is the argument [now]. *)

From Stdlib Require Import ZArith List String Ascii Bool Lia.
From Stdlib Require PrimFloat FloatOps SpecFloat Uint63 FloatAxioms.
Import ListNotations.
Open Scope Z_scope.

(** ** Data (tutor.h) *)

Record timespec := mk_timespec { tv_sec : Z; tv_nsec : Z }.

(** [typedef struct { int velo; int channel; int future; struct timespec ts; } tnote;]
    [velo = -1] means unused, [velo = -2] is the sentinel of a forced
    light (a mistake, or a key pressed and not yet released). *)
Record tnote := mk_tnote {
  velo : Z;
  channel : Z;
  future : Z;
  ts : timespec          (* last press abs time *)
}.

Definition zero_ts : timespec := mk_timespec 0 0.

(** [ts.tv_sec != 0 || ts.tv_nsec != 0] *)
Definition ts_set (t : timespec) : bool :=
  negb (tv_sec t =? 0) || negb (tv_nsec t =? 0).

(** ** The environment: operating system and device *)

(** What one attempt to open and configure the port meets: the descriptor
    [open] returns (-1 on failure) and whether [tcgetattr], the two
    [cfset?speed] and the flushing [tcsetattr] succeed. *)
Record open_reply := mk_open_reply {
  o_fd : Z;
  o_tcgetattr : bool;
  o_cfsetspeed : bool;
  o_tcsetattr : bool
}.

(** Result of [read(fd, &ch, 1)]: -1, 0 (the 0.1 s timeout) or one byte. *)
Inductive read_reply := ReadErr | ReadNone | ReadByte (b : ascii).

(** Result of [write(fd, buf, count)]: -1, or the number of bytes taken
    (never more than [count]). *)
Inductive write_reply := WriteErr | Wrote (n : nat).

Inductive event :=
| EvOpen (name : string) (fd : Z)
| EvClose (fd : Z)
| EvWrite (fd : Z) (buf : string) (ret : Z)
| EvRead (fd : Z) (ret : Z) (byte : option ascii)
| EvSleep (ms : Z)
| EvSingleShot (ms : Z).      (* QTimer::singleShot(ms, onFlushTimer) *)

(** ** The state: the [Tutor] object and its environment *)

Record World := mkWorld {
  (* class Tutor *)
  serialDevice : string;
  tutorSerial : Z;                 (* serial port file descriptor *)
  notes : Z -> tnote;              (* tnote notes[256], addressed by pitch *)
  num_curr_events : Z;
  c4light : Z;
  coeff : PrimFloat.float;
  colors : Z -> Z -> Z;            (* int colors[3][3] *)
  needs_flush : bool;
  lit_until_release : bool;
  (* environment *)
  opens : list open_reply;
  reads : list read_reply;
  writes : list write_reply;
  log : list event                 (* most recent first *)
}.

Definition set_tutorSerial (fd : Z) (w : World) : World :=
  mkWorld (serialDevice w) fd (notes w) (num_curr_events w) (c4light w)
    (coeff w) (colors w) (needs_flush w) (lit_until_release w)
    (opens w) (reads w) (writes w) (log w).

Definition set_notes (ns : Z -> tnote) (w : World) : World :=
  mkWorld (serialDevice w) (tutorSerial w) ns (num_curr_events w) (c4light w)
    (coeff w) (colors w) (needs_flush w) (lit_until_release w)
    (opens w) (reads w) (writes w) (log w).

Definition set_num_curr_events (k : Z) (w : World) : World :=
  mkWorld (serialDevice w) (tutorSerial w) (notes w) k (c4light w)
    (coeff w) (colors w) (needs_flush w) (lit_until_release w)
    (opens w) (reads w) (writes w) (log w).

Definition set_colors (cs : Z -> Z -> Z) (w : World) : World :=
  mkWorld (serialDevice w) (tutorSerial w) (notes w) (num_curr_events w)
    (c4light w) (coeff w) cs (needs_flush w) (lit_until_release w)
    (opens w) (reads w) (writes w) (log w).

Definition set_coeff (k : PrimFloat.float) (w : World) : World :=
  mkWorld (serialDevice w) (tutorSerial w) (notes w) (num_curr_events w)
    (c4light w) k (colors w) (needs_flush w) (lit_until_release w)
    (opens w) (reads w) (writes w) (log w).

Definition set_needs_flush (b : bool) (w : World) : World :=
  mkWorld (serialDevice w) (tutorSerial w) (notes w) (num_curr_events w)
    (c4light w) (coeff w) (colors w) b (lit_until_release w)
    (opens w) (reads w) (writes w) (log w).

Definition set_opens (l : list open_reply) (w : World) : World :=
  mkWorld (serialDevice w) (tutorSerial w) (notes w) (num_curr_events w)
    (c4light w) (coeff w) (colors w) (needs_flush w) (lit_until_release w)
    l (reads w) (writes w) (log w).

Definition set_reads (l : list read_reply) (w : World) : World :=
  mkWorld (serialDevice w) (tutorSerial w) (notes w) (num_curr_events w)
    (c4light w) (coeff w) (colors w) (needs_flush w) (lit_until_release w)
    (opens w) l (writes w) (log w).

Definition set_writes (l : list write_reply) (w : World) : World :=
  mkWorld (serialDevice w) (tutorSerial w) (notes w) (num_curr_events w)
    (c4light w) (coeff w) (colors w) (needs_flush w) (lit_until_release w)
    (opens w) (reads w) l (log w).

Definition add_log (e : event) (w : World) : World :=
  mkWorld (serialDevice w) (tutorSerial w) (notes w) (num_curr_events w)
    (c4light w) (coeff w) (colors w) (needs_flush w) (lit_until_release w)
    (opens w) (reads w) (writes w) (e :: log w).

(** Store [n] into [notes[p]]. *)
Definition set_note (p : Z) (n : tnote) (w : World) : World :=
  set_notes (fun i => if i =? p then n else notes w i) w.

(** [notes[p].velo = v] *)
Definition set_velo (p v : Z) (w : World) : World :=
  let n := notes w p in
  set_note p (mk_tnote v (channel n) (future n) (ts n)) w.

(** [notes[p].ts = t] *)
Definition set_ts (p : Z) (t : timespec) (w : World) : World :=
  let n := notes w p in
  set_note p (mk_tnote (velo n) (channel n) (future n) t) w.

(** ** A state monad with divergence *)

Definition M (A : Type) : Type := World -> option (A * World).

Definition ret {A} (a : A) : M A := fun w => Some (a, w).

Definition bind {A B} (m : M A) (k : A -> M B) : M B :=
  fun w => match m w with
           | Some (a, w') => k a w'
           | None => None
           end.

Definition get {A} (f : World -> A) : M A := fun w => Some (f w, w).

Definition modify (f : World -> World) : M unit := fun w => Some (tt, f w).

(** The call never returns. *)
Definition diverge {A} : M A := fun _ => None.

(** The call stores outside an array: C++ gives it no meaning, and the
    model no result. *)
Definition undefined {A} : M A := fun _ => None.

Declare Scope tutor_scope.
Delimit Scope tutor_scope with tutor.
Notation "x <- m ;; k" := (bind m (fun x => k))
  (at level 61, m at next level, right associativity) : tutor_scope.
Notation "m ;; k" := (bind m (fun _ => k))
  (at level 61, right associativity) : tutor_scope.
Open Scope tutor_scope.

(** ** Cross-OS functions (non-WIN32 side) *)

(** [#define INVALID_SERIAL -1] *)
Definition INVALID_SERIAL : Z := -1.

(** "/dev/ttyACM0" *)
Definition DEFAULT_SERIAL_DEVICE : string := "/dev/ttyACM0".

Definition nl : ascii := ascii_of_nat 10.

(** With no attempt left in the script there is no device to open. *)
Definition no_device : open_reply := mk_open_reply INVALID_SERIAL false false false.

(** [open(serialDevice.c_str(), O_RDWR | O_NOCTTY)] together with the
    outcome of the configuration calls that follow it. *)
Definition OPEN : M open_reply := fun w =>
  match opens w with
  | [] => Some (no_device, add_log (EvOpen (serialDevice w) INVALID_SERIAL) w)
  | r :: rest =>
      Some (r, add_log (EvOpen (serialDevice w) (o_fd r)) (set_opens rest w))
  end.

(** [void CLOSE(int fd)] *)
Definition CLOSE (fd : Z) : M unit := modify (add_log (EvClose fd)).

(** [static void MILLI_SLEEP(unsigned int ms)] *)
Definition MILLI_SLEEP (ms : Z) : M unit := modify (add_log (EvSleep ms)).

(** The first [count] bytes of a buffer. *)
Definition take_bytes (count : Z) (buf : string) : string :=
  substring 0 (Z.to_nat count) buf.

(** The buffer advanced by [k] bytes ([data += k]). *)
Definition drop_bytes (k : Z) (buf : string) : string :=
  substring (Z.to_nat k) (String.length buf - Z.to_nat k) buf.

(** [ssize_t WRITE(int fd, void *buf, size_t count)]: the device takes what
    its next reply says, at most [count] bytes; once the script is over the
    device is gone and the write fails.  A write on the invalid descriptor
    fails without reaching the device. *)
Definition WRITE (fd : Z) (buf : string) (count : Z) : M Z := fun w =>
  let sent := take_bytes count buf in
  if fd =? INVALID_SERIAL then Some (-1, add_log (EvWrite fd sent (-1)) w)
  else
  match writes w with
  | [] => Some (-1, add_log (EvWrite fd sent (-1)) w)
  | WriteErr :: rest =>
      Some (-1, add_log (EvWrite fd sent (-1)) (set_writes rest w))
  | Wrote n :: rest =>
      let k := Z.min (Z.of_nat n) count in
      Some (k, add_log (EvWrite fd (take_bytes k buf) k) (set_writes rest w))
  end.

(** [ssize_t READ(int fd, void *buf, size_t count)] with [count = 1]: the
    return value, and the byte stored through [buf] when one arrived.  Once
    the script is over the device is gone and the read fails, as does a
    read on the invalid descriptor. *)
Definition READ (fd : Z) : M (Z * option ascii) := fun w =>
  if fd =? INVALID_SERIAL then Some ((-1, None), add_log (EvRead fd (-1) None) w)
  else
  match reads w with
  | [] => Some ((-1, None), add_log (EvRead fd (-1) None) w)
  | ReadErr :: rest =>
      Some ((-1, None), add_log (EvRead fd (-1) None) (set_reads rest w))
  | ReadNone :: rest =>
      Some ((0, None), add_log (EvRead fd 0 None) (set_reads rest w))
  | ReadByte b :: rest =>
      Some ((1, Some b), add_log (EvRead fd 1 (Some b)) (set_reads rest w))
  end.

(** ** Loops

    Each round of a loop that waits for the device makes one [read] or
    [write].  Once the script of replies is used up every further round
    meets the same failing reply, so the number of replies left, plus the
    few rounds that need none, is the fuel of the loop: a loop that uses up
    its fuel is one that goes on for ever. *)

(** How the body of a loop ends: by reaching its end, or by [continue]. *)
Inductive completion := Normal | Continue.

(** [do body while (cond);] over the loop's local variables [s].  In a
    do-while statement [continue] passes control to the controlling
    expression, exactly as reaching the end of the body does. *)
Fixpoint do_while {S : Type} (fuel : nat)
    (body : S -> M (completion * S)) (cond : S -> bool) (s : S) : M S :=
  match fuel with
  | O => diverge
  | Datatypes.S fuel' =>
      r <- body s ;;
      match fst r with
      | Normal | Continue =>
          if cond (snd r) then do_while fuel' body cond (snd r)
          else ret (snd r)
      end
  end.

(** ** Tutor::checkSerial (non-WIN32) *)

(** [int to_read = 25; while (to_read > 0) { ... }]: waiting for the
    "PianoTutor v1.0 is ready!" string.  [false] is the [return false] of
    the loop, [true] its normal end. *)
Fixpoint wait_banner (fuel : nat) (to_read : Z) : M bool :=
  match fuel with
  | O => diverge
  | S fuel' =>
      if 0 <? to_read then
        fd <- get tutorSerial ;;
        r <- READ fd ;;
        let len := fst r in
        if len <? 0 then ret false
        else wait_banner fuel' (to_read - len)
      else ret true
  end.

Definition checkSerial : M bool :=
  fd <- get tutorSerial ;;
  if negb (fd =? INVALID_SERIAL) then ret true
  else
    r <- OPEN ;;
    modify (set_tutorSerial (o_fd r)) ;;
    if o_fd r =? INVALID_SERIAL then ret false
    else if negb (o_tcgetattr r) then ret false
    else if negb (o_cfsetspeed r) then ret false
    else if negb (o_tcsetattr r) then ret false
    else
      n <- get (fun w => List.length (reads w)) ;;
      ok <- wait_banner (26 + n) 25 ;;
      if ok then MILLI_SLEEP 10 ;; ret true
      else ret false.

(** ** Tutor::safe_write *)

(** ["P\n"] *)
Definition ping_str : string := String "P" (String nl EmptyString).

(** Local variables of the handshake loop. *)
Record handshake := mk_handshake { pong_char : ascii; bytes_read : Z }.

(** The body of the handshake loop:
    [WRITE(tutorSerial, (void* )ping_str, 2);]
    [bytes_read = READ(tutorSerial, &pong_char, 1);]
    [if (pong_char != 'P') continue;] *)
Definition ping_body (s : handshake) : M (completion * handshake) :=
  fd <- get tutorSerial ;;
  WRITE fd ping_str 2 ;;
  r <- READ fd ;;
  let s' := mk_handshake (match snd r with Some b => b | None => pong_char s end)
                         (fst r) in
  if negb (Ascii.eqb (pong_char s') "P") then ret (Continue, s')
  else ret (Normal, s').

(** The write loop [while (len > 0) { ... }] with its [retry] counter;
    [retry-- > 0] tests the old value. *)
Fixpoint write_all (fuel : nat) (data : string) (len : Z) (retry : Z) : M unit :=
  match fuel with
  | O => diverge
  | S fuel' =>
      if 0 <? len then
        fd <- get tutorSerial ;;
        written <- WRITE fd data len ;;
        if written <? 0 then
          CLOSE fd ;;
          modify (set_tutorSerial INVALID_SERIAL) ;;
          if 0 <? retry then
            checkSerial ;;
            write_all fuel' data len (retry - 1)
          else ret tt
        else write_all fuel' (drop_bytes written data) (len - written) retry
      else ret tt
  end.

(** [void Tutor::safe_write(char *data, int len, bool flush_op)].  The
    store [data[len] = 0] serves the debug print; it lies inside the
    caller's array when [len] is less than the size of the array, which is
    for the caller to see to: [flushNoLock] passes 2 with [cmd[4]],
    [clearTutorLight] and [setTutorLightPressed] always 10 with [cmd[16]],
    and [setTutorLight] a length that depends on the colours. *)
Definition safe_write (data : string) (len : Z) (flush_op : bool) : M unit :=
  n <- get (fun w => List.length (reads w)) ;;
  do_while (S n) ping_body (fun s => negb (bytes_read s =? 1))
           (mk_handshake "." 0) ;;
  m <- get (fun w => List.length (writes w)) ;;
  write_all (4 + m) data len 2.

(** ** Tutor::pitchToLight *)

(** Conversion of an [int] to [double] (exact on 32-bit values). *)
Definition double_of_int (z : Z) : PrimFloat.float :=
  if z <? 0 then PrimFloat.opp (PrimFloat.of_uint63 (Uint63.of_Z (- z)))
  else PrimFloat.of_uint63 (Uint63.of_Z z).

Definition INT_MIN : Z := - 2 ^ 31.
Definition INT_MAX : Z := 2 ^ 31 - 1.

(** [int led = round(x)]: [round] of <math.h> takes the nearest integer,
    halfway cases away from zero; the result is then converted to [int].
    Converting a value outside the range of [int] (or a NaN) is undefined
    in C++; the model takes what the x86-64 conversion gives, [INT_MIN]. *)
Definition round_to_int (x : PrimFloat.float) : Z :=
  match FloatOps.Prim2SF x with
  | SpecFloat.S754_zero _ => 0
  | SpecFloat.S754_finite s m e =>
      let a := if 0 <=? e then Z.pos m * 2 ^ e
               else (Z.pos m + 2 ^ (- e - 1)) / 2 ^ (- e) in
      let r := if s then - a else a in
      if (INT_MIN <=? r) && (r <=? INT_MAX) then r else INT_MIN
  | SpecFloat.S754_infinity _ => INT_MIN
  | SpecFloat.S754_nan => INT_MIN
  end.

(** [round(diffpitch * coeff + reflight)] as an [int]: the product and the
    sum are each rounded to binary64 (no fused multiply-add). *)
Definition led_of (k : PrimFloat.float) (diffpitch reflight : Z) : Z :=
  round_to_int
    (PrimFloat.add (PrimFloat.mul (double_of_int diffpitch) k)
                   (double_of_int reflight)).

(** [int Tutor::pitchToLight(int pitch)]; the pair is
    [(reflight, diffpitch)]. *)
Definition pitchToLight (w : World) (pitch : Z) : Z :=
  let ref_diff :=
    if 60 <=? pitch then (c4light w, pitch - 60)
    else (c4light w
          + (if PrimFloat.ltb PrimFloat.zero (coeff w) then -1 else 1),
          pitch - 59) in
  let led := led_of (coeff w) (snd ref_diff) (fst ref_diff) in
  if led <? 0 then 0
  else if 255 <? led then 255
  else led.

(** ** The command protocol *)

Definition hex_digit (d : Z) : ascii :=
  nth (Z.to_nat d) (list_ascii_of_string "0123456789abcdef") "0"%char.

Fixpoint hex_digits (fuel : nat) (x : Z) (acc : string) : string :=
  match fuel with
  | O => acc
  | S fuel' =>
      let acc' := String (hex_digit (x mod 16)) acc in
      if x / 16 =? 0 then acc' else hex_digits fuel' (x / 16) acc'
  end.

(** The conversion [%02x] of printf: the argument read as a 32-bit
    unsigned value, in lower-case hexadecimal, at least two digits. *)
Definition fmt_02x (x : Z) : string :=
  let s := hex_digits 8 (x mod 2 ^ 32) EmptyString in
  if (String.length s <? 2)%nat then String "0" s else s.

(** The text of [printf("H%02x%02x%02x%02x\n", led, r, g, b)]. *)
Definition light_text (led r g b : Z) : string :=
  String "H" (fmt_02x led ++ fmt_02x r ++ fmt_02x g ++ fmt_02x b
              ++ String nl EmptyString).

(** [snprintf(cmd, sizeof(cmd) - 1, "H%02x%02x%02x%02x\n", led, r, g, b)]
    with [char cmd[16]]: at most 14 characters of the text are stored,
    followed by a NUL, and the value returned is the length of the whole
    text.  The result is what [cmd] holds before the NUL and the length
    returned; when the text was cut the NUL, which then is [cmd[14]], is
    part of it, since the length returned reaches it.  The text has 10
    characters unless a colour component lies outside 0..255. *)
Definition light_cmd (led r g b : Z) : string * Z :=
  let text := light_text led r g b in
  (if (String.length text <=? 14)%nat then text
   else (substring 0 14 text ++ String Ascii.zero EmptyString)%string,
   Z.of_nat (String.length text)).

(** ** Light primitives *)

(** The colour [setTutorLight] picks: [colors[0]] for a mistake, else
    [colors[1 + channel % 2]], divided by 8 for a future event. *)
Definition color_row (channel : Z) : Z :=
  if channel =? -1 then 0 else 1 + Z.rem channel 2.

Definition light_color (w : World) (channel future : Z) : Z * Z * Z :=
  let row := color_row channel in
  let r := colors w row 0 in
  let g := colors w row 1 in
  let b := colors w row 2 in
  if 0 <? future then (Z.quot r 8, Z.quot g 8, Z.quot b 8) else (r, g, b).

(** The command [setTutorLight] formats. *)
Definition setTutorLight_cmd (w : World) (pitch channel future : Z) : string * Z :=
  let '(r, g, b) := light_color w channel future in
  light_cmd (pitchToLight w pitch) r g b.

(** [void Tutor::setTutorLight(int pitch, int velo, int channel, int future)].
    With a length of 15, [safe_write] stores its NUL in [cmd[15]] and
    writes the 14 characters and the NUL of [snprintf].  With a length of
    16 or more the store of [safe_write] falls outside [cmd[16]]. *)
Definition setTutorLight (pitch velo channel future : Z) : M unit :=
  ok <- checkSerial ;;
  if ok then
    cmd <- get (fun w => setTutorLight_cmd w pitch channel future) ;;
    (if 16 <=? snd cmd then undefined
     else safe_write (fst cmd) (snd cmd) false) ;;
    modify (set_needs_flush true)
  else ret tt.

(** [void Tutor::clearTutorLight(int pitch)]; the text has always 10
    characters, as the LED index is one of 0..255. *)
Definition clearTutorLight (pitch : Z) : M unit :=
  ok <- checkSerial ;;
  if ok then
    cmd <- get (fun w => light_cmd (pitchToLight w pitch) 0 0 0) ;;
    safe_write (fst cmd) (snd cmd) false ;;
    modify (set_needs_flush true)
  else ret tt.

(** Mark a tutor light as pressed (dark grey), waiting for the note_off
    event to actually clear it. *)
Definition setTutorLightPressed (pitch : Z) : M unit :=
  ok <- checkSerial ;;
  if ok then
    cmd <- get (fun w => light_cmd (pitchToLight w pitch) 2 2 2) ;;
    safe_write (fst cmd) (snd cmd) false ;;
    modify (set_needs_flush true)
  else ret tt.

Definition flushNoLock : M unit :=
  ok <- checkSerial ;;
  nf <- get needs_flush ;;
  if ok && nf then
    safe_write (String "F" (String nl EmptyString)) 2 true ;;
    modify (set_needs_flush false)
  else ret tt.

(** ** The controller *)

(** [int def_colors[3][3]]: mistakes, even channels, odd channels. *)
Definition def_colors (i j : Z) : Z :=
  match i, j with
  | 0, 0 => 16
  | 1, 0 => 16 | 1, 2 => 16
  | 2, 1 => 16 | 2, 2 => 16
  | _, _ => 0
  end.

(** [Tutor::Tutor()].  The constructor stores [velo = -1] in every slot and
    nothing in the other fields, which keep what the memory [mem] held. *)
Definition Tutor_new (mem : Z -> tnote) (os : list open_reply)
    (rs : list read_reply) (ws : list write_reply) : World :=
  mkWorld DEFAULT_SERIAL_DEVICE INVALID_SERIAL
    (fun i => mk_tnote (-1) (channel (mem i)) (future (mem i)) (ts (mem i)))
    0 71 (PrimFloat.opp (double_of_int 2)) def_colors false false
    os rs ws [].


(** [void setCoeff(double c) { coeff = c; }] (tutor.h) *)
Definition setCoeff (c : PrimFloat.float) : M unit := modify (set_coeff c).

(** [unsigned long diff_us = (now.tv_sec - prev.tv_sec) * 1000000
                             + (now.tv_nsec - prev.tv_nsec) / 1000;]
    computed in [long] and converted to a 64-bit [unsigned long]. *)
Definition diff_us (now prev : timespec) : Z :=
  ((tv_sec now - tv_sec prev) * 1000000
   + Z.quot (tv_nsec now - tv_nsec prev) 1000) mod 2 ^ 64.

(** [n.velo != -1 && n.velo != -2] *)
Definition claimed (n : tnote) : bool :=
  negb (velo n =? -1) && negb (velo n =? -2).

(** [void Tutor::clearKeyNoLock(int pitch, bool mark)] *)
Definition clearKeyNoLock (pitch : Z) (mark : bool) (now : timespec) : M unit :=
  let pitch := Z.land pitch 255 in
  n <- get (fun w => notes w pitch) ;;
  if velo n =? -2 then
    clearTutorLight pitch ;;
    (* num_curr_events was already decreased in this case *)
    modify (set_velo pitch (-1))
  else if negb (velo n =? -1) then
    if future n =? 0 then
      clearTutorLight pitch ;;
      modify (fun w => set_num_curr_events (num_curr_events w - 1) w) ;;
      modify (set_velo pitch (-1))
    else if mark then
      modify (set_ts pitch now)
    else ret tt
  else ret tt.

(** [void Tutor::clearKey(int pitch, bool mark)] *)
Definition clearKey (pitch : Z) (mark : bool) (now : timespec) : M unit :=
  clearKeyNoLock pitch mark now.

(** The arbitration of [addKey] on a slot [n]: [None] is the [return] of
    the losing request, [Some prev] goes on with the value of [prev]. *)
Definition arbitrate (n : tnote) (velo' future' : Z) : M (option timespec) :=
  if claimed n then
    if (future' =? 0) && (0 <? future n) then
      modify (fun w => set_num_curr_events (num_curr_events w + 1) w) ;;
      ret (Some (if ts_set (ts n) then ts n else zero_ts))
    else if (future n <? future')
            || ((future' =? future n) && (velo' <? velo n)) then
      ret None
    else ret (Some zero_ts)
  else
    (if future' =? 0 then
       modify (fun w => set_num_curr_events (num_curr_events w + 1) w)
     else ret tt) ;;
    ret (Some zero_ts).

(** [void Tutor::addKey(int pitch, int velo, int channel, int future)] *)
Definition addKey (pitch velo' channel' future' : Z) (now : timespec) : M unit :=
  if velo' =? 0 then clearKey pitch false now
  else
    let pitch := Z.land pitch 255 in
    n <- get (fun w => notes w pitch) ;;
    if (velo' =? velo n) && (channel' =? channel n) && (future' =? future n)
    then ret tt
    else if channel' =? -1 then
      setTutorLight pitch velo' channel' 0 ;;
      modify (set_velo pitch (-2))
    else
      a <- arbitrate n velo' future' ;;
      match a with
      | None => ret tt
      | Some prev =>
          modify (set_note pitch (mk_tnote velo' channel' future' zero_ts)) ;;
          setTutorLight pitch velo' channel' future' ;;
          (* Future keys pressed less than 100ms ago are automatically cleared *)
          if ts_set prev then
            if diff_us now prev <? 100000 then
              clearTutorLight pitch ;;
              modify (fun w => set_num_curr_events (num_curr_events w - 1) w) ;;
              modify (set_velo pitch (-1))
            else ret tt
          else ret tt
      end.

(** [void Tutor::flush()] *)
Definition flush : M unit := flushNoLock.

(** [void Tutor::onFlushTimer()] *)
Definition onFlushTimer : M unit :=
  nf <- get needs_flush ;;
  if nf then flushNoLock else ret tt.

(** ms to wait before flushing on keyPressed() *)
Definition FLUSH_TOUT : Z := 5.

(** [QTimer::singleShot(FLUSH_TOUT, std::bind(... &Tutor::onFlushTimer ...))] *)
Definition singleShot_onFlushTimer : M unit :=
  modify (add_log (EvSingleShot FLUSH_TOUT)).

(** [int Tutor::keyPressed(int pitch, int velo)] *)
Definition keyPressed (pitch velo' : Z) (now : timespec) : M Z :=
  if velo' =? 0 then ret (-1)
  else
    let pitch := Z.land pitch 255 in
    n <- get (fun w => notes w pitch) ;;
    if (velo n =? -1) || (velo n =? -2) then ret (-1)
    else if future n =? 0 then
      lit <- get lit_until_release ;;
      (if lit then
         modify (set_velo pitch (-2)) ;;
         setTutorLightPressed pitch
       else
         modify (set_velo pitch (-1)) ;;
         clearTutorLight pitch) ;;
      modify (fun w => set_num_curr_events (num_curr_events w - 1) w) ;;
      singleShot_onFlushTimer ;;
      ret 0
    else
      k <- get num_curr_events ;;
      if (0 <? future n) && (k =? 0) then
        let rv := future n in
        clearKeyNoLock pitch true now ;;
        singleShot_onFlushTimer ;;
        ret rv
      else ret (-1).

(** [size_t Tutor::size()] *)
Definition size : M Z := get (fun w => num_curr_events w mod 2 ^ 64).

(** ** Sequences of calls *)

Inductive call :=
| AddKey (pitch velo' channel' future' : Z)
| ClearKey (pitch : Z) (mark : bool)
| KeyPressed (pitch velo' : Z).

Definition do_call (c : call) (now : timespec) : M unit :=
  match c with
  | AddKey p v c f => addKey p v c f now
  | ClearKey p mark => clearKey p mark now
  | KeyPressed p v => keyPressed p v now ;; ret tt
  end.

(** The calls of a list, each with the clock reading it meets. *)
Fixpoint run (cs : list (call * timespec)) : M unit :=
  match cs with
  | [] => ret tt
  | (c, now) :: rest => do_call c now ;; run rest
  end.

(** The number of slots that hold a claimed current event. *)
Definition current_slot (n : tnote) : bool := claimed n && (future n =? 0).

Definition count_current (w : World) : Z :=
  Z.of_nat (List.length
    (filter (fun i => current_slot (notes w i))
            (map Z.of_nat (seq 0 256)))).


(** ** Vocabulary of the properties *)

(** What the light primitives and the serial layer never change: the key
    table, the counter and the calibration. *)
Record same_keys (w w' : World) : Prop := mk_same_keys {
  sk_notes : notes w' = notes w;
  sk_num : num_curr_events w' = num_curr_events w;
  sk_c4light : c4light w' = c4light w;
  sk_coeff : coeff w' = coeff w;
  sk_colors : colors w' = colors w;
  sk_lit : lit_until_release w' = lit_until_release w
}.

(** A computation that only talks to the device. *)
Definition io_only {A} (m : M A) : Prop :=
  forall w a w', m w = Some (a, w') -> same_keys w w'.


(** The anti-flicker rule of [addKey] applies: the slot holds a future
    event with a recorded time stamp, the new event is a current one and
    [diff_us], from the stamp to the clock, is below 100000. *)
Definition flickers (n : tnote) (future' : Z) (now : timespec) : bool :=
  claimed n && (future' =? 0) && (0 <? future n)
  && ts_set (ts n) && (diff_us now (ts n) <? 100000).

(** The events of a run, oldest first. *)
Definition history (w : World) : list event := rev (log w).

(** The buffers the device took, oldest first. *)
Definition sent (w : World) : list string :=
  flat_map (fun e => match e with
                     | EvWrite _ buf ret => if 0 <=? ret then [buf] else []
                     | _ => []
                     end) (history w).

(** ** The mapping of pitches to lights, in the words of its description *)

Definition clamp (lo hi x : Z) : Z := Z.max lo (Z.min hi x).

(** An integer as a binary64 number: the conversion of IEEE 754, to the
    nearest, ties to even. *)
Definition binary64_of_Z (z : Z) : SpecFloat.spec_float :=
  SpecFloat.binary_normalize FloatOps.prec FloatOps.emax z 0 false.

(** [round]: the integer nearest to the exact value [(-1)^s * m * 2^e] of a
    binary64 number, halfway cases away from zero.  An infinity or a NaN
    has none. *)
Definition nearest_integer (x : SpecFloat.spec_float) : option Z :=
  match x with
  | SpecFloat.S754_zero _ => Some 0
  | SpecFloat.S754_finite s m e =>
      let a :=
        if 0 <=? e then Z.pos m * 2 ^ e
        else
          let d := 2 ^ (- e) in
          Z.pos m / d + (if d <=? 2 * (Z.pos m mod d) then 1 else 0) in
      Some (if s then - a else a)
  | SpecFloat.S754_infinity _ => None
  | SpecFloat.S754_nan => None
  end.

(** [round(diffpitch * k + reflight)], the product and the sum in
    binary64 as IEEE 754 defines them. *)
Definition rounded_light (k : SpecFloat.spec_float) (diffpitch reflight : Z)
  : option Z :=
  nearest_integer
    (FloatAxioms.SF64add
       (FloatAxioms.SF64mul (binary64_of_Z diffpitch) k)
       (binary64_of_Z reflight)).

(** For pitch >= 60, [round((pitch-60)*coeff + c4light)]; below 60,
    [round((pitch-59)*coeff + (c4light + (coeff > 0 ? -1 : 1)))]. *)
Definition pitchToLight_round (w : World) (pitch : Z) : option Z :=
  let k := FloatOps.Prim2SF (coeff w) in
  if 60 <=? pitch then rounded_light k (pitch - 60) (c4light w)
  else rounded_light k (pitch - 59)
         (c4light w
          + (if SpecFloat.SFltb (SpecFloat.S754_zero false) k then -1 else 1)).

(** The result clamped to [0, 255]. *)
Definition pitchToLight_spec (w : World) (pitch : Z) : option Z :=
  option_map (clamp 0 255) (pitchToLight_round w pitch).


(** ** Sample states *)

(** Zeroed memory under the object. *)
Definition mem0 (i : Z) : tnote := mk_tnote 0 0 0 zero_ts.

(** A new controller with no device attached. *)
Definition unplugged : World := Tutor_new mem0 [] [] [].

(** A new controller whose port is open on descriptor 3, with a device
    that will give the replies [rs] and [ws]. *)
Definition plugged (rs : list read_reply) (ws : list write_reply) : World :=
  set_tutorSerial 3 (Tutor_new mem0 [] rs ws).

(** A device that answers [k] pings and takes every buffer whole. *)
Definition prompt (k : nat) : World :=
  plugged (repeat (ReadByte "P") k) (repeat (Wrote 16) (2 * k)).

Definition t_10s : timespec := mk_timespec 10 0.
Definition t_10s_050 : timespec := mk_timespec 10 50000000.
Definition t_10s_200 : timespec := mk_timespec 10 200000000.

(** The new request of [addKey] takes the slot: the call is the light-set
    command on the state in which the slot holds the new event, and when
    it returns the slot holds the new event, with the counter as before. *)
Definition new_claim_wins (pitch v c h : Z) (now : timespec) (w : World) : Prop :=
  addKey pitch v c h now w
  = setTutorLight (Z.land pitch 255) v c h
      (set_note (Z.land pitch 255) (mk_tnote v c h zero_ts) w)
  /\ forall w',
      addKey pitch v c h now w = Some (tt, w') ->
      notes w' (Z.land pitch 255) = mk_tnote v c h zero_ts
      /\ num_curr_events w' = num_curr_events w.

(** The new request of [addKey] is dropped: the call returns at once and
    the state, log included, is what it was. *)
Definition new_claim_dropped (pitch v c h : Z) (now : timespec) (w : World) : Prop :=
  addKey pitch v c h now w = Some (tt, w).

(** A line of the protocol: the text and a newline. *)
Definition line (text : string) : string :=
  (text ++ String nl EmptyString)%string.

(** Slot 60 holds a future event of horizon 3; no current event. *)
Definition w_future3 : World :=
  set_note 60 (mk_tnote 64 0 3 zero_ts) unplugged.

(** As [w_future3], with a current event pending on slot 62. *)
Definition w_pending : World :=
  set_num_curr_events 1 (set_note 62 (mk_tnote 70 0 0 zero_ts) w_future3).

(** Slot 64 holds a future event of horizon 5 that was pressed at 10 s; the
    device answers two pings. *)
Definition w_stamped : World :=
  set_note 64 (mk_tnote 100 1 5 t_10s) (prompt 2).

(** A calibration of 10^10 lights per semitone. *)
Definition w_steep : World :=
  set_coeff (double_of_int 10000000000) unplugged.

(** As [w_stamped], the press at 10 s and 900000500 ns. *)
Definition w_stamped_late : World :=
  set_note 64 (mk_tnote 100 1 5 (mk_timespec 10 900000500)) (prompt 2).

Definition t_11s : timespec := mk_timespec 11 0.

(** The colour of even channels set to (74565, 4660, 0), five and four
    hexadecimal digits, on a device that answers one ping: a command text
    of 15 characters. *)
Definition w_fifteen : World :=
  set_colors (fun i j => if i =? 1 then
                           match j with 0 => 74565 | 1 => 4660 | _ => 0 end
                         else def_colors i j) (prompt 1).


(** The colour of even channels set to (300, 0, 0). *)
Definition w_red300 : World :=
  set_colors (fun i j => if i =? 1 then
                           match j with 0 => 300 | _ => 0 end
                         else colors unplugged i j) unplugged.

(** ** The counter and the table *)

(** The counter [k] agrees with the table [ns], and no claimed slot has a
    negative horizon. *)
Definition counted_at (ns : Z -> tnote) (k : Z) : Prop :=
  k = Z.of_nat (List.length
        (filter (fun i => current_slot (ns i)) (map Z.of_nat (seq 0 256))))
  /\ forall i, 0 <= i < 256 -> claimed (ns i) = true -> 0 <= future (ns i).

Definition counted (w : World) : Prop :=
  counted_at (notes w) (num_curr_events w).

(** Calls under which the counter keeps agreeing with the table: velocity
    and horizon are not negative, and a mistake marker does not land on a
    slot that holds a current event. *)
Definition well_behaved (w : World) (c : call) : Prop :=
  match c with
  | AddKey p v ch f =>
      0 <= v /\ 0 <= f
      /\ (ch = -1 -> current_slot (notes w (Z.land p 255)) = false)
  | ClearKey _ _ => True
  | KeyPressed _ _ => True
  end.

(** Every call of the run is well behaved in the state it meets. *)
Fixpoint behaved (cs : list (call * timespec)) (w : World) : Prop :=
  match cs with
  | [] => True
  | (c, now) :: rest =>
      well_behaved w c
      /\ forall w', do_call c now w = Some (tt, w') -> behaved rest w'
  end.

(** ** No device *)

(** The port is closed and there is nothing to open. *)
Definition no_device_for (w : World) : Prop :=
  tutorSerial w = INVALID_SERIAL /\ opens w = [].

(** With no device, the computation returns a value that satisfies [P],
    and there is still no device. *)
Definition returns_unplugged {A} (m : M A) (P : A -> Prop) : Prop :=
  forall w, no_device_for w ->
    exists a w', m w = Some (a, w') /\ P a /\ no_device_for w'.

(** ** The rest of the controller *)

Definition set_serialDevice (s : string) (w : World) : World :=
  mkWorld s (tutorSerial w) (notes w) (num_curr_events w) (c4light w)
    (coeff w) (colors w) (needs_flush w) (lit_until_release w)
    (opens w) (reads w) (writes w) (log w).

(** [for (int i = 0; i < N; ++i) body(i);] over the indices [l]. *)
Fixpoint for_each (l : list Z) (body : Z -> M unit) : M unit :=
  match l with
  | [] => ret tt
  | i :: l' => body i ;; for_each l' body
  end.

(** The indices [0 .. sizeof(notes) / sizeof(notes[0]) - 1]. *)
Definition slots : list Z := map Z.of_nat (seq 0 256).

(** [void Tutor::clearKeys(int channel)] *)
Definition clearKeys (channel' : Z) : M unit :=
  if channel' =? -1 then
    ok <- checkSerial ;;
    (if ok then
       (* 'c' also flushes *)
       safe_write (String "c" (String nl EmptyString)) 2 true ;;
       modify (set_needs_flush false)
     else ret tt) ;;
    for_each slots (fun i => modify (set_velo i (-1))) ;;
    modify (set_num_curr_events 0)
  else
    for_each slots (fun i =>
      n <- get (fun w => notes w i) ;;
      if negb (velo n =? -1) && (channel n =? channel') then
        clearTutorLight i ;;
        modify (set_velo i (-1))
      else ret tt) ;;
    flushNoLock.

(** [void Tutor::setSerialDevice(const std::string & s)] *)
Definition setSerialDevice (s : string) : M unit :=
  fd <- get tutorSerial ;;
  (if negb (fd =? INVALID_SERIAL) then CLOSE fd else ret tt) ;;
  modify (set_tutorSerial INVALID_SERIAL) ;;
  modify (set_serialDevice s).

(** [std::string Tutor::getSerialDevice() const] *)
Definition getSerialDevice : M string := get serialDevice.

(** ** More vocabulary *)

(** The pitch a call names. *)
Definition pitch_of (c : call) : Z :=
  match c with
  | AddKey p _ _ _ => p
  | ClearKey p _ => p
  | KeyPressed p _ => p
  end.

(** Everything of the key table and the calibration but slot [p] is the
    same in [w'] as in [w]. *)
Definition same_but (p : Z) (w w' : World) : Prop :=
  (forall q, q <> p -> notes w' q = notes w q)
  /\ c4light w' = c4light w
  /\ coeff w' = coeff w
  /\ colors w' = colors w
  /\ lit_until_release w' = lit_until_release w.

(** The computation changes no slot but [p]. *)
Definition touches_only {A} (p : Z) (m : M A) : Prop :=
  forall w a w', m w = Some (a, w') -> same_but p w w'.

(** How many times the port was closed, how many bytes were read. *)
Definition closes (w : World) : nat :=
  List.length (filter (fun e => match e with EvClose _ => true | _ => false end)
                      (log w)).

Definition bytes_got (w : World) : nat :=
  List.length (filter (fun e => match e with
                                | EvRead _ _ (Some _) => true
                                | _ => false
                                end) (log w)).

(** With no device, the computation returns, writes nothing and leaves
    the port closed and the flush flag as it was. *)
Definition quiet_unplugged {A} (m : M A) (P : A -> Prop) : Prop :=
  forall w, no_device_for w ->
    exists a w', m w = Some (a, w') /\ P a /\ no_device_for w'
                 /\ sent w' = sent w /\ needs_flush w' = needs_flush w.

(** The value of two hexadecimal digits. *)
Definition hex_value_of (c : ascii) : Z :=
  let n := Z.of_nat (nat_of_ascii c) in
  if (48 <=? n) && (n <=? 57) then n - 48 else n - 87.

Definition hex2_value (s : string) : Z :=
  match s with
  | String a (String b _) => 16 * hex_value_of a + hex_value_of b
  | _ => -1
  end.



(** A run: two current events and a future one, a press, and the future
    event becoming current 200 ms later. *)
Definition sample_run : list (call * timespec) :=
  [(AddKey 60 80 0 0, t_10s); (AddKey 64 90 1 3, t_10s);
   (AddKey 62 70 0 0, t_10s); (KeyPressed 60 64, t_10s_050);
   (AddKey 64 90 1 0, t_10s_200)].

(** The computation only adds to the log, and only events that satisfy
    [ok]. *)
Definition adds_only {A} (ok : event -> bool) (m : M A) : Prop :=
  forall w a w', m w = Some (a, w') ->
    exists new, log w' = (new ++ log w)%list /\ forallb ok new = true.

Definition is_close (e : event) : bool :=
  match e with EvClose _ => true | _ => false end.

Definition is_write (e : event) : bool :=
  match e with EvWrite _ _ _ => true | _ => false end.

(** The buffers of a list put end to end. *)
Definition join (l : list string) : string :=
  fold_right String.append EmptyString l.

(** Events that [checkSerial] logs: an [open], reads, a sleep. *)
Definition opening_event (e : event) : bool :=
  match e with
  | EvOpen _ _ | EvRead _ _ _ | EvSleep _ => true
  | _ => false
  end.


(** The computation leaves a flush pending, or it wrote nothing and left
    the flush flag as it was. *)
Definition marks_flush {A} (m : M A) : Prop :=
  forall w a w', m w = Some (a, w') ->
    needs_flush w' = true
    \/ (sent w' = sent w /\ needs_flush w' = needs_flush w).

(** ** Runs with the flush timer *)

(** What happens to the controller in the program: a call of a client, the
    callback [onFlushTimer] of a timer that [keyPressed] armed, which may
    come between any two calls, or a [flush]. *)
Inductive step :=
| Call (c : call) (now : timespec)
| TimerFires
| Flush.

Definition do_step (s : step) : M unit :=
  match s with
  | Call c now => do_call c now
  | TimerFires => onFlushTimer
  | Flush => flush
  end.

Fixpoint run_steps (ss : list step) : M unit :=
  match ss with
  | [] => ret tt
  | s :: rest => do_step s ;; run_steps rest
  end.

(** Calls with nothing in between. *)
Definition calls (cs : list (call * timespec)) : list step :=
  map (fun x => Call (fst x) (snd x)) cs.

(** A current event, its press, and the callback of the timer that the
    press armed. *)
Definition sample_steps : list step :=
  [Call (AddKey 60 80 0 0) t_10s; Call (KeyPressed 60 64) t_10s_050;
   TimerFires].
(** * Properties *)

(** ** The serial layer leaves the key table alone *)

Lemma same_keys_refl w : same_keys w w.
Proof. constructor; reflexivity. Qed.

Lemma same_keys_trans w1 w2 w3 :
  same_keys w1 w2 -> same_keys w2 w3 -> same_keys w1 w3.
Proof.
  intros [a1 a2 a3 a4 a5 a6] [b1 b2 b3 b4 b5 b6].
  constructor; congruence.
Qed.

Lemma io_ret {A} (a : A) : io_only (ret a).
Proof. intros w b w' H. inversion H; subst. apply same_keys_refl. Qed.

Lemma io_get {A} (f : World -> A) : io_only (get f).
Proof. intros w b w' H. inversion H; subst. apply same_keys_refl. Qed.

Lemma io_diverge {A} : io_only (@diverge A).
Proof. intros w b w' H. discriminate H. Qed.

Lemma io_undefined {A} : io_only (@undefined A).
Proof. intros w b w' H. discriminate H. Qed.

Lemma io_bind {A B} (m : M A) (k : A -> M B) :
  io_only m -> (forall a, io_only (k a)) -> io_only (bind m k).
Proof.
  intros Hm Hk w b w' H. unfold bind in H.
  destruct (m w) as [[a w1]|] eqn:E; [|discriminate].
  eapply same_keys_trans; [eapply Hm; eassumption | eapply Hk; eassumption].
Qed.

Lemma io_modify (f : World -> World) :
  (forall w, same_keys w (f w)) -> io_only (modify f).
Proof. intros Hf w b w' H. inversion H; subst. apply Hf. Qed.

Lemma io_if {A} (b : bool) (m1 m2 : M A) :
  io_only m1 -> io_only m2 -> io_only (if b then m1 else m2).
Proof. destruct b; auto. Qed.

Lemma same_keys_add_log e w : same_keys w (add_log e w).
Proof. constructor; reflexivity. Qed.

Lemma same_keys_set_tutorSerial fd w : same_keys w (set_tutorSerial fd w).
Proof. constructor; reflexivity. Qed.

Lemma same_keys_set_needs_flush b w : same_keys w (set_needs_flush b w).
Proof. constructor; reflexivity. Qed.

Lemma io_OPEN : io_only OPEN.
Proof.
  intros w a w' H. unfold OPEN in H.
  destruct (opens w); inversion H; subst; constructor; reflexivity.
Qed.

Lemma io_CLOSE fd : io_only (CLOSE fd).
Proof. apply io_modify, same_keys_add_log. Qed.

Lemma io_MILLI_SLEEP ms : io_only (MILLI_SLEEP ms).
Proof. apply io_modify, same_keys_add_log. Qed.

Lemma io_WRITE fd buf count : io_only (WRITE fd buf count).
Proof.
  intros w a w' H. unfold WRITE in H.
  destruct (fd =? INVALID_SERIAL); [inversion H; subst; constructor; reflexivity|].
  destruct (writes w) as [|[|n] rest];
    inversion H; subst; constructor; reflexivity.
Qed.

Lemma io_READ fd : io_only (READ fd).
Proof.
  intros w a w' H. unfold READ in H.
  destruct (fd =? INVALID_SERIAL); [inversion H; subst; constructor; reflexivity|].
  destruct (reads w) as [|[| |b] rest];
    inversion H; subst; constructor; reflexivity.
Qed.

Create HintDb io discriminated.
#[export] Hint Resolve io_ret io_get io_diverge io_undefined io_OPEN io_CLOSE
  io_MILLI_SLEEP io_WRITE io_READ same_keys_add_log same_keys_set_tutorSerial
  same_keys_set_needs_flush : io.

(** Splits a computation into its binds and conditionals. *)
Ltac io_step :=
  repeat first
    [ solve [auto with io]
    | apply io_modify
    | apply io_if
    | apply io_bind; [|intro] ].

Lemma io_wait_banner fuel : forall to_read, io_only (wait_banner fuel to_read).
Proof.
  induction fuel as [|fuel IH]; intro to_read; cbn [wait_banner]; io_step.
Qed.
#[export] Hint Resolve io_wait_banner : io.

Lemma io_checkSerial : io_only checkSerial.
Proof. unfold checkSerial. io_step. Qed.
#[export] Hint Resolve io_checkSerial : io.

Lemma io_ping_body s : io_only (ping_body s).
Proof. unfold ping_body. io_step. Qed.

Lemma io_do_while {S} (body : S -> M (completion * S)) cond :
  (forall s, io_only (body s)) ->
  forall fuel s, io_only (do_while fuel body cond s).
Proof.
  intros Hb fuel. induction fuel as [|fuel IH]; intro s; cbn [do_while].
  - apply io_diverge.
  - apply io_bind; [apply Hb|]. intros [c s']; cbn [fst snd].
    destruct c; (apply io_if; [apply IH | apply io_ret]).
Qed.

Lemma io_write_all fuel :
  forall data len retry, io_only (write_all fuel data len retry).
Proof.
  induction fuel as [|fuel IH]; intros data len retry; cbn [write_all]; io_step.
Qed.

#[export] Hint Resolve io_ping_body io_do_while io_write_all : io.

Lemma io_safe_write data len flush_op : io_only (safe_write data len flush_op).
Proof. unfold safe_write. io_step. Qed.
#[export] Hint Resolve io_safe_write : io.

Lemma io_setTutorLight p v c f : io_only (setTutorLight p v c f).
Proof. unfold setTutorLight. io_step. Qed.

Lemma io_clearTutorLight p : io_only (clearTutorLight p).
Proof. unfold clearTutorLight. io_step. Qed.

Lemma io_setTutorLightPressed p : io_only (setTutorLightPressed p).
Proof. unfold setTutorLightPressed. io_step. Qed.
#[export] Hint Resolve io_setTutorLight io_clearTutorLight
  io_setTutorLightPressed : io.

(** ** Elementary facts *)

Lemma land_255_idem p : Z.land (Z.land p 255) 255 = Z.land p 255.
Proof. rewrite <- Z.land_assoc. reflexivity. Qed.

Lemma land_255_mod p : Z.land p 255 = p mod 256.
Proof. change 255 with (Z.ones 8). rewrite Z.land_ones by lia. reflexivity. Qed.

Lemma land_255_range p : 0 <= Z.land p 255 <= 255.
Proof.
  rewrite land_255_mod.
  pose proof (Z.mod_pos_bound p 256 ltac:(lia)). lia.
Qed.

Lemma claimed_true n : claimed n = true <-> velo n <> -1 /\ velo n <> -2.
Proof.
  unfold claimed. rewrite andb_true_iff, !negb_true_iff, !Z.eqb_neq. tauto.
Qed.

Lemma claimed_false n : claimed n = false <-> velo n = -1 \/ velo n = -2.
Proof.
  unfold claimed. rewrite andb_false_iff, !negb_false_iff, !Z.eqb_eq. tauto.
Qed.

(** Running a computation on a state: the tests whose outcome is among
    the hypotheses are replaced by it. *)
Ltac use_tests :=
  repeat match goal with
         | H : ?b = true |- context [?b] => rewrite H
         | H : ?b = false |- context [?b] => rewrite H
         end.

Ltac mrun :=
  unfold bind, get, modify, ret;
  repeat (progress (cbv beta; use_tests; cbn [orb andb negb fst snd])).

(** ** keyPressed *)

(** The cases in which [keyPressed] answers -1: nothing happens. *)
Lemma keyPressed_ignored pitch v now w :
  v = 0 \/ velo (notes w (Z.land pitch 255)) = -1
  \/ velo (notes w (Z.land pitch 255)) = -2
  \/ (0 < future (notes w (Z.land pitch 255)) /\ 0 < num_curr_events w) ->
  keyPressed pitch v now w = Some (-1, w).
Proof.
  intros H. unfold keyPressed.
  destruct (Z.eqb_spec v 0) as [Hv|Hv]; [reflexivity|].
  unfold bind, get, ret.
  destruct (Z.eqb_spec (velo (notes w (Z.land pitch 255))) (-1)) as [E1|E1];
    [reflexivity|].
  destruct (Z.eqb_spec (velo (notes w (Z.land pitch 255))) (-2)) as [E2|E2];
    [reflexivity|].
  cbn [orb].
  destruct H as [H|[H|[H|[Hf Hk]]]]; try contradiction.
  destruct (Z.eqb_spec (future (notes w (Z.land pitch 255))) 0); [lia|].
  destruct (Z.eqb_spec (num_curr_events w) 0); [lia|].
  rewrite andb_false_r. reflexivity.
Qed.

(** What a computation that returned left of the key table. *)
Lemma io_notes {A} (m : M A) w a w' :
  io_only m -> m w = Some (a, w') -> notes w' = notes w.
Proof. intros Hm H. exact (sk_notes _ _ (Hm _ _ _ H)). Qed.

Lemma io_num {A} (m : M A) w a w' :
  io_only m -> m w = Some (a, w') -> num_curr_events w' = num_curr_events w.
Proof. intros Hm H. exact (sk_num _ _ (Hm _ _ _ H)). Qed.

(** C10.  Whenever [keyPressed] returns -1 the whole state, log and
    device scripts included, is the one before the call: no slot and no
    counter changed, nothing was sent and no flush was scheduled.  The
    call then met one of the listed cases: velocity 0, an unused slot, the
    sentinel, or a slot with a non-zero horizon that is not a future event
    with no current event pending. *)
Theorem keyPressed_minus_one_unchanged pitch v now w r w' :
  keyPressed pitch v now w = Some (r, w') ->
  r = -1 ->
  w' = w
  /\ (v = 0
      \/ velo (notes w (Z.land pitch 255)) = -1
      \/ velo (notes w (Z.land pitch 255)) = -2
      \/ (future (notes w (Z.land pitch 255)) <> 0
          /\ (future (notes w (Z.land pitch 255)) < 0
              \/ num_curr_events w <> 0))).
Proof.
  unfold keyPressed. intros H Hr.
  destruct (Z.eqb_spec v 0) as [Hv|Hv].
  { inversion H; subst. auto. }
  unfold bind at 1, get at 1 in H.
  destruct (Z.eqb_spec (velo (notes w (Z.land pitch 255))) (-1)) as [E1|E1].
  { inversion H; subst. auto. }
  destruct (Z.eqb_spec (velo (notes w (Z.land pitch 255))) (-2)) as [E2|E2].
  { inversion H; subst. auto. }
  cbn [orb] in H.
  destruct (Z.eqb_spec (future (notes w (Z.land pitch 255))) 0) as [F0|F0].
  - (* current event: the answer is 0 *)
    exfalso. unfold bind, get, modify, ret, singleShot_onFlushTimer in H.
    destruct (lit_until_release w).
    + destruct (setTutorLightPressed _ _) as [[u w1]|]; inversion H; lia.
    + destruct (clearTutorLight _ _) as [[u w1]|]; inversion H; lia.
  - unfold bind at 1, get at 1 in H.
    destruct (Z.ltb_spec 0 (future (notes w (Z.land pitch 255)))) as [Fp|Fp];
      destruct (Z.eqb_spec (num_curr_events w) 0) as [K|K];
      cbn [andb] in H.
    + (* skip ahead: the answer is the horizon *)
      exfalso. unfold bind, singleShot_onFlushTimer, modify, ret in H.
      destruct (clearKeyNoLock _ _ _ _) as [[u w1]|]; inversion H; lia.
    + inversion H; subst. split; [reflexivity|]. right. right. right. lia.
    + inversion H; subst. split; [reflexivity|]. right. right. right. lia.
    + inversion H; subst. split; [reflexivity|]. right. right. right. lia.
Qed.

(** C2, amended.  On a slot that holds a future event while no current
    event is pending, [keyPressed] returns the horizon, stores the clock
    reading in the slot's time stamp and schedules the deferred flush.
    Velocity, channel and horizon stay in the slot (it still holds the
    claim), and nothing is sent to the device. *)
Theorem keyPressed_skip_ahead pitch v now w :
  claimed (notes w (Z.land pitch 255)) = true ->
  0 < future (notes w (Z.land pitch 255)) ->
  num_curr_events w = 0 ->
  0 < v ->
  keyPressed pitch v now w
  = Some (future (notes w (Z.land pitch 255)),
          add_log (EvSingleShot FLUSH_TOUT) (set_ts (Z.land pitch 255) now w)).
Proof.
  intros Hc Hf Hk Hv. apply claimed_true in Hc. destruct Hc as [C1 C2].
  assert (E0 : (v =? 0) = false) by (apply Z.eqb_neq; lia).
  assert (E1 : (velo (notes w (Z.land pitch 255)) =? -1) = false)
    by (apply Z.eqb_neq; lia).
  assert (E2 : (velo (notes w (Z.land pitch 255)) =? -2) = false)
    by (apply Z.eqb_neq; lia).
  assert (E3 : (future (notes w (Z.land pitch 255)) =? 0) = false)
    by (apply Z.eqb_neq; lia).
  assert (E4 : (0 <? future (notes w (Z.land pitch 255))) = true)
    by (apply Z.ltb_lt; lia).
  assert (E5 : (num_curr_events w =? 0) = true) by (apply Z.eqb_eq; lia).
  unfold keyPressed, clearKeyNoLock, singleShot_onFlushTimer.
  rewrite land_255_idem. mrun. reflexivity.
Qed.

(** ** addKey *)

Lemma not_same_triple (v c h : Z) (n : tnote) :
  ~ (v = velo n /\ c = channel n /\ h = future n) ->
  (v =? velo n) && (c =? channel n) && (h =? future n) = false.
Proof.
  intros H.
  destruct (Z.eqb_spec v (velo n)); [|reflexivity].
  destruct (Z.eqb_spec c (channel n)); [|reflexivity].
  destruct (Z.eqb_spec h (future n)); [|reflexivity].
  exfalso. apply H. auto.
Qed.

(** The request repeats what the slot holds: nothing happens. *)
Lemma addKey_same pitch v c h now w :
  v <> 0 ->
  v = velo (notes w (Z.land pitch 255)) ->
  c = channel (notes w (Z.land pitch 255)) ->
  h = future (notes w (Z.land pitch 255)) ->
  addKey pitch v c h now w = Some (tt, w).
Proof.
  intros Hv E1 E2 E3. unfold addKey.
  apply Z.eqb_neq in Hv. rewrite Hv.
  unfold bind at 1, get at 1.
  apply Z.eqb_eq in E1, E2, E3. rewrite E1, E2, E3. reflexivity.
Qed.

(** The request loses the arbitration: nothing happens. *)
Lemma addKey_loses pitch v c h now w :
  v <> 0 -> c <> -1 ->
  claimed (notes w (Z.land pitch 255)) = true ->
  ~ (h = 0 /\ 0 < future (notes w (Z.land pitch 255))) ->
  future (notes w (Z.land pitch 255)) < h
  \/ (h = future (notes w (Z.land pitch 255))
      /\ v < velo (notes w (Z.land pitch 255))) ->
  addKey pitch v c h now w = Some (tt, w).
Proof.
  intros Hv Hc Hcl Hnd Hl.
  set (n := notes w (Z.land pitch 255)) in *.
  apply Z.eqb_neq in Hv, Hc.
  assert (Ed : (v =? velo n) && (c =? channel n) && (h =? future n) = false).
  { apply not_same_triple. intros (E1 & _ & E3). lia. }
  assert (E1 : (h =? 0) && (0 <? future n) = false).
  { destruct (Z.eqb_spec h 0); [|reflexivity].
    destruct (Z.ltb_spec 0 (future n)); [|reflexivity]. exfalso; auto. }
  assert (E2 : (future n <? h) || ((h =? future n) && (v <? velo n)) = true).
  { destruct Hl as [Hl|[Hl1 Hl2]].
    - apply Z.ltb_lt in Hl. rewrite Hl. reflexivity.
    - apply Z.eqb_eq in Hl1. apply Z.ltb_lt in Hl2.
      rewrite Hl1, Hl2. apply orb_true_r. }
  unfold addKey, arbitrate. rewrite Hv. fold n. mrun. fold n. mrun.
  reflexivity.
Qed.

(** The request wins and the anti-flicker rule does not apply: the slot
    takes the new event, the counter goes up when a current event comes to
    a slot that held none, and the light is set. *)
Lemma addKey_wins pitch v c h now w :
  v <> 0 -> c <> -1 ->
  ~ (v = velo (notes w (Z.land pitch 255))
     /\ c = channel (notes w (Z.land pitch 255))
     /\ h = future (notes w (Z.land pitch 255))) ->
  (claimed (notes w (Z.land pitch 255)) = true ->
   h <= future (notes w (Z.land pitch 255))
   /\ (h = future (notes w (Z.land pitch 255)) ->
       velo (notes w (Z.land pitch 255)) <= v)) ->
  flickers (notes w (Z.land pitch 255)) h now = false ->
  addKey pitch v c h now w
  = setTutorLight (Z.land pitch 255) v c h
      (set_note (Z.land pitch 255) (mk_tnote v c h zero_ts)
         (if (h =? 0)
             && (negb (claimed (notes w (Z.land pitch 255)))
                 || (0 <? future (notes w (Z.land pitch 255))))
          then set_num_curr_events (num_curr_events w + 1) w
          else w)).
Proof.
  intros Hv Hc Hnd Hw Hfl.
  set (p := Z.land pitch 255) in *. set (n := notes w p) in *.
  apply Z.eqb_neq in Hv, Hc. apply not_same_triple in Hnd.
  unfold addKey, arbitrate. rewrite Hv. fold p. unfold bind at 1, get at 1.
  fold n. rewrite Hnd, Hc. unfold flickers in Hfl.
  destruct (claimed n) eqn:Hcl.
  - destruct (Hw eq_refl) as [Hle Hve].
    destruct (Z.eqb_spec h 0) as [H0|H0];
      destruct (Z.ltb_spec 0 (future n)) as [Hf|Hf]; cbn [andb orb negb].
    + (* a current event displaces a future one *)
      cbn [andb] in Hfl.
      destruct (ts_set (ts n)) eqn:Hts.
      * cbn [andb] in Hfl. unfold bind, modify, ret. cbv beta.
        rewrite Hts, Hfl.
        destruct (setTutorLight _ _ _ _ _) as [[[] w']|]; reflexivity.
      * unfold bind, modify, ret. cbv beta.
        change (ts_set zero_ts) with false. cbv iota.
        destruct (setTutorLight _ _ _ _ _) as [[[] w']|]; reflexivity.
    + assert (E : (future n <? h) || ((h =? future n) && (v <? velo n)) = false).
      { destruct (Z.ltb_spec (future n) h); [lia|].
        destruct (Z.eqb_spec h (future n)); [|reflexivity].
        destruct (Z.ltb_spec v (velo n)); [|reflexivity].
        specialize (Hve ltac:(assumption)). lia. }
      rewrite E. unfold bind, modify, ret. cbv beta.
      change (ts_set zero_ts) with false. cbv iota.
      destruct (setTutorLight _ _ _ _ _) as [[[] w']|]; reflexivity.
    + assert (E : (future n <? h) || ((h =? future n) && (v <? velo n)) = false).
      { destruct (Z.ltb_spec (future n) h); [lia|].
        destruct (Z.eqb_spec h (future n)); [|reflexivity].
        destruct (Z.ltb_spec v (velo n)); [|reflexivity].
        specialize (Hve ltac:(assumption)). lia. }
      rewrite E. unfold bind, modify, ret. cbv beta.
      change (ts_set zero_ts) with false. cbv iota.
      destruct (setTutorLight _ _ _ _ _) as [[[] w']|]; reflexivity.
    + assert (E : (future n <? h) || ((h =? future n) && (v <? velo n)) = false).
      { destruct (Z.ltb_spec (future n) h); [lia|].
        destruct (Z.eqb_spec h (future n)); [|reflexivity].
        destruct (Z.ltb_spec v (velo n)); [|reflexivity].
        specialize (Hve ltac:(assumption)). lia. }
      rewrite E. unfold bind, modify, ret. cbv beta.
      change (ts_set zero_ts) with false. cbv iota.
      destruct (setTutorLight _ _ _ _ _) as [[[] w']|]; reflexivity.
  - cbn [negb orb]. rewrite andb_true_r.
    destruct (h =? 0); unfold bind, modify, ret; cbv beta;
      change (ts_set zero_ts) with false; cbv iota;
      destruct (setTutorLight _ _ _ _ _) as [[[] w']|]; reflexivity.
Qed.

(** The anti-flicker rule applies: the slot takes the new event and the
    counter goes up, the light is set, then the light is cleared, the
    counter goes down and the slot is marked unused. *)
Lemma addKey_flickers pitch v c now w :
  v <> 0 -> c <> -1 ->
  flickers (notes w (Z.land pitch 255)) 0 now = true ->
  addKey pitch v c 0 now w
  = (setTutorLight (Z.land pitch 255) v c 0 ;;
     clearTutorLight (Z.land pitch 255) ;;
     modify (fun w => set_num_curr_events (num_curr_events w - 1) w) ;;
     modify (set_velo (Z.land pitch 255) (-1)))
      (set_note (Z.land pitch 255) (mk_tnote v c 0 zero_ts)
         (set_num_curr_events (num_curr_events w + 1) w)).
Proof.
  intros Hv Hc Hfl.
  set (p := Z.land pitch 255) in *. set (n := notes w p) in *.
  unfold flickers in Hfl. rewrite !andb_true_iff in Hfl.
  destruct Hfl as ((((Hcl & _) & Hf) & Hts) & Hd).
  assert (Hnd : (v =? velo n) && (c =? channel n) && (0 =? future n) = false).
  { apply not_same_triple. apply Z.ltb_lt in Hf. intros (_ & _ & E). lia. }
  apply Z.eqb_neq in Hv, Hc.
  unfold addKey, arbitrate. rewrite Hv. fold p. unfold bind at 1, get at 1.
  fold n. rewrite Hnd, Hc, Hcl, Hf. cbn [Z.eqb andb].
  unfold bind, modify, ret. cbv beta. rewrite Hts. cbv iota.
  rewrite Hts, Hd. reflexivity.
Qed.

Lemma notes_set_note p n w : notes (set_note p n w) p = n.
Proof. cbn. rewrite Z.eqb_refl. reflexivity. Qed.

Lemma flickers_needs_current n h now :
  h <> 0 \/ future n <= 0 \/ ts_set (ts n) = false
  \/ 100000 <= diff_us now (ts n) ->
  flickers n h now = false.
Proof.
  intros H. unfold flickers.
  destruct (claimed n); [|reflexivity].
  destruct (Z.eqb_spec h 0) as [H0|H0]; [|reflexivity].
  destruct (Z.ltb_spec 0 (future n)) as [Hf|Hf]; [|reflexivity].
  destruct (ts_set (ts n)); [|reflexivity].
  destruct (Z.ltb_spec (diff_us now (ts n)) 100000); [|reflexivity].
  exfalso. destruct H as [H|[H|[H|H]]]; try lia; discriminate.
Qed.

(** C5, amended.  On a slot that holds a future event, a current event
    ([future = 0]) with a velocity above 0 and a channel other than -1 takes
    the slot whatever the velocities, and the counter goes up by one,
    provided the slot carries no time stamp or the call comes 100 ms or more
    after it.  The call is the light-set command on the updated state; when
    that returns, the slot holds the new event and the counter is one
    higher. *)
Theorem addKey_current_displaces_future pitch v c now w :
  claimed (notes w (Z.land pitch 255)) = true ->
  0 < future (notes w (Z.land pitch 255)) ->
  0 < v -> c <> -1 ->
  ts_set (ts (notes w (Z.land pitch 255))) = false
  \/ 100000 <= diff_us now (ts (notes w (Z.land pitch 255))) ->
  addKey pitch v c 0 now w
  = setTutorLight (Z.land pitch 255) v c 0
      (set_note (Z.land pitch 255) (mk_tnote v c 0 zero_ts)
         (set_num_curr_events (num_curr_events w + 1) w))
  /\ forall w',
      addKey pitch v c 0 now w = Some (tt, w') ->
      notes w' (Z.land pitch 255) = mk_tnote v c 0 zero_ts
      /\ num_curr_events w' = num_curr_events w + 1.
Proof.
  intros Hcl Hf Hv Hc Hts.
  assert (E : addKey pitch v c 0 now w
              = setTutorLight (Z.land pitch 255) v c 0
                  (set_note (Z.land pitch 255) (mk_tnote v c 0 zero_ts)
                     (set_num_curr_events (num_curr_events w + 1) w))).
  { assert (Hnd : ~ (v = velo (notes w (Z.land pitch 255))
                     /\ c = channel (notes w (Z.land pitch 255))
                     /\ 0 = future (notes w (Z.land pitch 255))))
      by (intros (_ & _ & E); lia).
    assert (Hfl : flickers (notes w (Z.land pitch 255)) 0 now = false)
      by (apply flickers_needs_current; tauto).
    rewrite (addKey_wins pitch v c 0 now w ltac:(lia) Hc Hnd ltac:(lia) Hfl).
    rewrite Hcl. apply Z.ltb_lt in Hf. rewrite Hf. reflexivity. }
  split; [exact E|].
  intros w' H. rewrite E in H.
  rewrite (io_notes _ _ _ _ (io_setTutorLight _ _ _ _) H).
  rewrite (io_num _ _ _ _ (io_setTutorLight _ _ _ _) H).
  split; [apply notes_set_note | reflexivity].
Qed.

(** The window of the rule in elapsed time, for clock readings with
    nanoseconds in 0..999999999: an event that comes up to 99.999 ms after
    the stamp is inside, one that comes 100 ms or more after it is outside;
    in between it depends on the two nanosecond fields. *)
Lemma diff_us_window now prev :
  0 <= tv_nsec now < 1000000000 ->
  0 <= tv_nsec prev < 1000000000 ->
  (0 <= (tv_sec now - tv_sec prev) * 1000000000
        + (tv_nsec now - tv_nsec prev) <= 99999000 ->
   diff_us now prev < 100000)
  /\ (100000000 <= (tv_sec now - tv_sec prev) * 1000000000
                    + (tv_nsec now - tv_nsec prev) < 2 ^ 63 ->
      100000 <= diff_us now prev).
Proof.
  intros Hn Hp. unfold diff_us.
  set (ds := tv_sec now - tv_sec prev).
  set (dn := tv_nsec now - tv_nsec prev).
  assert (Hdn : - 1000000000 < dn < 1000000000) by (unfold dn; lia).
  pose proof (Z.quot_rem' dn 1000) as E.
  assert (Hr : - 1000 < Z.rem dn 1000 < 1000).
  { pose proof (Z.rem_bound_abs dn 1000 ltac:(lia)). lia. }
  set (q := Z.quot dn 1000) in *. set (r := Z.rem dn 1000) in *.
  change (2 ^ 64) with 18446744073709551616.
  change (2 ^ 63) with 9223372036854775808.
  split; intro H; rewrite Z.mod_small by lia; lia.
Qed.

(** C7, amended.  When the slot holds a future event with a recorded time
    stamp and a current event ([future = 0], velocity not 0, channel not
    -1) comes with [diff_us] below 100000, the difference in microseconds
    that [addKey] computes from the stamp to the clock (the seconds times
    1000000 plus the nanoseconds divided by 1000 towards zero, as an
    unsigned 64-bit number), [addKey] stores the event and raises the
    counter, sends the light-set command, then clears the light again,
    lowers the counter by one and marks the slot unused.  When the call
    returns, the slot is unused and the counter is what it was. *)
Theorem addKey_anti_flicker pitch v c now w :
  claimed (notes w (Z.land pitch 255)) = true ->
  0 < future (notes w (Z.land pitch 255)) ->
  ts_set (ts (notes w (Z.land pitch 255))) = true ->
  diff_us now (ts (notes w (Z.land pitch 255))) < 100000 ->
  v <> 0 -> c <> -1 ->
  addKey pitch v c 0 now w
  = (setTutorLight (Z.land pitch 255) v c 0 ;;
     clearTutorLight (Z.land pitch 255) ;;
     modify (fun w => set_num_curr_events (num_curr_events w - 1) w) ;;
     modify (set_velo (Z.land pitch 255) (-1)))
      (set_note (Z.land pitch 255) (mk_tnote v c 0 zero_ts)
         (set_num_curr_events (num_curr_events w + 1) w))
  /\ forall w',
      addKey pitch v c 0 now w = Some (tt, w') ->
      notes w' (Z.land pitch 255) = mk_tnote (-1) c 0 zero_ts
      /\ num_curr_events w' = num_curr_events w.
Proof.
  intros Hcl Hf Hts Hd Hv Hc.
  assert (Hfl : flickers (notes w (Z.land pitch 255)) 0 now = true).
  { unfold flickers. apply Z.ltb_lt in Hf, Hd. rewrite Hcl, Hf, Hts, Hd.
    reflexivity. }
  pose proof (addKey_flickers pitch v c now w Hv Hc Hfl) as E.
  split; [exact E|].
  intros w' H. rewrite E in H. unfold bind, modify in H.
  destruct (setTutorLight _ _ _ _ _) as [[u1 w1]|] eqn:E1; [|discriminate].
  destruct (clearTutorLight _ _) as [[u2 w2]|] eqn:E2; [|discriminate].
  inversion H; subst w'. clear H.
  pose proof (io_notes _ _ _ _ (io_setTutorLight _ _ _ _) E1) as N1.
  pose proof (io_num _ _ _ _ (io_setTutorLight _ _ _ _) E1) as K1.
  pose proof (io_notes _ _ _ _ (io_clearTutorLight _) E2) as N2.
  pose proof (io_num _ _ _ _ (io_clearTutorLight _) E2) as K2.
  split.
  - unfold set_velo. rewrite notes_set_note. cbn [notes set_num_curr_events].
    rewrite N2, N1, notes_set_note. reflexivity.
  - cbn. rewrite K2, K1. cbn. lia.
Qed.

(** A request that wins over a claimed slot without displacing a future
    event by a current one. *)
Lemma addKey_wins_claimed pitch v c h now w :
  v <> 0 -> c <> -1 ->
  claimed (notes w (Z.land pitch 255)) = true ->
  ~ (v = velo (notes w (Z.land pitch 255))
     /\ c = channel (notes w (Z.land pitch 255))
     /\ h = future (notes w (Z.land pitch 255))) ->
  h <= future (notes w (Z.land pitch 255)) ->
  (h = future (notes w (Z.land pitch 255)) ->
   velo (notes w (Z.land pitch 255)) <= v) ->
  h <> 0 \/ future (notes w (Z.land pitch 255)) <= 0 ->
  new_claim_wins pitch v c h now w.
Proof.
  intros Hv Hc Hcl Hnd Hle Hve Hno.
  assert (Hfl : flickers (notes w (Z.land pitch 255)) h now = false)
    by (apply flickers_needs_current; tauto).
  assert (E : addKey pitch v c h now w
              = setTutorLight (Z.land pitch 255) v c h
                  (set_note (Z.land pitch 255) (mk_tnote v c h zero_ts) w)).
  { rewrite (addKey_wins pitch v c h now w Hv Hc Hnd (fun _ => conj Hle Hve) Hfl).
    rewrite Hcl. cbn [negb orb].
    destruct (Z.eqb_spec h 0) as [H0|H0]; [|reflexivity].
    destruct (Z.ltb_spec 0 (future (notes w (Z.land pitch 255)))); [lia|].
    reflexivity. }
  split; [exact E|].
  intros w' H. rewrite E in H.
  rewrite (io_notes _ _ _ _ (io_setTutorLight _ _ _ _) H).
  rewrite (io_num _ _ _ _ (io_setTutorLight _ _ _ _) H).
  split; [apply notes_set_note | reflexivity].
Qed.

(** C6.  On a claimed slot, for a new request with velocity above 0, a
    channel other than -1 and a triple that differs from the stored one:
    with a horizon above 0 that differs from the stored horizon the smaller
    horizon wins, with equal horizons the higher velocity wins; a losing
    request leaves the state as it is and sends nothing. *)
Theorem addKey_arbitration pitch v c h now w :
  claimed (notes w (Z.land pitch 255)) = true ->
  0 < v -> c <> -1 ->
  ~ (v = velo (notes w (Z.land pitch 255))
     /\ c = channel (notes w (Z.land pitch 255))
     /\ h = future (notes w (Z.land pitch 255))) ->
  (0 < h -> future (notes w (Z.land pitch 255)) < h ->
   new_claim_dropped pitch v c h now w)
  /\ (0 < h -> h < future (notes w (Z.land pitch 255)) ->
      new_claim_wins pitch v c h now w)
  /\ (h = future (notes w (Z.land pitch 255)) ->
      v < velo (notes w (Z.land pitch 255)) ->
      new_claim_dropped pitch v c h now w)
  /\ (h = future (notes w (Z.land pitch 255)) ->
      velo (notes w (Z.land pitch 255)) < v ->
      new_claim_wins pitch v c h now w).
Proof.
  intros Hcl Hv Hc Hnd. split; [|split; [|split]].
  - intros Hh Hlt. apply addKey_loses; solve [lia | assumption].
  - intros Hh Hlt. apply addKey_wins_claimed; solve [lia | assumption].
  - intros He Hlt. apply addKey_loses; solve [lia | assumption].
  - intros He Hlt. apply addKey_wins_claimed; solve [lia | assumption].
Qed.

(** C4, amended.  For a velocity above 0 and a channel other than -1, when
    the first call does not fall under the anti-flicker rule, a second
    [addKey] with the same arguments right after the first returns at once
    and leaves the state, log included, as the first call left it: it sends
    nothing. *)
Theorem addKey_twice pitch v c h t1 t2 w w1 :
  0 < v -> c <> -1 ->
  flickers (notes w (Z.land pitch 255)) h t1 = false ->
  addKey pitch v c h t1 w = Some (tt, w1) ->
  addKey pitch v c h t2 w1 = Some (tt, w1).
Proof.
  intros Hv Hc Hfl H1.
  set (p := Z.land pitch 255) in *. set (n := notes w p) in *.
  assert (Hv0 : v <> 0) by lia.
  assert (D : (v = velo n /\ c = channel n /\ h = future n)
              \/ ~ (v = velo n /\ c = channel n /\ h = future n)) by lia.
  destruct D as [(E1 & E2 & E3)|Hnd].
  { (* the slot already holds the triple *)
    rewrite (addKey_same pitch v c h t1 w Hv0 E1 E2 E3) in H1.
    inversion H1; subst w1. apply addKey_same; assumption. }
  assert (Hwin : (claimed n = true ->
                  h <= future n /\ (h = future n -> velo n <= v)) ->
                 addKey pitch v c h t2 w1 = Some (tt, w1)).
  { (* the first call won: the slot now holds the triple *)
    intros Hw.
    rewrite (addKey_wins pitch v c h t1 w Hv0 Hc Hnd Hw Hfl) in H1.
    pose proof (io_notes _ _ _ _ (io_setTutorLight _ _ _ _) H1) as N.
    fold p in N.
    apply addKey_same; fold p; rewrite ?N, ?notes_set_note;
      solve [assumption | reflexivity]. }
  destruct (claimed n) eqn:Hcl.
  - assert (L : (~ (h = 0 /\ 0 < future n)
                 /\ (future n < h \/ (h = future n /\ v < velo n)))
                \/ (h <= future n /\ (h = future n -> velo n <= v))) by lia.
    destruct L as [[L1 L2]|L].
    + (* the first call lost: nothing changed, the second loses too *)
      rewrite (addKey_loses pitch v c h t1 w Hv0 Hc Hcl L1 L2) in H1.
      inversion H1; subst w1. apply addKey_loses; assumption.
    + apply Hwin. intros _. exact L.
  - apply Hwin. intros Habs. discriminate Habs.
Qed.

(** ** pitchToLight *)


(** The conversion of an [int] to [double] is the one of IEEE 754. *)
Lemma binary_round_opp s m e :
  SpecFloat.SFopp (SpecFloat.binary_round FloatOps.prec FloatOps.emax s m e)
  = SpecFloat.binary_round FloatOps.prec FloatOps.emax (negb s) m e.
Proof.
  unfold SpecFloat.binary_round.
  destruct (SpecFloat.shl_align _ _ _) as [mz ez].
  unfold SpecFloat.binary_round_aux.
  destruct (SpecFloat.shr_fexp _ _ _ _ _) as [mrs' e'].
  destruct (SpecFloat.shr_fexp _ _ _ _ _) as [mrs'' e''].
  destruct (SpecFloat.shr_m mrs''); try reflexivity.
  destruct (e'' <=? _); reflexivity.
Qed.

Lemma double_of_int_spec z :
  - 2 ^ 63 < z < 2 ^ 63 ->
  FloatOps.Prim2SF (double_of_int z) = binary64_of_Z z.
Proof.
  intros Hz. unfold double_of_int, binary64_of_Z.
  destruct (Z.ltb_spec z 0) as [Hn|Hn].
  - rewrite FloatAxioms.opp_spec, FloatAxioms.of_uint63_spec, Uint63.of_Z_spec.
    rewrite Z.mod_small by (change Uint63.wB with (2 ^ 63); lia).
    destruct z as [|p|p]; try lia.
    cbn [Z.opp SpecFloat.binary_normalize].
    apply binary_round_opp.
  - rewrite FloatAxioms.of_uint63_spec, Uint63.of_Z_spec.
    rewrite Z.mod_small by (change Uint63.wB with (2 ^ 63); lia).
    reflexivity.
Qed.

Lemma half_away m d :
  0 < d -> 0 <= m ->
  (m + d) / (2 * d) = m / (2 * d) + (if 2 * d <=? 2 * (m mod (2 * d)) then 1 else 0).
Proof.
  intros Hd Hm.
  pose proof (Z.div_mod m (2 * d) ltac:(lia)) as E.
  pose proof (Z.mod_pos_bound m (2 * d) ltac:(lia)) as B.
  set (q := m / (2 * d)) in *. set (r := m mod (2 * d)) in *.
  destruct (Z.leb_spec (2 * d) (2 * r)).
  - symmetry. apply Z.div_unique with (r := r - d); [lia|]. lia.
  - symmetry. apply Z.div_unique with (r := r + d); [lia|]. lia.
Qed.

Lemma round_to_int_nearest x z :
  nearest_integer (FloatOps.Prim2SF x) = Some z ->
  INT_MIN <= z <= INT_MAX ->
  round_to_int x = z.
Proof.
  unfold nearest_integer, round_to_int.
  destruct (FloatOps.Prim2SF x) as [s|s| |s m e]; try discriminate.
  - intros E _. congruence.
  - assert (Ha : (if 0 <=? e then Z.pos m * 2 ^ e
                  else (Z.pos m + 2 ^ (- e - 1)) / 2 ^ (- e))
                 = (if 0 <=? e then Z.pos m * 2 ^ e
                    else Z.pos m / 2 ^ (- e)
                         + (if 2 ^ (- e) <=? 2 * (Z.pos m mod 2 ^ (- e))
                            then 1 else 0))).
    { destruct (Z.leb_spec 0 e) as [He|He]; [reflexivity|].
      replace (2 ^ (- e)) with (2 * 2 ^ (- e - 1)).
      - apply half_away; [apply Z.pow_pos_nonneg; lia | lia].
      - rewrite <- Z.pow_succ_r by lia. f_equal. lia. }
    cbv zeta. rewrite Ha.
    set (a := if 0 <=? e then _ else _). clearbody a.
    intros E Hz.
    assert (Ez : (if s then - a else a) = z) by congruence.
    rewrite Ez.
    destruct (Z.leb_spec INT_MIN z); [|lia].
    destruct (Z.leb_spec z INT_MAX); [|lia].
    reflexivity.
Qed.

Lemma led_of_rounded k diffpitch reflight z :
  - 2 ^ 63 < diffpitch < 2 ^ 63 -> - 2 ^ 63 < reflight < 2 ^ 63 ->
  rounded_light (FloatOps.Prim2SF k) diffpitch reflight = Some z ->
  INT_MIN <= z <= INT_MAX ->
  led_of k diffpitch reflight = z.
Proof.
  intros Hd Hr E Hz. unfold led_of. apply round_to_int_nearest; [|exact Hz].
  rewrite FloatAxioms.add_spec, FloatAxioms.mul_spec.
  rewrite !double_of_int_spec by assumption. exact E.
Qed.

(** C8, amended.  Where the arithmetic on [int] does not overflow and the
    value [round((pitch-60)*coeff + c4light)] from pitch 60 up,
    [round((pitch-59)*coeff + (c4light + (coeff > 0 ? -1 : 1)))] below,
    with the product and the sum in double precision, is a number in the
    range of [int], [pitchToLight] returns that value clamped to
    [0, 255]. *)
Theorem pitchToLight_refines_spec w pitch z :
  INT_MIN + 59 <= pitch <= INT_MAX ->
  INT_MIN < c4light w < INT_MAX ->
  pitchToLight_round w pitch = Some z ->
  INT_MIN <= z <= INT_MAX ->
  pitchToLight w pitch = clamp 0 255 z
  /\ pitchToLight_spec w pitch = Some (pitchToLight w pitch).
Proof.
  intros Hp Hc E Hz. unfold INT_MIN, INT_MAX in Hp, Hc.
  assert (L : pitchToLight w pitch = clamp 0 255 z).
  { unfold pitchToLight, pitchToLight_round in *.
    rewrite FloatAxioms.ltb_spec.
    change (FloatOps.Prim2SF PrimFloat.zero) with (SpecFloat.S754_zero false).
    destruct (60 <=? pitch); cbn [fst snd].
    - rewrite (led_of_rounded _ _ _ z) by (assumption || lia).
      unfold clamp.
      destruct (Z.ltb_spec z 0); [lia|].
      destruct (Z.ltb_spec 255 z); lia.
    - destruct (SpecFloat.SFltb _ _);
        rewrite (led_of_rounded _ _ _ z) by (assumption || lia);
        unfold clamp;
        (destruct (Z.ltb_spec z 0); [lia|]);
        destruct (Z.ltb_spec 255 z); lia. }
  split; [exact L|].
  unfold pitchToLight_spec. rewrite E, L. reflexivity.
Qed.

(** ** Value ranges *)





(** *** The conversion [%02x] *)















(** ** When the counter agrees with the table *)

Lemma filter_ext_in_length {A} (f g : A -> bool) l :
  (forall x, In x l -> f x = g x) ->
  List.length (filter f l) = List.length (filter g l).
Proof.
  intros H. induction l as [|a l IH]; [reflexivity|].
  cbn. rewrite (H a (or_introl eq_refl)).
  destruct (g a); cbn; rewrite IH; auto using in_cons.
Qed.

(** Changing the slot [p] of a table changes the count by what the slot
    contributed before and contributes after. *)
Lemma count_update (cs : tnote -> bool) (ns : Z -> tnote) p n' l :
  NoDup l -> In p l ->
  Z.of_nat (List.length
              (filter (fun i => cs (if i =? p then n' else ns i)) l))
  = Z.of_nat (List.length (filter (fun i => cs (ns i)) l))
    - Z.b2z (cs (ns p)) + Z.b2z (cs n').
Proof.
  induction l as [|a l IH]; intros Hnd Hin; [destruct Hin|].
  inversion Hnd as [|a' l' Hna Hnd']; subst.
  cbn [filter].
  destruct (Z.eqb_spec a p) as [E|E].
  - subst a.
    assert (Ht : List.length
                   (filter (fun i => cs (if i =? p then n' else ns i)) l)
                 = List.length (filter (fun i => cs (ns i)) l)).
    { apply filter_ext_in_length. intros x Hx.
      destruct (Z.eqb_spec x p); [subst; contradiction|reflexivity]. }
    destruct (cs n'), (cs (ns p)); cbn [List.length Z.b2z]; rewrite Ht; lia.
  - destruct Hin as [Hin|Hin]; [contradiction|].
    specialize (IH Hnd' Hin).
    destruct (cs (ns a)); cbn [List.length]; lia.
Qed.

Lemma slots_NoDup : NoDup (map Z.of_nat (seq 0 256)).
Proof.
  apply NoDup_map_NoDup_ForallPairs; [|apply seq_NoDup].
  intros x y _ _ H. apply Nat2Z.inj. exact H.
Qed.

Lemma slots_In p : 0 <= p < 256 -> In p (map Z.of_nat (seq 0 256)).
Proof.
  intros H. apply in_map_iff. exists (Z.to_nat p). split; [lia|].
  apply in_seq. lia.
Qed.

(** One slot changes and the counter follows. *)
Lemma counted_at_update ns k p n' k' :
  counted_at ns k ->
  0 <= p < 256 ->
  (claimed n' = true -> 0 <= future n') ->
  k' = k - Z.b2z (current_slot (ns p)) + Z.b2z (current_slot n') ->
  counted_at (fun i => if i =? p then n' else ns i) k'.
Proof.
  intros [Hk Hh] Hp Hn' ->. split.
  - rewrite (count_update current_slot ns p n' _ slots_NoDup (slots_In p Hp)).
    lia.
  - intros i Hi. destruct (Z.eqb_spec i p); [exact Hn'|apply Hh; exact Hi].
Qed.

(** A new controller: counter 0, no claimed slot. *)
Lemma counted_new mem os rs ws : counted (Tutor_new mem os rs ws).
Proof.
  split.
  - cbn [Tutor_new notes num_curr_events].
    rewrite (filter_ext_in_length _ (fun _ => false)); [|reflexivity].
    induction (map Z.of_nat (seq 0 256)) as [|a l IH]; [reflexivity|exact IH].
  - intros i _ H. discriminate H.
Qed.

Lemma land_255_slot p : 0 <= Z.land p 255 < 256.
Proof. pose proof (land_255_range p). lia. Qed.

Lemma counted_same_keys w w' : same_keys w w' -> counted w -> counted w'.
Proof.
  intros SK H. unfold counted. rewrite (sk_notes _ _ SK), (sk_num _ _ SK).
  exact H.
Qed.

Lemma current_slot_unclaimed n : claimed n = false -> current_slot n = false.
Proof. intros H. unfold current_slot. rewrite H. reflexivity. Qed.

Lemma current_slot_future n : future n <> 0 -> current_slot n = false.
Proof.
  intros H. unfold current_slot. apply Z.eqb_neq in H. rewrite H.
  apply andb_false_r.
Qed.

Lemma claimed_positive v c f t : 0 < v -> claimed (mk_tnote v c f t) = true.
Proof. intros H. apply claimed_true. cbn. lia. Qed.

(** The slot [p] of a counted state is given up: the counter, lowered by
    what the slot contributed, still agrees. *)
Lemma counted_release w w1 p v c f t :
  counted w -> same_keys w w1 -> 0 <= p < 256 ->
  claimed (mk_tnote v c f t) = false ->
  counted (set_num_curr_events
             (num_curr_events w1 - Z.b2z (current_slot (notes w p)))
             (set_note p (mk_tnote v c f t) w1)).
Proof.
  intros Hc SK Hp Hcl. unfold counted.
  cbn [notes num_curr_events set_note set_notes set_num_curr_events].
  rewrite (sk_notes _ _ SK), (sk_num _ _ SK).
  eapply counted_at_update; [exact Hc|exact Hp| |].
  - rewrite Hcl. discriminate.
  - rewrite (current_slot_unclaimed _ Hcl). cbn [Z.b2z]. lia.
Qed.

Lemma clearKeyNoLock_counted pitch mark now w w' :
  counted w -> clearKeyNoLock pitch mark now w = Some (tt, w') -> counted w'.
Proof.
  intros Hc H. unfold clearKeyNoLock in H.
  pose proof (land_255_slot pitch) as Hp.
  set (p := Z.land pitch 255) in *.
  unfold bind at 1, get at 1 in H. set (n := notes w p) in *.
  destruct (Z.eqb_spec (velo n) (-2)) as [E2|E2].
  { unfold bind, modify in H.
    destruct (clearTutorLight p w) as [[u w1]|] eqn:E; [|discriminate].
    inversion H; subst w'; clear H.
    pose proof (io_clearTutorLight p _ _ _ E) as SK.
    pose proof (counted_release w w1 p (-1) (channel (notes w1 p))
                  (future (notes w1 p)) (ts (notes w1 p)) Hc SK Hp eq_refl) as R.
    fold n in R. rewrite (current_slot_unclaimed n) in R
      by (apply claimed_false; auto).
    unfold counted in *. cbn in R |- *. rewrite Z.sub_0_r in R. exact R. }
  destruct (Z.eqb_spec (velo n) (-1)) as [E1|E1]; cbn [negb] in H.
  { inversion H; subst. exact Hc. }
  destruct (Z.eqb_spec (future n) 0) as [F|F].
  { unfold bind, modify in H.
    destruct (clearTutorLight p w) as [[u w1]|] eqn:E; [|discriminate].
    inversion H; subst w'; clear H.
    pose proof (io_clearTutorLight p _ _ _ E) as SK.
    pose proof (counted_release w w1 p (-1) (channel (notes w1 p))
                  (future (notes w1 p)) (ts (notes w1 p)) Hc SK Hp eq_refl) as R.
    fold n in R.
    assert (Hcur : current_slot n = true).
    { unfold current_slot. apply andb_true_iff. split.
      - apply claimed_true. auto.
      - apply Z.eqb_eq. exact F. }
    rewrite Hcur in R. unfold counted in *. cbn in R |- *. exact R. }
  destruct mark.
  - inversion H; subst w'; clear H. unfold counted, set_ts.
    cbn [notes num_curr_events set_note set_notes]. fold n.
    eapply counted_at_update; [exact Hc|exact Hp| |].
    + intros Hcl. apply (proj2 Hc p); [exact Hp|]. exact Hcl.
    + fold n. rewrite !current_slot_future by (cbn; exact F). lia.
  - inversion H; subst. exact Hc.
Qed.

Lemma keyPressed_counted pitch v now w r w' :
  counted w -> keyPressed pitch v now w = Some (r, w') -> counted w'.
Proof.
  intros Hc H. unfold keyPressed in H.
  destruct (v =? 0); [inversion H; subst; exact Hc|].
  pose proof (land_255_slot pitch) as Hp.
  set (p := Z.land pitch 255) in *.
  unfold bind at 1, get at 1 in H. set (n := notes w p) in *.
  destruct (Z.eqb_spec (velo n) (-1)) as [E1|E1];
    [inversion H; subst; exact Hc|].
  destruct (Z.eqb_spec (velo n) (-2)) as [E2|E2];
    [inversion H; subst; exact Hc|].
  cbn [orb] in H.
  assert (Hcl : claimed n = true) by (apply claimed_true; auto).
  destruct (Z.eqb_spec (future n) 0) as [F|F].
  - assert (Hcur : current_slot n = true).
    { unfold current_slot. rewrite Hcl. apply Z.eqb_eq in F. rewrite F.
      reflexivity. }
    unfold bind at 1, get at 1 in H.
    unfold bind, modify, ret, singleShot_onFlushTimer in H.
    destruct (lit_until_release w).
    + destruct (setTutorLightPressed p _) as [[u w1]|] eqn:E; [|discriminate].
      inversion H; subst w' r; clear H.
      pose proof (io_setTutorLightPressed p _ _ _ E) as SK.
      pose proof (sk_notes _ _ SK) as N. pose proof (sk_num _ _ SK) as K.
      unfold counted. cbn [notes num_curr_events add_log set_num_curr_events].
      rewrite N, K. cbn [notes num_curr_events set_velo set_note set_notes].
      fold n. eapply counted_at_update; [exact Hc|exact Hp| |].
      * discriminate.
      * fold n. rewrite Hcur. cbn. lia.
    + destruct (clearTutorLight p _) as [[u w1]|] eqn:E; [|discriminate].
      inversion H; subst w' r; clear H.
      pose proof (io_clearTutorLight p _ _ _ E) as SK.
      pose proof (sk_notes _ _ SK) as N. pose proof (sk_num _ _ SK) as K.
      unfold counted. cbn [notes num_curr_events add_log set_num_curr_events].
      rewrite N, K. cbn [notes num_curr_events set_velo set_note set_notes].
      fold n. eapply counted_at_update; [exact Hc|exact Hp| |].
      * discriminate.
      * fold n. rewrite Hcur. cbn. lia.
  - unfold bind at 1, get at 1 in H.
    destruct ((0 <? future n) && (num_curr_events w =? 0)).
    + unfold bind, modify, ret, singleShot_onFlushTimer in H.
      destruct (clearKeyNoLock p true now w) as [[u w1]|] eqn:E; [|discriminate].
      inversion H; subst w' r; clear H. destruct u.
      apply (clearKeyNoLock_counted _ _ _ _ _ Hc) in E.
      exact E.
    + inversion H; subst. exact Hc.
Qed.

(** The mistake marker: the light is set to the mistake colour and the
    slot takes the sentinel. *)
Lemma addKey_mistake pitch v h now w :
  v <> 0 ->
  ~ (v = velo (notes w (Z.land pitch 255))
     /\ -1 = channel (notes w (Z.land pitch 255))
     /\ h = future (notes w (Z.land pitch 255))) ->
  addKey pitch v (-1) h now w
  = (setTutorLight (Z.land pitch 255) v (-1) 0 ;;
     modify (set_velo (Z.land pitch 255) (-2))) w.
Proof.
  intros Hv Hnd. apply Z.eqb_neq in Hv. apply not_same_triple in Hnd.
  unfold addKey. rewrite Hv. unfold bind at 1, get at 1. rewrite Hnd.
  reflexivity.
Qed.

Lemma addKey_counted pitch v c h now w w' :
  counted w ->
  well_behaved w (AddKey pitch v c h) ->
  addKey pitch v c h now w = Some (tt, w') ->
  counted w'.
Proof.
  intros Hc (Hv & Hh & Hm) H.
  pose proof (land_255_slot pitch) as Hp.
  destruct (Z.eq_dec v 0) as [V0|V0].
  { subst v. unfold addKey in H. cbn [Z.eqb] in H.
    eapply clearKeyNoLock_counted; eassumption. }
  set (p := Z.land pitch 255) in *. set (n := notes w p) in *.
  assert (D : (v = velo n /\ c = channel n /\ h = future n)
              \/ ~ (v = velo n /\ c = channel n /\ h = future n)) by lia.
  destruct D as [(E1 & E2 & E3)|Hnd].
  { rewrite (addKey_same pitch v c h now w V0 E1 E2 E3) in H.
    inversion H; subst. exact Hc. }
  destruct (Z.eq_dec c (-1)) as [C|C].
  { (* the mistake marker on a slot that holds no current event *)
    subst c. rewrite (addKey_mistake pitch v h now w V0 Hnd) in H.
    fold p in H. unfold bind, modify in H.
    destruct (setTutorLight p v (-1) 0 w) as [[u w1]|] eqn:E; [|discriminate].
    inversion H; subst w'; clear H.
    pose proof (io_setTutorLight _ _ _ _ _ _ _ E) as SK.
    pose proof (counted_release w w1 p (-2) (channel (notes w1 p))
                  (future (notes w1 p)) (ts (notes w1 p)) Hc SK Hp eq_refl) as R.
    fold n in R. rewrite (Hm eq_refl) in R.
    unfold counted in *. cbn in R |- *. rewrite Z.sub_0_r in R. exact R. }
  assert (Hnew : claimed (mk_tnote v c h zero_ts) = true)
    by (apply claimed_positive; lia).
  destruct (flickers n h now) eqn:Hfl.
  - (* anti-flicker: claimed, then given up *)
    unfold flickers in Hfl. rewrite !andb_true_iff in Hfl.
    destruct Hfl as ((((Hcl & H0) & Hf) & Hts) & Hd).
    apply Z.eqb_eq in H0. subst h. apply Z.ltb_lt in Hf.
    rewrite (addKey_flickers pitch v c now w V0 C) in H.
    2:{ unfold flickers. fold p n. rewrite Hcl, Hts, Hd.
        apply Z.ltb_lt in Hf. rewrite Hf. reflexivity. }
    fold p in H. unfold bind, modify in H.
    destruct (setTutorLight p v c 0 _) as [[u1 w1]|] eqn:E1; [|discriminate].
    destruct (clearTutorLight p w1) as [[u2 w2]|] eqn:E2; [|discriminate].
    inversion H; subst w'; clear H.
    pose proof (io_setTutorLight _ _ _ _ _ _ _ E1) as SK1.
    pose proof (io_clearTutorLight _ _ _ _ E2) as SK2.
    pose proof (same_keys_trans _ _ _ SK1 SK2) as SK.
    assert (Hmid : counted (set_note p (mk_tnote v c 0 zero_ts)
                     (set_num_curr_events (num_curr_events w + 1) w))).
    { unfold counted. cbn [notes num_curr_events set_note set_notes
                            set_num_curr_events].
      eapply counted_at_update; [exact Hc|exact Hp| |].
      - intros _. cbn. lia.
      - fold n. rewrite (current_slot_future n) by lia.
        unfold current_slot. rewrite Hnew. cbn. lia. }
    pose proof (counted_release _ w2 p (-1) (channel (notes w2 p))
                  (future (notes w2 p)) (ts (notes w2 p)) Hmid SK Hp eq_refl) as R.
    rewrite notes_set_note in R.
    unfold current_slot in R. rewrite Hnew in R. cbn [future Z.eqb andb Z.b2z] in R.
    unfold counted in *. cbn in R |- *. exact R.
  - destruct (claimed n) eqn:Hcl.
    + assert (L : (~ (h = 0 /\ 0 < future n)
                   /\ (future n < h \/ (h = future n /\ v < velo n)))
                  \/ (h <= future n /\ (h = future n -> velo n <= v))) by lia.
      destruct L as [[L1 L2]|L].
      * rewrite (addKey_loses pitch v c h now w V0 C Hcl L1 L2) in H.
        inversion H; subst. exact Hc.
      * rewrite (addKey_wins pitch v c h now w V0 C Hnd (fun _ => L) Hfl) in H.
        fold p n in H. rewrite Hcl in H. cbn [negb orb] in H.
        pose proof (io_setTutorLight _ _ _ _ _ _ _ H) as SK.
        apply (counted_same_keys _ _ SK). clear SK H.
        pose proof (proj2 Hc p Hp Hcl) as Hfn. fold n in Hfn.
        unfold counted.
        destruct (Z.eqb_spec h 0) as [H0|H0];
          destruct (Z.ltb_spec 0 (future n));
          cbn [andb notes num_curr_events set_note set_notes
               set_num_curr_events];
          (eapply counted_at_update; [exact Hc|exact Hp| |]);
          try (intros _; cbn; exact Hh);
          fold n; unfold current_slot; rewrite Hcl, Hnew; cbn [future andb];
          destruct (Z.eqb_spec h 0); destruct (Z.eqb_spec (future n) 0);
          cbn [Z.b2z]; lia.
    + assert (Hw : claimed n = true ->
                   h <= future n /\ (h = future n -> velo n <= v))
        by (intros X; congruence).
      rewrite (addKey_wins pitch v c h now w V0 C Hnd Hw Hfl) in H.
      fold p n in H. rewrite Hcl in H. cbn [negb orb] in H.
      rewrite andb_true_r in H.
      pose proof (io_setTutorLight _ _ _ _ _ _ _ H) as SK.
      apply (counted_same_keys _ _ SK). clear SK H.
      unfold counted.
      destruct (Z.eqb_spec h 0) as [H0|H0];
        cbn [notes num_curr_events set_note set_notes set_num_curr_events];
        (eapply counted_at_update; [exact Hc|exact Hp| |]);
        try (intros _; cbn; exact Hh);
        fold n; rewrite (current_slot_unclaimed n Hcl);
        unfold current_slot; rewrite Hnew; cbn [future andb];
        destruct (Z.eqb_spec h 0); cbn [Z.b2z]; lia.
Qed.

(** A well-behaved call keeps the counter in agreement with the table. *)
Lemma do_call_counted c now w w' :
  counted w -> well_behaved w c -> do_call c now w = Some (tt, w') ->
  counted w'.
Proof.
  intros Hc Hb H. destruct c as [p v ch f|p mark|p v]; cbn [do_call] in H.
  - eapply addKey_counted; eassumption.
  - eapply clearKeyNoLock_counted; eassumption.
  - unfold bind, ret in H.
    destruct (keyPressed p v now w) as [[r w1]|] eqn:E; [|discriminate].
    inversion H; subst w'. eapply keyPressed_counted; eassumption.
Qed.

(** After any run of well-behaved calls from a new controller, the counter
    is the number of slots that hold a claimed current event. *)
Lemma run_counted cs : forall w w',
  counted w -> behaved cs w -> run cs w = Some (tt, w') ->
  num_curr_events w' = count_current w'.
Proof.
  induction cs as [|[c now] cs IH]; intros w w' Hc Hb H.
  - inversion H; subst. exact (proj1 Hc).
  - cbn [run] in H. unfold bind in H.
    destruct (do_call c now w) as [[[] w1]|] eqn:E; [|discriminate].
    destruct Hb as [Hb1 Hb2].
    apply (IH w1 w'); [|apply Hb2; exact E|exact H].
    eapply do_call_counted; eassumption.
Qed.

(** ** With no device every call returns *)

Lemma ru_ret {A} (a : A) (P : A -> Prop) : P a -> returns_unplugged (ret a) P.
Proof. intros Ha w Hw. exists a, w. auto. Qed.

Lemma ru_get {A} (f : World -> A) : returns_unplugged (get f) (fun _ => True).
Proof. intros w Hw. exists (f w), w. auto. Qed.

Lemma ru_modify (f : World -> World) :
  (forall w, no_device_for w -> no_device_for (f w)) ->
  returns_unplugged (modify f) (fun _ => True).
Proof. intros Hf w Hw. exists tt, (f w). auto. Qed.

Lemma ru_bind {A B} (m : M A) (k : A -> M B) P Q :
  returns_unplugged m P ->
  (forall a, P a -> returns_unplugged (k a) Q) ->
  returns_unplugged (bind m k) Q.
Proof.
  intros Hm Hk w Hw.
  destruct (Hm w Hw) as (a & w1 & E & Pa & Hw1).
  destruct (Hk a Pa w1 Hw1) as (b & w2 & E2 & Qb & Hw2).
  exists b, w2. unfold bind. rewrite E. auto.
Qed.

Lemma ru_if {A} (b : bool) (m1 m2 : M A) P :
  returns_unplugged m1 P -> returns_unplugged m2 P ->
  returns_unplugged (if b then m1 else m2) P.
Proof. destruct b; auto. Qed.

Lemma no_device_set_note p n w :
  no_device_for w -> no_device_for (set_note p n w).
Proof. auto. Qed.

Lemma no_device_set_velo p v w :
  no_device_for w -> no_device_for (set_velo p v w).
Proof. auto. Qed.

Lemma no_device_set_ts p t w :
  no_device_for w -> no_device_for (set_ts p t w).
Proof. auto. Qed.

Lemma no_device_set_num k w :
  no_device_for w -> no_device_for (set_num_curr_events k w).
Proof. auto. Qed.

Lemma no_device_add_log e w :
  no_device_for w -> no_device_for (add_log e w).
Proof. auto. Qed.

(** The port cannot be opened. *)
Lemma ru_checkSerial : returns_unplugged checkSerial (fun ok => ok = false).
Proof.
  intros w [Hfd Ho]. destruct w. cbn in Hfd, Ho. subst.
  eexists _, _. split; [reflexivity|]. split; [reflexivity|].
  split; reflexivity.
Qed.

Lemma ru_setTutorLight p v c f :
  returns_unplugged (setTutorLight p v c f) (fun _ => True).
Proof.
  unfold setTutorLight. eapply ru_bind; [apply ru_checkSerial|].
  intros ok ->. apply ru_ret. exact I.
Qed.

Lemma ru_clearTutorLight p :
  returns_unplugged (clearTutorLight p) (fun _ => True).
Proof.
  unfold clearTutorLight. eapply ru_bind; [apply ru_checkSerial|].
  intros ok ->. apply ru_ret. exact I.
Qed.

Lemma ru_setTutorLightPressed p :
  returns_unplugged (setTutorLightPressed p) (fun _ => True).
Proof.
  unfold setTutorLightPressed. eapply ru_bind; [apply ru_checkSerial|].
  intros ok ->. apply ru_ret. exact I.
Qed.

Create HintDb unplugged discriminated.
#[export] Hint Resolve ru_get ru_setTutorLight ru_clearTutorLight
  ru_setTutorLightPressed no_device_set_note no_device_set_velo
  no_device_set_ts no_device_set_num no_device_add_log : unplugged.

Ltac ru_step :=
  repeat first
    [ solve [auto with unplugged]
    | apply ru_ret; exact I
    | apply ru_modify; intros; solve [auto with unplugged]
    | apply ru_if
    | match goal with
      | |- returns_unplugged (match ?x with _ => _ end) _ => destruct x
      end
    | eapply ru_bind; [|intros ? _] ].

Lemma ru_clearKeyNoLock pitch mark now :
  returns_unplugged (clearKeyNoLock pitch mark now) (fun _ => True).
Proof. unfold clearKeyNoLock. ru_step. Qed.
#[export] Hint Resolve ru_clearKeyNoLock : unplugged.

Lemma ru_arbitrate n v h :
  returns_unplugged (arbitrate n v h) (fun _ => True).
Proof. unfold arbitrate. ru_step. Qed.
#[export] Hint Resolve ru_arbitrate : unplugged.

Lemma ru_addKey pitch v c h now :
  returns_unplugged (addKey pitch v c h now) (fun _ => True).
Proof. unfold addKey, clearKey. ru_step. Qed.

Lemma ru_keyPressed pitch v now :
  returns_unplugged (keyPressed pitch v now) (fun _ => True).
Proof. unfold keyPressed, singleShot_onFlushTimer. ru_step. Qed.
#[export] Hint Resolve ru_addKey ru_keyPressed : unplugged.

Lemma ru_do_call c now : returns_unplugged (do_call c now) (fun _ => True).
Proof. destruct c; cbn [do_call]; unfold clearKey; ru_step. Qed.

(** With no device attached, every run of calls returns. *)
Lemma run_returns_unplugged cs :
  returns_unplugged (run cs) (fun _ => True).
Proof.
  induction cs as [|[c now] cs IH]; cbn [run].
  - apply ru_ret. exact I.
  - eapply ru_bind; [apply ru_do_call|]. intros _ _. exact IH.
Qed.

Lemma no_device_new mem rs ws : no_device_for (Tutor_new mem [] rs ws).
Proof. split; reflexivity. Qed.

(** From a new controller with no device attached, every run of
    well-behaved calls returns, and the counter is then the number of slots
    that hold a claimed current event. *)
Lemma new_controller_counts cs mem rs ws :
  behaved cs (Tutor_new mem [] rs ws) ->
  exists w',
    run cs (Tutor_new mem [] rs ws) = Some (tt, w')
    /\ num_curr_events w' = count_current w'.
Proof.
  intros Hb.
  destruct (run_returns_unplugged cs _ (no_device_new mem rs ws))
    as ([] & w' & E & _ & _).
  exists w'. split; [exact E|].
  exact (run_counted cs _ _ (counted_new mem [] rs ws) Hb E).
Qed.

(** ** The model on known values *)

Example fmt_02x_values :
  fmt_02x 5 = "05"%string /\ fmt_02x 255 = "ff"%string
  /\ fmt_02x 300 = "12c"%string /\ fmt_02x (-1) = "ffffffff"%string.
Proof. repeat split; reflexivity. Qed.

(** With the calibration of the constructor (C4 on light 71, two lights
    down per semitone): *)
Example pitchToLight_values :
  pitchToLight unplugged 60 = 71 /\ pitchToLight unplugged 61 = 69
  /\ pitchToLight unplugged 59 = 72 /\ pitchToLight unplugged 58 = 74
  /\ pitchToLight unplugged 96 = 0 /\ pitchToLight unplugged 0 = 190.
Proof. repeat split; vm_compute; reflexivity. Qed.

(** [round] takes halfway cases away from zero. *)
Example round_to_int_values :
  round_to_int (PrimFloat.div (double_of_int 5) (double_of_int 2)) = 3
  /\ round_to_int (PrimFloat.div (double_of_int (-5)) (double_of_int 2)) = -3
  /\ round_to_int (PrimFloat.div (double_of_int 7) (double_of_int 3)) = 2
  /\ round_to_int (PrimFloat.div (double_of_int 1) (double_of_int 0)) = INT_MIN.
Proof. repeat split; vm_compute; reflexivity. Qed.

(** A current event on pitch 60, channel 0, then its release: the light of
    C4 in the colour of even channels, then dark; the counter goes to 1 and
    back to 0. *)
Example addKey_then_clearKey :
  option_map (fun r => (sent (snd r), num_curr_events (snd r)))
    (addKey 60 80 0 0 t_10s (prompt 2))
  = Some ([line "P"; line "H47100010"], 1)
  /\ option_map (fun r => (sent (snd r), num_curr_events (snd r)))
       ((addKey 60 80 0 0 t_10s ;; clearKey 60 false t_10s_050) (prompt 2))
     = Some ([line "P"; line "H47100010"; line "P"; line "H47000000"], 0).
Proof. split; vm_compute; reflexivity. Qed.

(** The port is opened on the first light command: the 25 bytes of the
    greeting are read before the handshake. *)
Example first_command_opens_port :
  option_map (fun r => (tutorSerial (snd r), sent (snd r),
                        List.length (reads (snd r))))
    (addKey 60 80 0 0 t_10s
       (Tutor_new mem0 [mk_open_reply 4 true true true]
          (repeat (ReadByte "r") 25 ++ [ReadByte "P"])
          [Wrote 2; Wrote 10]))
  = Some (4, [line "P"; line "H47100010"], 0%nat).
Proof. vm_compute. reflexivity. Qed.

(** A text of 15 characters: the 14 that [snprintf] stored and its NUL go
    out, and no newline.  A future event sends the colour divided by 8. *)
Example setTutorLight_fifteen :
  option_map (fun r => sent (snd r)) (setTutorLight 60 80 0 0 w_fifteen)
  = Some [line "P";
          ("H4712345123400" ++ String Ascii.zero EmptyString)%string]
  /\ fst (setTutorLight_cmd w_red300 60 0 3) = line "H47250000".
Proof. split; vm_compute; reflexivity. Qed.

(** A device that never answers: the call does not return. *)
Example silent_device_blocks :
  addKey 60 80 0 0 t_10s (plugged [ReadNone; ReadNone; ReadErr] []) = None.
Proof. vm_compute. reflexivity. Qed.

(** ** safe_write *)

(** Any single byte ends the handshake: after one ping and a one-byte
    reply the loop is left, whatever the byte. *)
Lemma handshake_any_byte b rs fuel s w :
  tutorSerial w <> INVALID_SERIAL ->
  reads w = ReadByte b :: rs ->
  exists w',
    do_while (S fuel) ping_body (fun s => negb (bytes_read s =? 1)) s w
    = Some (mk_handshake b 1, w')
    /\ reads w' = rs /\ writes w' = tl (writes w)
    /\ tutorSerial w' = tutorSerial w.
Proof.
  intros Hfd Hr. apply Z.eqb_neq in Hfd.
  cbn [do_while]. unfold bind at 1. unfold ping_body.
  unfold bind at 1, get at 1. unfold bind at 1, WRITE. rewrite Hfd.
  destruct (writes w) as [|[|k] ws] eqn:Ew;
    cbv beta iota; unfold bind at 1, READ;
    cbn [tutorSerial add_log set_writes reads];
    rewrite Hfd, Hr; cbn [fst snd pong_char bytes_read];
    destruct (negb (Ascii.eqb b "P"));
    cbn [ret fst snd bytes_read Z.eqb Pos.eqb negb];
    eexists; (split; [reflexivity|]);
    cbn [reads writes tutorSerial add_log set_reads set_writes tl];
    rewrite ?Ew; repeat split; reflexivity.
Qed.

(** A device that answers the ping with a byte and then takes the whole
    buffer: [safe_write] returns. *)
Lemma safe_write_answered data len flush_op b rs k1 k2 ws w :
  tutorSerial w <> INVALID_SERIAL ->
  reads w = ReadByte b :: rs ->
  writes w = Wrote k1 :: Wrote k2 :: ws ->
  len <= Z.of_nat k2 ->
  exists w',
    safe_write data len flush_op w = Some (tt, w')
    /\ tutorSerial w' = tutorSerial w /\ reads w' = rs.
Proof.
  intros Hfd Hr Hw Hlen.
  unfold safe_write. unfold bind at 1, get at 1. unfold bind at 1.
  destruct (handshake_any_byte b rs (List.length (reads w))
              (mk_handshake "." 0) w Hfd Hr)
    as (w1 & E & Hr1 & Hw1 & Hfd1).
  rewrite E. rewrite Hw in Hw1. cbn [tl] in Hw1.
  unfold bind at 1, get at 1. rewrite Hw1.
  change (4 + List.length (Wrote k2 :: ws))%nat
    with (S (S (3 + List.length ws)))%nat.
  cbn [write_all].
  destruct (Z.ltb_spec 0 len) as [Hpos|Hpos].
  - unfold bind at 1, get at 1. unfold bind at 1, WRITE.
    rewrite Hfd1. apply Z.eqb_neq in Hfd. rewrite Hfd, Hw1.
    rewrite Z.min_r by lia.
    destruct (Z.ltb_spec len 0) as [Hneg|_]; [lia|].
    rewrite Z.sub_diag. cbn [Z.ltb Z.compare].
    eexists. split; [reflexivity|]. cbn. apply Z.eqb_neq in Hfd.
    split; [exact Hfd1|exact Hr1].
  - eexists. split; [reflexivity|]. split; [exact Hfd1|exact Hr1].
Qed.

(** With the port open, a device that answers the ping and takes the
    command whole: [setTutorLight] returns, unless the command is too
    long for its array. *)
Lemma setTutorLight_answered p v c f b rs k1 k2 ws w :
  tutorSerial w <> INVALID_SERIAL ->
  reads w = ReadByte b :: rs ->
  writes w = Wrote k1 :: Wrote k2 :: ws ->
  snd (setTutorLight_cmd w p c f) <= Z.of_nat k2 ->
  snd (setTutorLight_cmd w p c f) < 16 ->
  exists w', setTutorLight p v c f w = Some (tt, w').
Proof.
  intros Hfd Hr Hw Hlen Hcap.
  unfold setTutorLight, checkSerial. unfold bind at 1. unfold bind at 1, get at 1.
  pose proof Hfd as Hfd'. apply Z.eqb_neq in Hfd'. rewrite Hfd'.
  cbn [negb ret]. unfold bind at 1, get at 1. unfold bind at 1.
  destruct (Z.leb_spec 16 (snd (setTutorLight_cmd w p c f))); [lia|].
  destruct (safe_write_answered (fst (setTutorLight_cmd w p c f))
              (snd (setTutorLight_cmd w p c f)) false b rs k1 k2 ws w
              Hfd Hr Hw Hlen) as (w1 & E & _).
  rewrite E. eexists. reflexivity.
Qed.

(** C3, on the code.  A device that answers the first ping with the byte
    'X': [safe_write] pings once, reads 'X', and writes the command. *)
Theorem safe_write_after_wrong_pong :
  option_map (fun r => history (snd r))
    (safe_write (line "H47100010") 10 false
       (plugged [ReadByte "X"] [Wrote 2; Wrote 10]))
  = Some [EvWrite 3 (line "P") 2;
          EvRead 3 1 (Some "X"%char);
          EvWrite 3 (line "H47100010") 10].
Proof. vm_compute. reflexivity. Qed.

(** ** The counter of current events *)

(** C1, on the code.  From a new controller, a current event on pitch 60
    followed by a mistake on the same pitch leaves the counter at 1 with no
    slot holding a current event; releasing the key then leaves it at 1. *)
Theorem mistake_on_current_event_miscounts :
  option_map (fun r => (num_curr_events (snd r), count_current (snd r),
                        velo (notes (snd r) 60)))
    (run [(AddKey 60 80 0 0, t_10s); (AddKey 60 80 (-1) 0, t_10s)] unplugged)
  = Some (1, 0, -2)
  /\ option_map (fun r => (num_curr_events (snd r), count_current (snd r),
                           velo (notes (snd r) 60)))
       (run [(AddKey 60 80 0 0, t_10s); (AddKey 60 80 (-1) 0, t_10s);
             (ClearKey 60 false, t_10s)] unplugged)
     = Some (1, 0, -1).
Proof. split; vm_compute; reflexivity. Qed.

(** ** Instances *)

Lemma keyPressed_minus_one_unchanged_witness :
  keyPressed 60 64 t_10s w_pending = Some (-1, w_pending)
  /\ (w_pending = w_pending
      /\ (64 = 0
          \/ velo (notes w_pending (Z.land 60 255)) = -1
          \/ velo (notes w_pending (Z.land 60 255)) = -2
          \/ (future (notes w_pending (Z.land 60 255)) <> 0
              /\ (future (notes w_pending (Z.land 60 255)) < 0
                  \/ num_curr_events w_pending <> 0)))).
Proof.
  split; [reflexivity|].
  apply (keyPressed_minus_one_unchanged 60 64 t_10s w_pending (-1) w_pending);
    reflexivity.
Defined.

Lemma keyPressed_skip_ahead_witness :
  keyPressed 60 64 t_10s w_future3
  = Some (3, add_log (EvSingleShot FLUSH_TOUT) (set_ts 60 t_10s w_future3)).
Proof.
  apply (keyPressed_skip_ahead 60 64 t_10s w_future3);
    solve [reflexivity | vm_compute; reflexivity].
Defined.

(** C2 as stated fails: after the call that returns the horizon 3, slot 60
    still holds the claim (velocity 64, horizon 3); only the time stamp
    changed. *)
Lemma keyPressed_skip_ahead_keeps_claim :
  option_map (fun r => (fst r, claimed (notes (snd r) 60), notes (snd r) 60))
    (keyPressed 60 64 t_10s w_future3)
  = Some (3, true, mk_tnote 64 0 3 t_10s).
Proof. vm_compute. reflexivity. Qed.

(** A current event arrives 200 ms after the future event of slot 64 was
    pressed: it takes the slot and the counter goes from 0 to 1. *)
Lemma addKey_current_displaces_future_witness :
  option_map (fun r => (notes (snd r) 64, num_curr_events (snd r),
                        sent (snd r)))
    (addKey 64 90 0 0 t_10s_200 w_stamped)
  = Some (mk_tnote 90 0 0 zero_ts, 1, [line "P"; line "H3f100010"]).
Proof.
  destruct (addKey 64 90 0 0 t_10s_200 w_stamped) as [[[] w']|] eqn:E.
  - destruct (addKey_current_displaces_future 64 90 0 t_10s_200 w_stamped)
      as [_ Hpost];
      try solve [reflexivity | lia | right; vm_compute; discriminate].
    destruct (Hpost w' E) as [Hn Hk].
    cbn [option_map fst snd].
    change (Z.land 64 255) with 64 in Hn. rewrite Hn, Hk.
    vm_compute in E. inversion E. reflexivity.
  - vm_compute in E. discriminate E.
Defined.

(** C5 as stated fails: the same event 50 ms after the press leaves slot 64
    unused and the counter at 0. *)
Lemma addKey_current_within_100ms_clears :
  option_map (fun r => (notes (snd r) 64, num_curr_events (snd r)))
    (addKey 64 90 0 0 t_10s_050 w_stamped)
  = Some (mk_tnote (-1) 0 0 zero_ts, 0).
Proof. vm_compute. reflexivity. Qed.

(** The anti-flicker rule at work: set, then cleared. *)
Lemma addKey_anti_flicker_witness :
  option_map (fun r => (notes (snd r) 64, num_curr_events (snd r),
                        sent (snd r)))
    (addKey 64 90 0 0 t_10s_050 w_stamped)
  = Some (mk_tnote (-1) 0 0 zero_ts, 0,
          [line "P"; line "H3f100010"; line "P"; line "H3f000000"]).
Proof.
  destruct (addKey 64 90 0 0 t_10s_050 w_stamped) as [[[] w']|] eqn:E.
  - destruct (addKey_anti_flicker 64 90 0 t_10s_050 w_stamped)
      as [_ Hpost];
      try solve [reflexivity | lia | vm_compute; reflexivity].
    destruct (Hpost w' E) as [Hn Hk].
    cbn [option_map fst snd].
    change (Z.land 64 255) with 64 in Hn. rewrite Hn, Hk.
    vm_compute in E. inversion E. reflexivity.
  - vm_compute in E. discriminate E.
Defined.

(** C7 as stated fails: a future event of horizon 2 that comes 50 ms after
    the press of the stored future event takes the slot and stays; the
    light is set and not cleared.  So does a current event that comes
    99.9995 ms after a press at 10 s and 900000500 ns: the difference that
    [addKey] computes is 100000, the slot keeps the event and the counter
    is 1. *)
Lemma addKey_within_100ms_stays :
  option_map (fun r => (notes (snd r) 64, sent (snd r)))
    (addKey 64 100 1 2 t_10s_050 w_stamped)
  = Some (mk_tnote 100 1 2 zero_ts, [line "P"; line "H3f000202"])
  /\ diff_us t_11s (ts (notes w_stamped_late 64)) = 100000
  /\ option_map (fun r => (notes (snd r) 64, num_curr_events (snd r),
                           sent (snd r)))
       (addKey 64 90 0 0 t_11s w_stamped_late)
     = Some (mk_tnote 90 0 0 zero_ts, 1, [line "P"; line "H3f100010"]).
Proof. repeat split; vm_compute; reflexivity. Qed.

(** On slot 60 of [w_future3] (velocity 64, horizon 3): horizon 5 loses,
    horizon 2 wins, equal horizon with velocity 50 loses, with velocity 90
    wins. *)
Lemma addKey_arbitration_witness :
  new_claim_dropped 60 80 0 5 t_10s w_future3
  /\ new_claim_wins 60 80 0 2 t_10s w_future3
  /\ new_claim_dropped 60 50 0 3 t_10s w_future3
  /\ new_claim_wins 60 90 0 3 t_10s w_future3.
Proof.
  split; [|split; [|split]].
  - destruct (addKey_arbitration 60 80 0 5 t_10s w_future3)
      as (A & B & C & D);
      [ reflexivity | lia | lia
      | intros (E & _); vm_compute in E; discriminate E | ].
    apply A; vm_compute; reflexivity.
  - destruct (addKey_arbitration 60 80 0 2 t_10s w_future3)
      as (A & B & C & D);
      [ reflexivity | lia | lia
      | intros (E & _); vm_compute in E; discriminate E | ].
    apply B; vm_compute; reflexivity.
  - destruct (addKey_arbitration 60 50 0 3 t_10s w_future3)
      as (A & B & C & D);
      [ reflexivity | lia | lia
      | intros (E & _); vm_compute in E; discriminate E | ].
    apply C; vm_compute; reflexivity.
  - destruct (addKey_arbitration 60 90 0 3 t_10s w_future3)
      as (A & B & C & D);
      [ reflexivity | lia | lia
      | intros (E & _); vm_compute in E; discriminate E | ].
    apply D; vm_compute; reflexivity.
Defined.

(** Two identical calls on a device that answers: the light command goes
    out once. *)
Lemma addKey_twice_witness :
  option_map (fun r => sent (snd r))
    ((addKey 60 80 0 0 t_10s ;; addKey 60 80 0 0 t_10s_050) (prompt 2))
  = Some [line "P"; line "H47100010"].
Proof.
  unfold bind.
  destruct (addKey 60 80 0 0 t_10s (prompt 2)) as [[[] w1]|] eqn:E.
  - rewrite (addKey_twice 60 80 0 0 t_10s t_10s_050 (prompt 2) w1);
      try solve [reflexivity | lia | exact E].
    vm_compute in E. inversion E. reflexivity.
  - vm_compute in E. discriminate E.
Defined.

(** C4 as stated fails for the mistake marker: the second of two identical
    calls with channel -1 sends the light command again. *)
Lemma addKey_mistake_twice_sends_twice :
  option_map (fun r => sent (snd r))
    ((addKey 60 80 (-1) 0 t_10s ;; addKey 60 80 (-1) 0 t_10s_050) (prompt 2))
  = Some [line "P"; line "H47100000"; line "P"; line "H47100000"].
Proof. vm_compute. reflexivity. Qed.

(** Below 60 the reference light is shifted by one: pitch 58 is light 74;
    pitch 200 would be light -209 and is clamped to 0. *)
Lemma pitchToLight_refines_spec_witness :
  (pitchToLight unplugged 58 = clamp 0 255 74
   /\ pitchToLight_spec unplugged 58 = Some (pitchToLight unplugged 58))
  /\ (pitchToLight unplugged 200 = clamp 0 255 (-209)
      /\ pitchToLight_spec unplugged 200 = Some (pitchToLight unplugged 200)).
Proof.
  split.
  - apply (pitchToLight_refines_spec unplugged 58 74);
      solve [ vm_compute; reflexivity
            | vm_compute; split; solve [reflexivity | discriminate] ].
  - apply (pitchToLight_refines_spec unplugged 200 (-209));
      solve [ vm_compute; reflexivity
            | vm_compute; split; solve [reflexivity | discriminate] ].
Defined.

(** C8 as stated fails: with a coefficient of 10^10, as [setCoeff] leaves
    it, the value for pitch 61 is 10000000071, which clamped to [0, 255] is
    255; it is outside the range of [int], and the function returns 0. *)
Lemma pitchToLight_beyond_int :
  setCoeff (double_of_int 10000000000) unplugged = Some (tt, w_steep)
  /\ pitchToLight_round w_steep 61 = Some 10000000071
  /\ pitchToLight_spec w_steep 61 = Some 255
  /\ pitchToLight w_steep 61 = 0.
Proof. repeat split; vm_compute; reflexivity. Qed.



(** * Further properties *)

(** ** Releasing a key *)

Lemma velo_set_velo p v w : velo (notes (set_velo p v w) p) = v.
Proof. unfold set_velo. rewrite notes_set_note. reflexivity. Qed.

(** A release that finds nothing to do. *)
Lemma clearKeyNoLock_idle pitch mark now w :
  velo (notes w (Z.land pitch 255)) = -1
  \/ (velo (notes w (Z.land pitch 255)) <> -2
      /\ future (notes w (Z.land pitch 255)) <> 0 /\ mark = false) ->
  clearKeyNoLock pitch mark now w = Some (tt, w).
Proof.
  intros H. unfold clearKeyNoLock. unfold bind at 1, get at 1.
  destruct (Z.eqb_spec (velo (notes w (Z.land pitch 255))) (-2)) as [E2|E2];
    [exfalso; lia|].
  destruct (Z.eqb_spec (velo (notes w (Z.land pitch 255))) (-1)) as [E1|E1];
    [reflexivity|].
  destruct H as [H|(_ & Hf & ->)]; [contradiction|].
  apply Z.eqb_neq in Hf. rewrite Hf. reflexivity.
Qed.

(** What an unmarked release leaves in the slot: nothing to release. *)
Lemma clearKeyNoLock_leaves_idle pitch now w u w1 :
  clearKeyNoLock pitch false now w = Some (u, w1) ->
  velo (notes w1 (Z.land pitch 255)) = -1
  \/ (velo (notes w1 (Z.land pitch 255)) <> -2
      /\ future (notes w1 (Z.land pitch 255)) <> 0).
Proof.
  unfold clearKeyNoLock. set (p := Z.land pitch 255).
  unfold bind at 1, get at 1. intros H.
  destruct (Z.eqb_spec (velo (notes w p)) (-2)) as [E2|E2].
  { unfold bind, modify in H.
    destruct (clearTutorLight p w) as [[u1 w0]|]; [|discriminate].
    inversion H; subst. left. apply velo_set_velo. }
  destruct (Z.eqb_spec (velo (notes w p)) (-1)) as [E1|E1]; cbn [negb] in H.
  { inversion H; subst. left. exact E1. }
  destruct (Z.eqb_spec (future (notes w p)) 0) as [F|F].
  { unfold bind, modify in H.
    destruct (clearTutorLight p w) as [[u1 w0]|]; [|discriminate].
    inversion H; subst. left. apply velo_set_velo. }
  inversion H; subst. right. auto.
Qed.

(** X1.  Releasing a key twice is releasing it once: the second
    [clearKey] finds the slot unused, or still holding its future event, and
    does nothing. *)
Theorem clearKey_twice pitch t1 t2 w :
  (clearKey pitch false t1 ;; clearKey pitch false t2) w
  = clearKey pitch false t1 w.
Proof.
  unfold clearKey. unfold bind.
  destruct (clearKeyNoLock pitch false t1 w) as [[[] w1]|] eqn:E; [|reflexivity].
  apply clearKeyNoLock_idle.
  destruct (clearKeyNoLock_leaves_idle _ _ _ _ _ E) as [H|[H1 H2]]; auto.
Qed.

(** X2.  [clearKey] on an unused slot, and an unmarked [clearKey] on a
    slot that holds a future event, change nothing and send nothing. *)
Theorem clearKey_nothing_to_release pitch mark now w :
  velo (notes w (Z.land pitch 255)) = -1
  \/ (claimed (notes w (Z.land pitch 255)) = true
      /\ future (notes w (Z.land pitch 255)) <> 0 /\ mark = false) ->
  clearKey pitch mark now w = Some (tt, w).
Proof.
  intros H. apply clearKeyNoLock_idle.
  destruct H as [H|(Hc & Hf & Hm)]; [left; exact H|].
  apply claimed_true in Hc. right. tauto.
Qed.

Lemma clearKey_nothing_to_release_witness :
  clearKey 61 false t_10s w_future3 = Some (tt, w_future3)
  /\ clearKey 60 false t_10s w_future3 = Some (tt, w_future3).
Proof.
  split.
  - apply (clearKey_nothing_to_release 61 false t_10s w_future3).
    left. reflexivity.
  - apply (clearKey_nothing_to_release 60 false t_10s w_future3).
    right. repeat split; [vm_compute; discriminate].
Defined.

(** X3.  [clearKey] on a slot that holds a current event is the
    light-off command followed by the decrement of the counter and the
    reset of the slot; when it returns the slot is unused, its other fields
    are kept, and the counter is one lower. *)
Theorem clearKey_current pitch mark now w :
  claimed (notes w (Z.land pitch 255)) = true ->
  future (notes w (Z.land pitch 255)) = 0 ->
  clearKey pitch mark now w
  = (clearTutorLight (Z.land pitch 255) ;;
     modify (fun w => set_num_curr_events (num_curr_events w - 1) w) ;;
     modify (set_velo (Z.land pitch 255) (-1))) w
  /\ forall w',
      clearKey pitch mark now w = Some (tt, w') ->
      notes w' (Z.land pitch 255)
      = mk_tnote (-1) (channel (notes w (Z.land pitch 255))) 0
                 (ts (notes w (Z.land pitch 255)))
      /\ num_curr_events w' = num_curr_events w - 1.
Proof.
  intros Hc Hf. apply claimed_true in Hc. destruct Hc as [C1 C2].
  set (p := Z.land pitch 255) in *.
  assert (E : clearKey pitch mark now w
              = (clearTutorLight p ;;
                 modify (fun w => set_num_curr_events (num_curr_events w - 1) w) ;;
                 modify (set_velo p (-1))) w).
  { unfold clearKey, clearKeyNoLock. fold p. unfold bind at 1, get at 1.
    apply Z.eqb_neq in C1, C2. apply Z.eqb_eq in Hf.
    rewrite C1, C2, Hf. reflexivity. }
  split; [exact E|].
  intros w' H. rewrite E in H. unfold bind, modify in H.
  destruct (clearTutorLight p w) as [[u w1]|] eqn:E1; [|discriminate].
  inversion H; subst w'; clear H.
  pose proof (io_clearTutorLight _ _ _ _ E1) as SK.
  split.
  - unfold set_velo. rewrite notes_set_note.
    cbn [notes set_num_curr_events]. rewrite (sk_notes _ _ SK), Hf.
    reflexivity.
  - cbn. rewrite (sk_num _ _ SK). reflexivity.
Qed.

Lemma clearKey_current_witness :
  option_map (fun r => (notes (snd r) 62, num_curr_events (snd r)))
    (clearKey 62 false t_10s w_pending)
  = Some (mk_tnote (-1) 0 0 zero_ts, 0).
Proof.
  destruct (clearKey 62 false t_10s w_pending) as [[[] w']|] eqn:E.
  - destruct (clearKey_current 62 false t_10s w_pending) as [_ Hpost];
      try reflexivity.
    destruct (Hpost w' E) as [Hn Hk].
    cbn [option_map fst snd]. change (Z.land 62 255) with 62 in Hn.
    rewrite Hn, Hk. reflexivity.
  - vm_compute in E. discriminate E.
Defined.

(** ** Pressing a key *)

(** What [keyPressed] does on a current event: the slot takes the mark
    ([-2] when lights stay on until release, else [-1]), the light is
    changed, the counter goes down and the flush is scheduled. *)
Lemma keyPressed_on_current pitch v now w :
  v <> 0 ->
  claimed (notes w (Z.land pitch 255)) = true ->
  future (notes w (Z.land pitch 255)) = 0 ->
  keyPressed pitch v now w
  = ((if lit_until_release w then
        modify (set_velo (Z.land pitch 255) (-2)) ;;
        setTutorLightPressed (Z.land pitch 255)
      else
        modify (set_velo (Z.land pitch 255) (-1)) ;;
        clearTutorLight (Z.land pitch 255)) ;;
     modify (fun w => set_num_curr_events (num_curr_events w - 1) w) ;;
     singleShot_onFlushTimer ;;
     ret 0) w.
Proof.
  intros Hv Hc Hf. apply claimed_true in Hc. destruct Hc as [C1 C2].
  apply Z.eqb_neq in Hv, C1, C2. apply Z.eqb_eq in Hf.
  unfold keyPressed. rewrite Hv. unfold bind at 1, get at 1.
  rewrite C1, C2, Hf. cbn [orb]. unfold bind at 1, get at 1.
  reflexivity.
Qed.

Lemma keyPressed_on_current_post pitch v now w r w' :
  v <> 0 ->
  claimed (notes w (Z.land pitch 255)) = true ->
  future (notes w (Z.land pitch 255)) = 0 ->
  keyPressed pitch v now w = Some (r, w') ->
  r = 0
  /\ notes w' (Z.land pitch 255)
     = mk_tnote (if lit_until_release w then -2 else -1)
                (channel (notes w (Z.land pitch 255))) 0
                (ts (notes w (Z.land pitch 255)))
  /\ num_curr_events w' = num_curr_events w - 1
  /\ (exists l, log w' = EvSingleShot FLUSH_TOUT :: l).
Proof.
  intros Hv Hc Hf H.
  rewrite (keyPressed_on_current pitch v now w Hv Hc Hf) in H.
  set (p := Z.land pitch 255) in *.
  unfold bind, modify, ret, singleShot_onFlushTimer in H.
  destruct (lit_until_release w).
  - destruct (setTutorLightPressed p _) as [[u w1]|] eqn:E; [|discriminate].
    inversion H; subst r w'; clear H.
    pose proof (io_setTutorLightPressed _ _ _ _ E) as SK.
    split; [reflexivity|]. cbn [notes num_curr_events add_log
                                set_num_curr_events log].
    rewrite (sk_notes _ _ SK), (sk_num _ _ SK).
    unfold set_velo. rewrite notes_set_note, Hf.
    split; [reflexivity|]. split; [reflexivity|]. eexists. reflexivity.
  - destruct (clearTutorLight p _) as [[u w1]|] eqn:E; [|discriminate].
    inversion H; subst r w'; clear H.
    pose proof (io_clearTutorLight _ _ _ _ E) as SK.
    split; [reflexivity|]. cbn [notes num_curr_events add_log
                                set_num_curr_events log].
    rewrite (sk_notes _ _ SK), (sk_num _ _ SK).
    unfold set_velo. rewrite notes_set_note, Hf.
    split; [reflexivity|]. split; [reflexivity|]. eexists. reflexivity.
Qed.



(** X5.  The result of [keyPressed] is -1, or 0 for a slot that held a
    current event, or the positive horizon of the slot, which then held a
    future event while the counter was 0. *)
Theorem keyPressed_result pitch v now w r w' :
  keyPressed pitch v now w = Some (r, w') ->
  r = -1
  \/ (r = 0 /\ current_slot (notes w (Z.land pitch 255)) = true)
  \/ (0 < r /\ r = future (notes w (Z.land pitch 255))
      /\ claimed (notes w (Z.land pitch 255)) = true
      /\ num_curr_events w = 0).
Proof.
  intros H. unfold keyPressed in H.
  destruct (Z.eqb_spec v 0) as [Hv|Hv]; [inversion H; auto|].
  set (p := Z.land pitch 255) in *.
  unfold bind at 1, get at 1 in H.
  destruct (Z.eqb_spec (velo (notes w p)) (-1)) as [E1|E1];
    [inversion H; auto|].
  destruct (Z.eqb_spec (velo (notes w p)) (-2)) as [E2|E2];
    [inversion H; auto|].
  cbn [orb] in H.
  assert (Hc : claimed (notes w p) = true) by (apply claimed_true; auto).
  destruct (Z.eqb_spec (future (notes w p)) 0) as [F|F].
  - right. left.
    unfold bind, get, modify, ret, singleShot_onFlushTimer in H.
    assert (Hr : r = 0).
    { destruct (lit_until_release w).
      - destruct (setTutorLightPressed p _) as [[u w1]|];
          inversion H; reflexivity.
      - destruct (clearTutorLight p _) as [[u w1]|];
          inversion H; reflexivity. }
    split; [exact Hr|]. unfold current_slot. rewrite Hc.
    apply Z.eqb_eq in F. rewrite F. reflexivity.
  - unfold bind at 1, get at 1 in H.
    destruct (Z.ltb_spec 0 (future (notes w p))) as [Fp|Fp];
      destruct (Z.eqb_spec (num_curr_events w) 0) as [K|K];
      cbn [andb] in H; try (inversion H; auto; fail).
    right. right.
    unfold bind, modify, ret, singleShot_onFlushTimer in H.
    destruct (clearKeyNoLock p true now w) as [[u w1]|];
      inversion H; subst. auto.
Qed.

Lemma keyPressed_result_witness :
  -1 = -1
  \/ (-1 = 0 /\ current_slot (notes w_pending (Z.land 60 255)) = true)
  \/ (0 < -1 /\ -1 = future (notes w_pending (Z.land 60 255))
      /\ claimed (notes w_pending (Z.land 60 255)) = true
      /\ num_curr_events w_pending = 0).
Proof.
  apply (keyPressed_result 60 64 t_10s w_pending (-1) w_pending).
  reflexivity.
Defined.

(** X6.  A press of a current event followed by the release of the key
    lowers the counter once, whether lights stay on until release or not:
    when both calls have returned the slot is unused and the counter is one
    lower than before the press. *)
Theorem keyPressed_then_clearKey pitch v mark t1 t2 w w' :
  v <> 0 ->
  claimed (notes w (Z.land pitch 255)) = true ->
  future (notes w (Z.land pitch 255)) = 0 ->
  (keyPressed pitch v t1 ;; clearKey pitch mark t2) w = Some (tt, w') ->
  velo (notes w' (Z.land pitch 255)) = -1
  /\ num_curr_events w' = num_curr_events w - 1.
Proof.
  intros Hv Hc Hf H. unfold bind at 1 in H.
  destruct (keyPressed pitch v t1 w) as [[r w1]|] eqn:E; [|discriminate].
  destruct (keyPressed_on_current_post pitch v t1 w r w1 Hv Hc Hf E)
    as (_ & Hn & Hk & _).
  set (p := Z.land pitch 255) in *.
  unfold clearKey, clearKeyNoLock in H. fold p in H.
  unfold bind at 1, get at 1 in H. rewrite Hn in H. cbn [velo] in H.
  destruct (lit_until_release w).
  - cbn [Z.eqb Pos.eqb] in H. unfold bind, modify in H.
    destruct (clearTutorLight p w1) as [[u w2]|] eqn:E2; [|discriminate].
    inversion H; subst w'; clear H.
    pose proof (io_clearTutorLight _ _ _ _ E2) as SK.
    split; [apply velo_set_velo|].
    cbn. rewrite (sk_num _ _ SK). exact Hk.
  - cbn [Z.eqb Pos.eqb negb] in H. inversion H; subst w'.
    rewrite Hn. auto.
Qed.

Lemma keyPressed_then_clearKey_witness :
  option_map (fun r => (velo (notes (snd r) 62), num_curr_events (snd r)))
    ((keyPressed 62 64 t_10s ;; clearKey 62 false t_10s_050) w_pending)
  = Some (-1, 0).
Proof.
  destruct ((keyPressed 62 64 t_10s ;; clearKey 62 false t_10s_050) w_pending)
    as [[[] w']|] eqn:E.
  - destruct (keyPressed_then_clearKey 62 64 false t_10s t_10s_050
                w_pending w') as [Hn Hk];
      try solve [reflexivity | lia | exact E].
    cbn [option_map fst snd]. change (Z.land 62 255) with 62 in Hn.
    rewrite Hn, Hk. reflexivity.
  - vm_compute in E. discriminate E.
Defined.

(** X7.  A current event is consumed by one press: a second
    [keyPressed] on the same pitch right after the first answers -1 and
    changes nothing. *)
Theorem keyPressed_twice pitch v v2 t1 t2 w r w1 :
  v <> 0 ->
  claimed (notes w (Z.land pitch 255)) = true ->
  future (notes w (Z.land pitch 255)) = 0 ->
  keyPressed pitch v t1 w = Some (r, w1) ->
  keyPressed pitch v2 t2 w1 = Some (-1, w1).
Proof.
  intros Hv Hc Hf H.
  destruct (keyPressed_on_current_post pitch v t1 w r w1 Hv Hc Hf H)
    as (_ & Hn & _).
  apply keyPressed_ignored. right.
  rewrite Hn. cbn [velo]. destruct (lit_until_release w); auto.
Qed.

Lemma keyPressed_twice_witness :
  option_map fst
    ((keyPressed 62 64 t_10s ;; keyPressed 62 64 t_10s_050) w_pending)
  = Some (-1).
Proof.
  unfold bind.
  destruct (keyPressed 62 64 t_10s w_pending) as [[r w1]|] eqn:E.
  - rewrite (keyPressed_twice 62 64 64 t_10s t_10s_050 w_pending r w1);
      try solve [reflexivity | lia | exact E].
  - vm_compute in E. discriminate E.
Defined.

(** ** An early press and the note that follows *)

(** The press of a future event while no current event is pending: the
    slot is stamped with the clock and the flush is scheduled. *)
Lemma keyPressed_stamps pitch v now w :
  claimed (notes w (Z.land pitch 255)) = true ->
  0 < future (notes w (Z.land pitch 255)) ->
  num_curr_events w = 0 ->
  v <> 0 ->
  keyPressed pitch v now w
  = Some (future (notes w (Z.land pitch 255)),
          add_log (EvSingleShot FLUSH_TOUT) (set_ts (Z.land pitch 255) now w)).
Proof.
  intros Hc Hf Hk Hv. apply claimed_true in Hc. destruct Hc as [C1 C2].
  assert (E0 : (v =? 0) = false) by (apply Z.eqb_neq; lia).
  assert (E1 : (velo (notes w (Z.land pitch 255)) =? -1) = false)
    by (apply Z.eqb_neq; lia).
  assert (E2 : (velo (notes w (Z.land pitch 255)) =? -2) = false)
    by (apply Z.eqb_neq; lia).
  assert (E3 : (future (notes w (Z.land pitch 255)) =? 0) = false)
    by (apply Z.eqb_neq; lia).
  assert (E4 : (0 <? future (notes w (Z.land pitch 255))) = true)
    by (apply Z.ltb_lt; lia).
  assert (E5 : (num_curr_events w =? 0) = true) by (apply Z.eqb_eq; lia).
  unfold keyPressed, clearKeyNoLock, singleShot_onFlushTimer.
  rewrite land_255_idem. mrun. reflexivity.
Qed.

(** X8.  A future event is pressed early (no current event pending,
    clock not zero), and the same pitch becomes a current event with
    [diff_us] below 100000, the difference in microseconds that [addKey]
    computes from the clock of the press to its own: once [keyPressed] and
    [addKey] have returned, the slot is unused and the counter is 0 again;
    the note counts as played. *)
Theorem early_press_then_note pitch v v2 c t1 t2 w w' :
  claimed (notes w (Z.land pitch 255)) = true ->
  0 < future (notes w (Z.land pitch 255)) ->
  num_curr_events w = 0 ->
  v <> 0 -> v2 <> 0 -> c <> -1 ->
  ts_set t1 = true ->
  diff_us t2 t1 < 100000 ->
  (keyPressed pitch v t1 ;; addKey pitch v2 c 0 t2) w = Some (tt, w') ->
  notes w' (Z.land pitch 255) = mk_tnote (-1) c 0 zero_ts
  /\ num_curr_events w' = 0.
Proof.
  intros Hc Hf Hk Hv Hv2 Hch Hts Hd H.
  unfold bind at 1 in H.
  rewrite (keyPressed_stamps pitch v t1 w Hc Hf Hk Hv) in H.
  set (p := Z.land pitch 255) in *.
  set (w1 := add_log (EvSingleShot FLUSH_TOUT) (set_ts p t1 w)) in *.
  assert (Hn1 : notes w1 p
                = mk_tnote (velo (notes w p)) (channel (notes w p))
                           (future (notes w p)) t1).
  { unfold w1, set_ts. cbn [notes add_log]. apply notes_set_note. }
  assert (Hfl : flickers (notes w1 (Z.land pitch 255)) 0 t2 = true).
  { fold p. rewrite Hn1. unfold flickers, claimed. cbn [velo future ts].
    apply claimed_true in Hc. destruct Hc as [C1 C2].
    apply Z.eqb_neq in C1, C2. apply Z.ltb_lt in Hf, Hd.
    rewrite C1, C2, Hf, Hts, Hd. reflexivity. }
  rewrite (addKey_flickers pitch v2 c t2 w1 Hv2 Hch Hfl) in H.
  fold p in H. unfold bind, modify in H.
  destruct (setTutorLight p v2 c 0 _) as [[u1 w2]|] eqn:E1; [|discriminate].
  destruct (clearTutorLight p w2) as [[u2 w3]|] eqn:E2; [|discriminate].
  inversion H; subst w'; clear H.
  pose proof (io_setTutorLight _ _ _ _ _ _ _ E1) as SK1.
  pose proof (io_clearTutorLight _ _ _ _ E2) as SK2.
  split.
  - unfold set_velo. rewrite notes_set_note. cbn [notes set_num_curr_events].
    rewrite (sk_notes _ _ SK2), (sk_notes _ _ SK1), notes_set_note.
    reflexivity.
  - cbn. rewrite (sk_num _ _ SK2), (sk_num _ _ SK1). cbn. lia.
Qed.

Lemma early_press_then_note_witness :
  option_map (fun r => (notes (snd r) 60, num_curr_events (snd r)))
    ((keyPressed 60 64 t_10s ;; addKey 60 64 0 0 t_10s_050) w_future3)
  = Some (mk_tnote (-1) 0 0 zero_ts, 0).
Proof.
  destruct ((keyPressed 60 64 t_10s ;; addKey 60 64 0 0 t_10s_050) w_future3)
    as [[[] w']|] eqn:E.
  - destruct (early_press_then_note 60 64 64 0 t_10s t_10s_050 w_future3 w')
      as [Hn Hk];
      try solve [reflexivity | lia | exact E | vm_compute; reflexivity].
    cbn [option_map fst snd]. change (Z.land 60 255) with 60 in Hn.
    rewrite Hn, Hk. reflexivity.
  - vm_compute in E. discriminate E.
Defined.

(** ** Claims on a free slot, and mistakes *)

(** X9.  [addKey] with a velocity above 0 and a channel other than -1 on
    a slot that is unused or holds the sentinel is the light-set command on
    the state in which the slot holds the new event and the counter is
    raised when the event is a current one; when it returns, the slot
    holds the event and the counter is one higher for horizon 0, unchanged
    otherwise. *)
Theorem addKey_free_slot pitch v c h now w :
  claimed (notes w (Z.land pitch 255)) = false ->
  0 < v -> c <> -1 ->
  addKey pitch v c h now w
  = setTutorLight (Z.land pitch 255) v c h
      (set_note (Z.land pitch 255) (mk_tnote v c h zero_ts)
         (if h =? 0 then set_num_curr_events (num_curr_events w + 1) w
          else w))
  /\ forall w',
      addKey pitch v c h now w = Some (tt, w') ->
      notes w' (Z.land pitch 255) = mk_tnote v c h zero_ts
      /\ num_curr_events w'
         = num_curr_events w + (if h =? 0 then 1 else 0).
Proof.
  intros Hcl Hv Hc.
  set (p := Z.land pitch 255) in *.
  assert (Hnd : ~ (v = velo (notes w p) /\ c = channel (notes w p)
                   /\ h = future (notes w p))).
  { apply claimed_false in Hcl. intros (E & _). lia. }
  assert (Hfl : flickers (notes w p) h now = false).
  { unfold flickers. rewrite Hcl. reflexivity. }
  assert (Hw : claimed (notes w p) = true ->
               h <= future (notes w p)
               /\ (h = future (notes w p) -> velo (notes w p) <= v))
    by (intros X; congruence).
  pose proof (addKey_wins pitch v c h now w ltac:(lia) Hc Hnd Hw Hfl) as E.
  fold p in E. rewrite Hcl in E. cbn [negb orb] in E.
  rewrite andb_true_r in E.
  split; [exact E|].
  intros w' H. rewrite E in H.
  rewrite (io_notes _ _ _ _ (io_setTutorLight _ _ _ _) H).
  rewrite (io_num _ _ _ _ (io_setTutorLight _ _ _ _) H).
  split; [apply notes_set_note|].
  destruct (h =? 0); cbn; lia.
Qed.

Lemma addKey_free_slot_witness :
  option_map (fun r => (notes (snd r) 61, num_curr_events (snd r),
                        sent (snd r)))
    (addKey 61 80 1 0 t_10s (prompt 1))
  = Some (mk_tnote 80 1 0 zero_ts, 1, [line "P"; line "H45001010"]).
Proof.
  destruct (addKey 61 80 1 0 t_10s (prompt 1)) as [[[] w']|] eqn:E.
  - destruct (addKey_free_slot 61 80 1 0 t_10s (prompt 1)) as [_ Hpost];
      try solve [reflexivity | lia].
    destruct (Hpost w' E) as [Hn Hk].
    cbn [option_map fst snd]. change (Z.land 61 255) with 61 in Hn.
    rewrite Hn, Hk. vm_compute in E. inversion E. reflexivity.
  - vm_compute in E. discriminate E.
Defined.

(** X10.  A mistake marker ([channel = -1], velocity not 0) that does
    not repeat the slot's triple lights the pitch in the mistake colour at
    full intensity, whatever the horizon given, and when it returns the
    slot holds the sentinel -2 with its channel, horizon and time stamp
    kept, and the counter is what it was. *)
Theorem addKey_mistake_marker pitch v h now w :
  v <> 0 ->
  ~ (v = velo (notes w (Z.land pitch 255))
     /\ -1 = channel (notes w (Z.land pitch 255))
     /\ h = future (notes w (Z.land pitch 255))) ->
  addKey pitch v (-1) h now w
  = (setTutorLight (Z.land pitch 255) v (-1) 0 ;;
     modify (set_velo (Z.land pitch 255) (-2))) w
  /\ fst (setTutorLight_cmd w (Z.land pitch 255) (-1) 0)
     = fst (light_cmd (pitchToLight w (Z.land pitch 255))
                      (colors w 0 0) (colors w 0 1) (colors w 0 2))
  /\ forall w',
      addKey pitch v (-1) h now w = Some (tt, w') ->
      notes w' (Z.land pitch 255)
      = mk_tnote (-2) (channel (notes w (Z.land pitch 255)))
                 (future (notes w (Z.land pitch 255)))
                 (ts (notes w (Z.land pitch 255)))
      /\ num_curr_events w' = num_curr_events w.
Proof.
  intros Hv Hnd.
  pose proof (addKey_mistake pitch v h now w Hv Hnd) as E.
  split; [exact E|]. split; [reflexivity|].
  intros w' H. rewrite E in H. unfold bind, modify in H.
  destruct (setTutorLight _ _ _ _ w) as [[u w1]|] eqn:E1; [|discriminate].
  inversion H; subst w'; clear H.
  pose proof (io_setTutorLight _ _ _ _ _ _ _ E1) as SK.
  split.
  - unfold set_velo. rewrite notes_set_note, (sk_notes _ _ SK). reflexivity.
  - cbn. apply (sk_num _ _ SK).
Qed.

Lemma addKey_mistake_marker_witness :
  option_map (fun r => (notes (snd r) 60, num_curr_events (snd r),
                        sent (snd r)))
    (addKey 60 80 (-1) 3 t_10s (set_note 60 (mk_tnote 64 0 3 zero_ts)
                                  (prompt 1)))
  = Some (mk_tnote (-2) 0 3 zero_ts, 0, [line "P"; line "H47100000"]).
Proof.
  set (w := set_note 60 (mk_tnote 64 0 3 zero_ts) (prompt 1)).
  destruct (addKey 60 80 (-1) 3 t_10s w) as [[[] w']|] eqn:E.
  - destruct (addKey_mistake_marker 60 80 3 t_10s w) as (_ & _ & Hpost);
      try solve [lia | intros (X & _); vm_compute in X; discriminate X].
    destruct (Hpost w' E) as [Hn Hk].
    cbn [option_map fst snd]. change (Z.land 60 255) with 60 in Hn.
    rewrite Hn, Hk. vm_compute in E. inversion E. reflexivity.
  - vm_compute in E. discriminate E.
Defined.

(** ** One pitch at a time *)

Lemma same_but_refl p w : same_but p w w.
Proof. repeat split; reflexivity. Qed.

Lemma same_but_trans p w1 w2 w3 :
  same_but p w1 w2 -> same_but p w2 w3 -> same_but p w1 w3.
Proof.
  intros (a1 & a2 & a3 & a4 & a5) (b1 & b2 & b3 & b4 & b5).
  repeat split; try congruence.
  intros q Hq. rewrite (b1 q Hq). apply a1. exact Hq.
Qed.

Lemma same_keys_same_but p w w' : same_keys w w' -> same_but p w w'.
Proof.
  intros [a1 a2 a3 a4 a5 a6]. repeat split; try assumption.
  intros q _. rewrite a1. reflexivity.
Qed.

Lemma to_io {A} p (m : M A) : io_only m -> touches_only p m.
Proof. intros Hm w a w' H. apply same_keys_same_but. eapply Hm. exact H. Qed.

Lemma to_ret {A} p (a : A) : touches_only p (ret a).
Proof. intros w b w' H. inversion H; subst. apply same_but_refl. Qed.

Lemma to_get {A} p (f : World -> A) : touches_only p (get f).
Proof. intros w b w' H. inversion H; subst. apply same_but_refl. Qed.

Lemma to_bind {A B} p (m : M A) (k : A -> M B) :
  touches_only p m -> (forall a, touches_only p (k a)) ->
  touches_only p (bind m k).
Proof.
  intros Hm Hk w b w' H. unfold bind in H.
  destruct (m w) as [[a w1]|] eqn:E; [|discriminate].
  eapply same_but_trans; [eapply Hm; eassumption | eapply Hk; eassumption].
Qed.

Lemma to_modify p (f : World -> World) :
  (forall w, same_but p w (f w)) -> touches_only p (modify f).
Proof. intros Hf w b w' H. inversion H; subst. apply Hf. Qed.

Lemma to_if {A} p (b : bool) (m1 m2 : M A) :
  touches_only p m1 -> touches_only p m2 ->
  touches_only p (if b then m1 else m2).
Proof. destruct b; auto. Qed.

Lemma notes_set_note_at p q n w :
  q <> p -> notes (set_note p n w) q = notes w q.
Proof. intros H. cbn. apply Z.eqb_neq in H. rewrite H. reflexivity. Qed.

Lemma same_but_set_note p n w : same_but p w (set_note p n w).
Proof.
  repeat split. intros q Hq. apply notes_set_note_at; exact Hq.
Qed.

Lemma same_but_set_velo p v w : same_but p w (set_velo p v w).
Proof. apply same_but_set_note. Qed.

Lemma same_but_set_ts p t w : same_but p w (set_ts p t w).
Proof. apply same_but_set_note. Qed.

Lemma same_but_set_num p k w : same_but p w (set_num_curr_events k w).
Proof. repeat split; reflexivity. Qed.

Lemma same_but_add_log p e w : same_but p w (add_log e w).
Proof. repeat split; reflexivity. Qed.

Create HintDb frame discriminated.
#[export] Hint Resolve to_ret to_get same_but_set_note same_but_set_velo
  same_but_set_ts same_but_set_num same_but_add_log : frame.

Ltac to_step :=
  repeat first
    [ solve [auto with frame]
    | solve [apply to_io; auto with io]
    | apply to_modify; intro; solve [auto with frame]
    | apply to_if
    | match goal with
      | |- touches_only _ (match ?x with _ => _ end) => destruct x
      end
    | apply to_bind; [|intro] ].

Lemma to_clearKeyNoLock pitch mark now :
  touches_only (Z.land pitch 255) (clearKeyNoLock pitch mark now).
Proof. unfold clearKeyNoLock. to_step. Qed.

Lemma to_clearKeyNoLock_masked pitch mark now :
  touches_only (Z.land pitch 255)
    (clearKeyNoLock (Z.land pitch 255) mark now).
Proof.
  pose proof (to_clearKeyNoLock (Z.land pitch 255) mark now) as H.
  rewrite land_255_idem in H. exact H.
Qed.

Lemma to_arbitrate p n v h : touches_only p (arbitrate n v h).
Proof. unfold arbitrate. to_step. Qed.
#[export] Hint Resolve to_clearKeyNoLock to_clearKeyNoLock_masked
  to_arbitrate : frame.

Lemma to_addKey pitch v c h now :
  touches_only (Z.land pitch 255) (addKey pitch v c h now).
Proof. unfold addKey, clearKey. to_step. Qed.

Lemma to_keyPressed pitch v now :
  touches_only (Z.land pitch 255) (keyPressed pitch v now).
Proof.
  unfold keyPressed, singleShot_onFlushTimer. to_step.
Qed.

(** X11.  [addKey], [clearKey] and [keyPressed] on a pitch change no
    slot but the one of its low byte, and leave the calibration, the
    colours and the lights-stay-on setting as they are. *)
Theorem calls_touch_one_slot c now w w' :
  do_call c now w = Some (tt, w') ->
  same_but (Z.land (pitch_of c) 255) w w'.
Proof.
  intros H. destruct c as [p v ch f|p mark|p v]; cbn [do_call pitch_of] in *.
  - exact (to_addKey p v ch f now _ _ _ H).
  - exact (to_clearKeyNoLock p mark now _ _ _ H).
  - unfold bind, ret in H.
    destruct (keyPressed p v now w) as [[r w1]|] eqn:E; [|discriminate].
    inversion H; subst w'. exact (to_keyPressed p v now _ _ _ E).
Qed.

Lemma calls_touch_one_slot_witness :
  option_map (fun r => (notes (snd r) 62, c4light (snd r)))
    (do_call (AddKey 316 80 0 0) t_10s w_pending)
  = Some (mk_tnote 70 0 0 zero_ts, 71).
Proof.
  destruct (do_call (AddKey 316 80 0 0) t_10s w_pending) as [[[] w']|] eqn:E.
  - destruct (calls_touch_one_slot (AddKey 316 80 0 0) t_10s w_pending w' E)
      as (Hn & Hc & _).
    cbn [option_map fst snd].
    rewrite (Hn 62 ltac:(vm_compute; discriminate)), Hc. reflexivity.
  - vm_compute in E. discriminate E.
Defined.

(** ** The counter over whole runs *)

(** X12.  From a new controller, whatever the device does, after any
    run of calls with velocities and horizons that are not negative and in
    which no mistake marker lands on a slot holding a current event, the
    counter is the number of slots that hold a claimed current event. *)
Theorem counter_counts_current_slots cs mem os rs ws w' :
  behaved cs (Tutor_new mem os rs ws) ->
  run cs (Tutor_new mem os rs ws) = Some (tt, w') ->
  num_curr_events w' = count_current w'.
Proof.
  intros Hb H.
  exact (run_counted cs _ _ (counted_new mem os rs ws) Hb H).
Qed.

Lemma counter_counts_current_slots_witness :
  option_map (fun r => (num_curr_events (snd r), count_current (snd r)))
    (run sample_run unplugged)
  = Some (2, 2).
Proof.
  destruct (run sample_run unplugged) as [[[] w']|] eqn:E.
  - cbn [option_map fst snd].
    assert (Hb : behaved sample_run (Tutor_new mem0 [] [] [])).
    { cbn [sample_run behaved well_behaved].
      repeat (split; [repeat split; solve [lia | discriminate | exact I]
                     | intros ? _]).
      exact I. }
    rewrite (counter_counts_current_slots sample_run mem0 [] [] [] w' Hb E).
    vm_compute in E. inversion E. reflexivity.
  - vm_compute in E. discriminate E.
Defined.

(** ** clearKeys *)

Lemma count_none_current w :
  (forall i, In i slots -> current_slot (notes w i) = false) ->
  count_current w = 0.
Proof.
  intros H. unfold count_current. fold slots.
  rewrite (filter_ext_in_length _ (fun _ => false)) by exact H.
  clear H. induction slots as [|a l IH]; [reflexivity|exact IH].
Qed.

Lemma slots_In_iff i : In i slots <-> 0 <= i < 256.
Proof.
  split; [|apply slots_In].
  intros H. apply in_map_iff in H. destruct H as (k & <- & Hk).
  apply in_seq in Hk. lia.
Qed.

(** The loop that marks every slot unused. *)
Lemma reset_loop l : forall w,
  exists w',
    for_each l (fun i => modify (set_velo i (-1))) w = Some (tt, w')
    /\ (forall i, In i l -> velo (notes w' i) = -1)
    /\ (forall i, velo (notes w i) = -1 -> velo (notes w' i) = -1)
    /\ (forall i, channel (notes w' i) = channel (notes w i)
                  /\ future (notes w' i) = future (notes w i)
                  /\ ts (notes w' i) = ts (notes w i))
    /\ log w' = log w /\ needs_flush w' = needs_flush w
    /\ tutorSerial w' = tutorSerial w.
Proof.
  induction l as [|a l IH]; intros w; cbn [for_each].
  - exists w. unfold ret. repeat split; auto. intros i [].
  - unfold bind at 1, modify at 1.
    destruct (IH (set_velo a (-1) w)) as (w' & E & H1 & H2 & H3 & H4 & H5 & H6).
    exists w'. split; [exact E|].
    assert (Hv : forall i, velo (notes w i) = -1 ->
                           velo (notes (set_velo a (-1) w) i) = -1).
    { intros i Hi. unfold set_velo. cbn [notes set_note set_notes].
      destruct (i =? a); [reflexivity|exact Hi]. }
    split; [|split; [|split; [|auto]]].
    + intros i [<-|Hi]; [|apply H1; exact Hi].
      apply H2. apply velo_set_velo.
    + intros i Hi. apply H2, Hv, Hi.
    + intros i. destruct (H3 i) as (c1 & c2 & c3).
      rewrite c1, c2, c3. unfold set_velo. cbn [notes set_note set_notes].
      destruct (Z.eqb_spec i a) as [->|_]; auto.
Qed.

(** X14.  [clearKeys(-1)] resets the whole table from any state: when
    it returns every slot is unused (its channel, horizon and time stamp
    are kept), the counter is 0 and no slot counts as a current event. *)
Theorem clearKeys_all w w' :
  clearKeys (-1) w = Some (tt, w') ->
  (forall i, 0 <= i < 256 ->
     notes w' i = mk_tnote (-1) (channel (notes w i)) (future (notes w i))
                           (ts (notes w i)))
  /\ num_curr_events w' = 0
  /\ count_current w' = 0.
Proof.
  unfold clearKeys. cbn [Z.eqb Pos.eqb]. intros H.
  unfold bind at 1 in H.
  destruct (checkSerial w) as [[ok w0]|] eqn:E0; [|discriminate].
  assert (Hmid : exists w1, same_keys w w1
            /\ (for_each slots (fun i => modify (set_velo i (-1))) ;;
                modify (set_num_curr_events 0)) w1 = Some (tt, w')).
  { pose proof (io_checkSerial _ _ _ E0) as SK0.
    unfold bind at 1 in H. destruct ok.
    - destruct ((safe_write (String "c" (String nl EmptyString)) 2 true ;;
                 modify (set_needs_flush false)) w0)
        as [[u w1]|] eqn:E1; [|discriminate].
      exists w1. split; [|exact H].
      eapply same_keys_trans; [exact SK0|].
      revert E1. generalize w0 u w1.
      change (io_only
        (safe_write (String "c" (String nl EmptyString)) 2 true ;;
         modify (set_needs_flush false))).
      io_step.
    - exists w0. split; [exact SK0|exact H]. }
  clear H. destruct Hmid as (w1 & SK & H).
  unfold bind at 1 in H.
  destruct (reset_loop slots w1) as (w2 & E2 & H1 & _ & H3 & _).
  rewrite E2 in H. inversion H; subst w'; clear H.
  cbn [notes num_curr_events set_num_curr_events].
  assert (Hall : forall i, 0 <= i < 256 ->
            notes w2 i = mk_tnote (-1) (channel (notes w i))
                                  (future (notes w i)) (ts (notes w i))).
  { intros i Hi. destruct (H3 i) as (c1 & c2 & c3).
    rewrite <- (sk_notes _ _ SK), <- c1, <- c2, <- c3,
      <- (H1 i (proj2 (slots_In_iff i) Hi)).
    destruct (notes w2 i). reflexivity. }
  split; [exact Hall|]. split; [reflexivity|].
  apply count_none_current. intros i Hi. cbn [notes set_num_curr_events].
  rewrite (Hall i (proj1 (slots_In_iff i) Hi)). reflexivity.
Qed.

Lemma clearKeys_all_witness :
  option_map (fun r => (notes (snd r) 62, num_curr_events (snd r),
                        count_current (snd r), sent (snd r)))
    (clearKeys (-1) (set_tutorSerial 3
                       (set_reads [ReadByte "P"]
                          (set_writes [Wrote 2; Wrote 2] w_pending))))
  = Some (mk_tnote (-1) 0 0 zero_ts, 0, 0, [line "P"; line "c"]).
Proof.
  set (w := set_tutorSerial 3 _).
  destruct (clearKeys (-1) w) as [[[] w']|] eqn:E.
  - destruct (clearKeys_all w w' E) as (Hn & Hk & Hc).
    cbn [option_map fst snd].
    rewrite (Hn 62 ltac:(lia)), Hk, Hc.
    vm_compute in E. inversion E. reflexivity.
  - vm_compute in E. discriminate E.
Defined.

Lemma io_flushNoLock : io_only flushNoLock.
Proof. unfold flushNoLock. io_step. Qed.

(** The slot a channel-wise clearing leaves at index [i]. *)
Lemma clear_channel_loop ch l : forall w w',
  NoDup l ->
  for_each l (fun i =>
    n <- get (fun w => notes w i) ;;
    if negb (velo n =? -1) && (channel n =? ch) then
      clearTutorLight i ;;
      modify (set_velo i (-1))
    else ret tt) w = Some (tt, w') ->
  num_curr_events w' = num_curr_events w
  /\ (forall i, ~ In i l -> notes w' i = notes w i)
  /\ (forall i, In i l ->
        notes w' i
        = if negb (velo (notes w i) =? -1) && (channel (notes w i) =? ch)
          then mk_tnote (-1) (channel (notes w i)) (future (notes w i))
                        (ts (notes w i))
          else notes w i).
Proof.
  induction l as [|a l IH]; intros w w' Hnd H; cbn [for_each] in H.
  - inversion H; subst. repeat split; auto. intros i [].
  - inversion Hnd as [|a' l' Hna Hnd']; subst.
    unfold bind at 1 in H.
    destruct ((n <- get (fun w => notes w a) ;;
               if negb (velo n =? -1) && (channel n =? ch) then
                 clearTutorLight a ;; modify (set_velo a (-1))
               else ret tt) w) as [[u w1]|] eqn:E1; [|discriminate].
    destruct (IH w1 w' Hnd' H) as (K & Hout & Hin).
    assert (S1 : num_curr_events w1 = num_curr_events w
                 /\ (forall i, i <> a -> notes w1 i = notes w i)
                 /\ notes w1 a
                    = if negb (velo (notes w a) =? -1)
                         && (channel (notes w a) =? ch)
                      then mk_tnote (-1) (channel (notes w a))
                             (future (notes w a)) (ts (notes w a))
                      else notes w a).
    { unfold bind at 1, get at 1 in E1.
      destruct (negb (velo (notes w a) =? -1) && (channel (notes w a) =? ch)).
      - unfold bind, modify in E1.
        destruct (clearTutorLight a w) as [[u0 w0]|] eqn:E0; [|discriminate].
        inversion E1; subst w1.
        pose proof (io_clearTutorLight _ _ _ _ E0) as SK.
        split; [cbn; apply (sk_num _ _ SK)|]. split.
        + intros i Hi. unfold set_velo. rewrite notes_set_note_at by exact Hi.
          rewrite (sk_notes _ _ SK). reflexivity.
        + unfold set_velo. rewrite notes_set_note, (sk_notes _ _ SK).
          reflexivity.
      - inversion E1; subst. auto. }
    destruct S1 as (K1 & N1 & Na).
    split; [congruence|]. split.
    + intros i Hi. rewrite (Hout i) by (intros X; apply Hi; right; exact X).
      apply N1. intros ->. apply Hi. left. reflexivity.
    + intros i [<-|Hi].
      * rewrite (Hout a Hna). exact Na.
      * assert (i <> a) by (intros ->; contradiction).
        rewrite (Hin i Hi), (N1 i) by assumption. reflexivity.
Qed.

(** X15.  [clearKeys(c)] for a channel [c] other than -1: when it
    returns, exactly the slots that were not unused and whose channel field
    is [c] are unused, every other slot is as before, and the counter is
    not changed, also when current events were among the slots cleared. *)
Theorem clearKeys_channel ch w w' :
  ch <> -1 ->
  clearKeys ch w = Some (tt, w') ->
  num_curr_events w' = num_curr_events w
  /\ forall i, 0 <= i < 256 ->
       notes w' i
       = if negb (velo (notes w i) =? -1) && (channel (notes w i) =? ch)
         then mk_tnote (-1) (channel (notes w i)) (future (notes w i))
                       (ts (notes w i))
         else notes w i.
Proof.
  intros Hch H. unfold clearKeys in H.
  apply Z.eqb_neq in Hch. rewrite Hch in H.
  unfold bind at 1 in H.
  destruct (for_each slots _ w) as [[[] w1]|] eqn:E1; [|discriminate].
  pose proof (io_flushNoLock _ _ _ H) as SK.
  destruct (clear_channel_loop ch slots w w1 slots_NoDup E1) as (K & _ & Hin).
  rewrite (sk_num _ _ SK), (sk_notes _ _ SK).
  split; [exact K|].
  intros i Hi. apply Hin. apply slots_In. exact Hi.
Qed.

Lemma clearKeys_channel_witness :
  option_map (fun r => (velo (notes (snd r) 60), velo (notes (snd r) 62),
                        num_curr_events (snd r)))
    (clearKeys 0
       (set_note 60 (mk_tnote 64 1 3 zero_ts) w_pending))
  = Some (64, -1, 1).
Proof.
  set (w := set_note 60 _ w_pending).
  destruct (clearKeys 0 w) as [[[] w']|] eqn:E.
  - destruct (clearKeys_channel 0 w w' ltac:(lia) E) as (Hk & Hn).
    cbn [option_map fst snd].
    rewrite (Hn 60 ltac:(lia)), (Hn 62 ltac:(lia)), Hk. reflexivity.
  - vm_compute in E. discriminate E.
Defined.

(** ** flush *)

(** X16.  With the port open, [flush] leaves nothing pending when it
    returns; and if the port is still open then, a second [flush] sends
    nothing and changes nothing. *)
Theorem flush_twice w w1 :
  tutorSerial w <> INVALID_SERIAL ->
  flush w = Some (tt, w1) ->
  needs_flush w1 = false
  /\ (tutorSerial w1 <> INVALID_SERIAL -> flush w1 = Some (tt, w1)).
Proof.
  intros Hfd H.
  assert (Hnf : needs_flush w1 = false).
  { unfold flush, flushNoLock, checkSerial in H.
    unfold bind at 1 in H. unfold bind at 1, get at 1 in H.
    apply Z.eqb_neq in Hfd. rewrite Hfd in H. cbn [negb ret] in H.
    unfold bind at 1, get at 1 in H. cbn [andb] in H.
    destruct (needs_flush w) eqn:Nf.
    - unfold bind, modify in H.
      destruct (safe_write _ _ _ w) as [[u w0]|]; [|discriminate].
      inversion H; subst. reflexivity.
    - inversion H; subst. exact Nf. }
  split; [exact Hnf|].
  intros Hfd1. unfold flush, flushNoLock, checkSerial.
  unfold bind at 1. unfold bind at 1, get at 1.
  apply Z.eqb_neq in Hfd1. rewrite Hfd1. cbn [negb ret].
  unfold bind at 1, get at 1. rewrite Hnf. reflexivity.
Qed.

Lemma flush_twice_witness :
  option_map (fun r => (needs_flush (snd r), sent (snd r)))
    ((addKey 60 80 0 0 t_10s ;; flush ;; flush) (prompt 2))
  = Some (false, [line "P"; line "H47100010"; line "P"; line "F"]).
Proof.
  unfold bind at 1.
  destruct (addKey 60 80 0 0 t_10s (prompt 2)) as [[[] w0]|] eqn:E0;
    [|vm_compute in E0; discriminate E0].
  unfold bind at 1.
  destruct (flush w0) as [[[] w1]|] eqn:E1.
  - assert (Hfd : tutorSerial w0 <> INVALID_SERIAL).
    { vm_compute in E0. inversion E0. vm_compute. discriminate. }
    destruct (flush_twice w0 w1 Hfd E1) as [Hnf H2].
    rewrite H2.
    + cbn [option_map fst snd]. rewrite Hnf.
      vm_compute in E0. inversion E0; subst w0.
      vm_compute in E1. inversion E1. reflexivity.
    + vm_compute in E0. inversion E0; subst w0.
      vm_compute in E1. inversion E1. vm_compute. discriminate.
  - vm_compute in E0. inversion E0; subst w0.
    vm_compute in E1. discriminate E1.
Defined.

(** ** No device, no traffic *)

Lemma sent_add_log e w :
  sent (add_log e w)
  = (sent w ++ match e with
               | EvWrite _ buf ret => if 0 <=? ret then [buf] else []
               | _ => []
               end)%list.
Proof.
  unfold sent, history. cbn [log add_log rev].
  rewrite flat_map_app. cbn [flat_map]. rewrite app_nil_r. reflexivity.
Qed.

Lemma qu_ret {A} (a : A) (P : A -> Prop) : P a -> quiet_unplugged (ret a) P.
Proof. intros Ha w Hw. exists a, w. auto. Qed.

Lemma qu_get {A} (f : World -> A) : quiet_unplugged (get f) (fun _ => True).
Proof. intros w Hw. exists (f w), w. auto. Qed.

Lemma qu_modify (f : World -> World) :
  (forall w, no_device_for w ->
     no_device_for (f w) /\ sent (f w) = sent w
     /\ needs_flush (f w) = needs_flush w) ->
  quiet_unplugged (modify f) (fun _ => True).
Proof.
  intros Hf w Hw. destruct (Hf w Hw) as (H1 & H2 & H3).
  exists tt, (f w). auto.
Qed.

Lemma qu_bind {A B} (m : M A) (k : A -> M B) P Q :
  quiet_unplugged m P ->
  (forall a, P a -> quiet_unplugged (k a) Q) ->
  quiet_unplugged (bind m k) Q.
Proof.
  intros Hm Hk w Hw.
  destruct (Hm w Hw) as (a & w1 & E & Pa & Hw1 & S1 & N1).
  destruct (Hk a Pa w1 Hw1) as (b & w2 & E2 & Qb & Hw2 & S2 & N2).
  exists b, w2. unfold bind. rewrite E.
  split; [exact E2|]. split; [exact Qb|]. split; [exact Hw2|].
  split; congruence.
Qed.

Lemma qu_if {A} (b : bool) (m1 m2 : M A) P :
  quiet_unplugged m1 P -> quiet_unplugged m2 P ->
  quiet_unplugged (if b then m1 else m2) P.
Proof. destruct b; auto. Qed.

Lemma quiet_set_note p n w :
  no_device_for w ->
  no_device_for (set_note p n w) /\ sent (set_note p n w) = sent w
  /\ needs_flush (set_note p n w) = needs_flush w.
Proof. auto. Qed.

Lemma quiet_set_velo p v w :
  no_device_for w ->
  no_device_for (set_velo p v w) /\ sent (set_velo p v w) = sent w
  /\ needs_flush (set_velo p v w) = needs_flush w.
Proof. auto. Qed.

Lemma quiet_set_ts p t w :
  no_device_for w ->
  no_device_for (set_ts p t w) /\ sent (set_ts p t w) = sent w
  /\ needs_flush (set_ts p t w) = needs_flush w.
Proof. auto. Qed.

Lemma quiet_set_num k w :
  no_device_for w ->
  no_device_for (set_num_curr_events k w)
  /\ sent (set_num_curr_events k w) = sent w
  /\ needs_flush (set_num_curr_events k w) = needs_flush w.
Proof. auto. Qed.

Lemma quiet_singleShot w :
  no_device_for w ->
  no_device_for (add_log (EvSingleShot FLUSH_TOUT) w)
  /\ sent (add_log (EvSingleShot FLUSH_TOUT) w) = sent w
  /\ needs_flush (add_log (EvSingleShot FLUSH_TOUT) w) = needs_flush w.
Proof.
  intros H. split; [exact H|]. split; [|reflexivity].
  rewrite sent_add_log. apply app_nil_r.
Qed.

(** The port cannot be opened: one failed [open], nothing else. *)
Lemma qu_checkSerial : quiet_unplugged checkSerial (fun ok => ok = false).
Proof.
  intros w [Hfd Ho]. destruct w. cbn in Hfd, Ho. subst.
  eexists _, _. split; [reflexivity|]. split; [reflexivity|].
  split; [split; reflexivity|]. split; [|reflexivity].
  unfold sent, history. cbn.
  rewrite flat_map_app. cbn [flat_map]. apply app_nil_r.
Qed.

Lemma qu_setTutorLight p v c f :
  quiet_unplugged (setTutorLight p v c f) (fun _ => True).
Proof.
  unfold setTutorLight. eapply qu_bind; [apply qu_checkSerial|].
  intros ok ->. apply qu_ret. exact I.
Qed.

Lemma qu_clearTutorLight p :
  quiet_unplugged (clearTutorLight p) (fun _ => True).
Proof.
  unfold clearTutorLight. eapply qu_bind; [apply qu_checkSerial|].
  intros ok ->. apply qu_ret. exact I.
Qed.

Lemma qu_setTutorLightPressed p :
  quiet_unplugged (setTutorLightPressed p) (fun _ => True).
Proof.
  unfold setTutorLightPressed. eapply qu_bind; [apply qu_checkSerial|].
  intros ok ->. apply qu_ret. exact I.
Qed.

Lemma qu_flushNoLock : quiet_unplugged flushNoLock (fun _ => True).
Proof.
  unfold flushNoLock. eapply qu_bind; [apply qu_checkSerial|].
  intros ok ->. eapply qu_bind; [apply qu_get|]. intros nf _.
  apply qu_ret. exact I.
Qed.

Create HintDb quiet discriminated.
#[export] Hint Resolve qu_get qu_setTutorLight qu_clearTutorLight
  qu_setTutorLightPressed qu_flushNoLock quiet_set_note quiet_set_velo
  quiet_set_ts quiet_set_num quiet_singleShot : quiet.

Ltac qu_step :=
  repeat first
    [ solve [auto with quiet]
    | apply qu_ret; exact I
    | apply qu_modify; intros; solve [auto with quiet]
    | apply qu_if
    | match goal with
      | |- quiet_unplugged (match ?x with _ => _ end) _ => destruct x
      end
    | eapply qu_bind; [|intros ? _] ].

Lemma qu_clearKeyNoLock pitch mark now :
  quiet_unplugged (clearKeyNoLock pitch mark now) (fun _ => True).
Proof. unfold clearKeyNoLock. qu_step. Qed.

Lemma qu_arbitrate n v h :
  quiet_unplugged (arbitrate n v h) (fun _ => True).
Proof. unfold arbitrate. qu_step. Qed.
#[export] Hint Resolve qu_clearKeyNoLock qu_arbitrate : quiet.

Lemma qu_addKey pitch v c h now :
  quiet_unplugged (addKey pitch v c h now) (fun _ => True).
Proof. unfold addKey, clearKey. qu_step. Qed.

Lemma qu_keyPressed pitch v now :
  quiet_unplugged (keyPressed pitch v now) (fun _ => True).
Proof. unfold keyPressed, singleShot_onFlushTimer. qu_step. Qed.
#[export] Hint Resolve qu_addKey qu_keyPressed : quiet.

Lemma qu_do_call c now : quiet_unplugged (do_call c now) (fun _ => True).
Proof. destruct c; cbn [do_call]; unfold clearKey; qu_step. Qed.

Lemma qu_run cs : quiet_unplugged (run cs) (fun _ => True).
Proof.
  induction cs as [|[c now] cs IH]; cbn [run].
  - apply qu_ret. exact I.
  - eapply qu_bind; [apply qu_do_call|]. intros _ _. exact IH.
Qed.

Lemma qu_for_each l (body : Z -> M unit) :
  (forall i, quiet_unplugged (body i) (fun _ => True)) ->
  quiet_unplugged (for_each l body) (fun _ => True).
Proof.
  intros Hb. induction l as [|a l IH]; cbn [for_each].
  - apply qu_ret. exact I.
  - eapply qu_bind; [apply Hb|]. intros _ _. exact IH.
Qed.

Lemma qu_clearKeys ch : quiet_unplugged (clearKeys ch) (fun _ => True).
Proof.
  unfold clearKeys. destruct (ch =? -1).
  - eapply qu_bind; [apply qu_checkSerial|]. intros ok ->.
    eapply qu_bind with (P := fun _ => True); [apply qu_ret; exact I|].
    intros _ _.
    eapply qu_bind with (P := fun _ => True);
      [apply qu_for_each; intro; qu_step|].
    intros _ _. qu_step.
  - eapply qu_bind with (P := fun _ => True);
      [apply qu_for_each; intro; qu_step|].
    intros _ _. qu_step.
Qed.

(** X13.  With the port closed and no device to open, every run of
    [addKey], [clearKey] and [keyPressed] calls, [clearKeys], [flush] and
    the flush timer return, write nothing to the device, and leave the port
    closed and the flush flag as it was. *)
Theorem no_device_no_traffic cs ch w :
  no_device_for w ->
  (exists w', run cs w = Some (tt, w')
     /\ no_device_for w' /\ sent w' = sent w
     /\ needs_flush w' = needs_flush w)
  /\ (exists w', clearKeys ch w = Some (tt, w')
        /\ no_device_for w' /\ sent w' = sent w
        /\ needs_flush w' = needs_flush w)
  /\ (exists w', flush w = Some (tt, w')
        /\ no_device_for w' /\ sent w' = sent w
        /\ needs_flush w' = needs_flush w)
  /\ (exists w', onFlushTimer w = Some (tt, w')
        /\ no_device_for w' /\ sent w' = sent w
        /\ needs_flush w' = needs_flush w).
Proof.
  intros Hw.
  assert (Ht : quiet_unplugged onFlushTimer (fun _ => True))
    by (unfold onFlushTimer; qu_step).
  destruct (qu_run cs w Hw) as ([] & w1 & E1 & _ & R1).
  destruct (qu_clearKeys ch w Hw) as ([] & w2 & E2 & _ & R2).
  destruct (qu_flushNoLock w Hw) as ([] & w3 & E3 & _ & R3).
  destruct (Ht w Hw) as ([] & w4 & E4 & _ & R4).
  split; [exists w1; auto|]. split; [exists w2; auto|].
  split; [exists w3; auto|]. exists w4; auto.
Qed.

Lemma no_device_no_traffic_witness :
  option_map (fun r => (sent (snd r), tutorSerial (snd r)))
    (run sample_run unplugged)
  = Some ([], -1).
Proof.
  destruct (no_device_no_traffic sample_run 0 unplugged)
    as ((w' & E & (Hfd & _) & Hs & _) & _).
  - split; reflexivity.
  - rewrite E. cbn [option_map fst snd]. rewrite Hs, Hfd. reflexivity.
Defined.

(** ** The serial layer: what it adds to the log *)

Lemma ao_ret {A} ok (a : A) : adds_only ok (ret a).
Proof. intros w b w' H. inversion H; subst. exists []. auto. Qed.

Lemma ao_get {A} ok (f : World -> A) : adds_only ok (get f).
Proof. intros w b w' H. inversion H; subst. exists []. auto. Qed.

Lemma ao_diverge {A} ok : adds_only ok (@diverge A).
Proof. intros w b w' H. discriminate H. Qed.

Lemma ao_bind {A B} ok (m : M A) (k : A -> M B) :
  adds_only ok m -> (forall a, adds_only ok (k a)) -> adds_only ok (bind m k).
Proof.
  intros Hm Hk w b w' H. unfold bind in H.
  destruct (m w) as [[a w1]|] eqn:E; [|discriminate].
  destruct (Hm _ _ _ E) as (n1 & L1 & F1).
  destruct (Hk _ _ _ _ H) as (n2 & L2 & F2).
  exists (n2 ++ n1)%list. rewrite L2, L1, app_assoc, forallb_app, F1, F2.
  auto.
Qed.

Lemma ao_if {A} ok (b : bool) (m1 m2 : M A) :
  adds_only ok m1 -> adds_only ok m2 -> adds_only ok (if b then m1 else m2).
Proof. destruct b; auto. Qed.

Lemma ao_modify ok (f : World -> World) :
  (forall w, log (f w) = log w) -> adds_only ok (modify f).
Proof.
  intros Hf w b w' H. inversion H; subst. exists []. rewrite Hf. auto.
Qed.

Lemma ao_add_log ok e : ok e = true -> adds_only ok (modify (add_log e)).
Proof.
  intros He w b w' H. inversion H; subst. exists [e]. cbn. rewrite He. auto.
Qed.

Lemma ao_OPEN ok :
  (forall s fd, ok (EvOpen s fd) = true) -> adds_only ok OPEN.
Proof.
  intros Hk w a w' H. unfold OPEN in H.
  destruct (opens w); inversion H; subst;
    eexists [_]; cbn; rewrite Hk; auto.
Qed.

Lemma ao_READ ok fd :
  (forall f r b, ok (EvRead f r b) = true) -> adds_only ok (READ fd).
Proof.
  intros Hk w a w' H. unfold READ in H.
  destruct (fd =? INVALID_SERIAL);
    [inversion H; subst; eexists [_]; cbn; rewrite Hk; auto|].
  destruct (reads w) as [|[| |b] rest]; inversion H; subst;
    eexists [_]; cbn; rewrite Hk; auto.
Qed.

Lemma ao_WRITE ok fd buf count :
  (forall f b r, ok (EvWrite f b r) = true) ->
  adds_only ok (WRITE fd buf count).
Proof.
  intros Hk w a w' H. unfold WRITE in H.
  destruct (fd =? INVALID_SERIAL);
    [inversion H; subst; eexists [_]; cbn; rewrite Hk; auto|].
  destruct (writes w) as [|[|n] rest]; inversion H; subst;
    eexists [_]; cbn; rewrite Hk; auto.
Qed.

Lemma ao_wait_banner fuel : forall n, adds_only opening_event (wait_banner fuel n).
Proof.
  induction fuel as [|fuel IH]; intro n; cbn [wait_banner].
  - apply ao_diverge.
  - apply ao_if; [|apply ao_ret].
    apply ao_bind; [apply ao_get|]. intro fd.
    apply ao_bind; [apply ao_READ; reflexivity|]. intro r.
    apply ao_if; [apply ao_ret|apply IH].
Qed.

Lemma ao_checkSerial : adds_only opening_event checkSerial.
Proof.
  unfold checkSerial.
  apply ao_bind; [apply ao_get|]. intro fd.
  apply ao_if; [apply ao_ret|].
  apply ao_bind; [apply ao_OPEN; reflexivity|]. intro r.
  apply ao_bind; [apply ao_modify; reflexivity|]. intros _.
  repeat (apply ao_if; [apply ao_ret|]).
  apply ao_bind; [apply ao_get|]. intro n.
  apply ao_bind; [apply ao_wait_banner|]. intro ok.
  apply ao_if; [|apply ao_ret].
  apply ao_bind; [apply ao_add_log; reflexivity|]. intros _. apply ao_ret.
Qed.

Lemma ao_weaken {A} (ok ok' : event -> bool) (m : M A) :
  (forall e, ok e = true -> ok' e = true) ->
  adds_only ok m -> adds_only ok' m.
Proof.
  intros Hk Hm w a w' H. destruct (Hm _ _ _ H) as (new & L & F).
  exists new. split; [exact L|].
  rewrite forallb_forall in *. auto.
Qed.

(** The handshake writes and reads, and never closes the port. *)
Lemma ao_handshake fuel s :
  adds_only (fun e => negb (is_close e))
    (do_while fuel ping_body (fun s => negb (bytes_read s =? 1)) s).
Proof.
  revert s. induction fuel as [|fuel IH]; intro s; cbn [do_while].
  - apply ao_diverge.
  - apply ao_bind.
    + unfold ping_body.
      apply ao_bind; [apply ao_get|]. intro fd.
      apply ao_bind; [apply ao_WRITE; reflexivity|]. intros _.
      apply ao_bind; [apply ao_READ; reflexivity|]. intro r.
      apply ao_if; apply ao_ret.
    + intros [c s']. cbn [fst snd].
      destruct c; (apply ao_if; [apply IH|apply ao_ret]).
Qed.

Lemma ao_write_all fuel : forall data len retry,
  adds_only (fun _ => true) (write_all fuel data len retry).
Proof.
  induction fuel as [|fuel IH]; intros data len retry; cbn [write_all].
  - apply ao_diverge.
  - apply ao_if; [|apply ao_ret].
    apply ao_bind; [apply ao_get|]. intro fd.
    apply ao_bind; [apply ao_WRITE; reflexivity|]. intro written.
    apply ao_if; [|apply IH].
    apply ao_bind; [apply ao_add_log; reflexivity|]. intros _.
    apply ao_bind; [apply ao_modify; reflexivity|]. intros _.
    apply ao_if; [|apply ao_ret].
    apply ao_bind; [|intros _; apply IH].
    apply (ao_weaken opening_event); [reflexivity|apply ao_checkSerial].
Qed.

Lemma closes_grow w w' new :
  log w' = (new ++ log w)%list ->
  closes w' = (List.length (filter is_close new) + closes w)%nat.
Proof.
  intros L. unfold closes. rewrite L.
  change (fun e => match e with EvClose _ => true | _ => false end)
    with is_close.
  rewrite filter_app, length_app. reflexivity.
Qed.

Lemma filter_none {A} (f : A -> bool) l :
  forallb (fun e => negb (f e)) l = true -> filter f l = [].
Proof.
  induction l as [|a l IH]; [reflexivity|]. cbn.
  destruct (f a); cbn; [discriminate|exact IH].
Qed.

Lemma closes_kept {A} (m : M A) w a w' :
  adds_only (fun e => negb (is_close e)) m ->
  m w = Some (a, w') -> closes w' = closes w.
Proof.
  intros Hm H. destruct (Hm _ _ _ H) as (new & L & F).
  rewrite (closes_grow _ _ _ L), (filter_none _ _ F). reflexivity.
Qed.

Lemma closes_mono {A} ok (m : M A) w a w' :
  adds_only ok m -> m w = Some (a, w') -> (closes w <= closes w')%nat.
Proof.
  intros Hm H. destruct (Hm _ _ _ H) as (new & L & F).
  rewrite (closes_grow _ _ _ L). lia.
Qed.

Lemma checkSerial_no_close : adds_only (fun e => negb (is_close e)) checkSerial.
Proof.
  apply (ao_weaken opening_event); [|apply ao_checkSerial].
  intros [] H; try discriminate; reflexivity.
Qed.

(** The write loop closes the port at most once more than it may retry. *)
Lemma write_all_closes fuel : forall data len retry w w',
  0 <= retry ->
  write_all fuel data len retry w = Some (tt, w') ->
  (closes w' <= closes w + Z.to_nat retry + 1)%nat.
Proof.
  induction fuel as [|fuel IH]; intros data len retry w w' Hr H;
    cbn [write_all] in H; [discriminate|].
  destruct (0 <? len); [|inversion H; subst; lia].
  unfold bind at 1, get at 1 in H. unfold bind at 1 in H.
  destruct (WRITE (tutorSerial w) data len w) as [[written w1]|] eqn:Ew;
    [|discriminate].
  pose proof (closes_kept _ _ _ _
                (ao_WRITE _ (tutorSerial w) data len (fun _ _ _ => eq_refl)) Ew)
    as C1.
  destruct (written <? 0).
  - unfold bind at 1, CLOSE at 1, modify at 1 in H.
    unfold bind at 1, modify at 1 in H.
    set (w2 := set_tutorSerial INVALID_SERIAL
                 (add_log (EvClose (tutorSerial w)) w1)) in H.
    assert (C2 : closes w2 = S (closes w1)) by reflexivity.
    destruct (Z.ltb_spec 0 retry) as [Hpos|Hpos].
    + unfold bind at 1 in H.
      destruct (checkSerial w2) as [[ok w3]|] eqn:Ec; [|discriminate].
      pose proof (closes_kept _ _ _ _ checkSerial_no_close Ec) as C3.
      apply IH in H; [|lia].
      replace (Z.to_nat (retry - 1)) with (Z.to_nat retry - 1)%nat in H by lia.
      assert (0 < Z.to_nat retry)%nat by lia. lia.
    + inversion H; subst w'. lia.
  - apply IH in H; [|exact Hr]. lia.
Qed.

(** X22.  [safe_write] gives up after three failed writes: one call
    closes the port at most three times. *)
Theorem safe_write_retry_bound data len flush_op w w' :
  safe_write data len flush_op w = Some (tt, w') ->
  (closes w' <= closes w + 3)%nat.
Proof.
  unfold safe_write. unfold bind at 1, get at 1. unfold bind at 1.
  intros H.
  destruct (do_while _ _ _ _ w) as [[s w1]|] eqn:Eh; [|discriminate].
  pose proof (closes_kept _ _ _ _ (ao_handshake _ _) Eh) as C1.
  unfold bind at 1, get at 1 in H.
  apply write_all_closes in H; [|lia].
  change (Z.to_nat 2) with 2%nat in H. lia.
Qed.

Lemma safe_write_retry_bound_witness :
  option_map (fun r => (closes (snd r), tutorSerial (snd r)))
    (safe_write (line "H47100010") 10 false (plugged [ReadByte "P"] [Wrote 2]))
  = Some (3%nat, -1).
Proof.
  destruct (safe_write (line "H47100010") 10 false
              (plugged [ReadByte "P"] [Wrote 2])) as [[[] w']|] eqn:E.
  - pose proof (safe_write_retry_bound _ _ _ _ _ E) as B.
    vm_compute in E. inversion E. reflexivity.
  - vm_compute in E. discriminate E.
Defined.

(** ** Partial writes *)

Lemma substring_all s : substring 0 (String.length s) s = s.
Proof. induction s as [|c s IH]; cbn; [reflexivity|rewrite IH; reflexivity]. Qed.

Lemma substring_0_0 s : substring 0 0 s = EmptyString.
Proof. destruct s; reflexivity. Qed.

Lemma substring_length_le n m s :
  (n + m <= String.length s)%nat ->
  String.length (substring n m s) = m.
Proof.
  revert n m. induction s as [|c s IH]; intros n m H; cbn in H.
  - assert (n = 0 /\ m = 0)%nat as [-> ->] by lia. reflexivity.
  - destruct n as [|n]; cbn.
    + destruct m as [|m]; [reflexivity|]. cbn.
      rewrite (IH 0%nat m) by lia. reflexivity.
    + apply IH. lia.
Qed.

(** The first [k] bytes, then the first [n - k] of what follows, are the
    first [n] bytes. *)
Lemma take_then_take k n s :
  (k <= n <= String.length s)%nat ->
  (substring 0 k s
   ++ substring 0 (n - k) (substring k (String.length s - k) s))%string
  = substring 0 n s.
Proof.
  revert k n. induction s as [|c s IH]; intros k n H; cbn in H.
  - assert (k = 0 /\ n = 0)%nat as [-> ->] by lia. reflexivity.
  - destruct k as [|k].
    + rewrite substring_0_0. cbn [String.append].
      rewrite !Nat.sub_0_r, substring_all. reflexivity.
    + destruct n as [|n]; [lia|].
      cbn [substring String.length Nat.sub String.append].
      rewrite (IH k n) by lia. reflexivity.
Qed.

Lemma sent_grow w w' new :
  log w' = (new ++ log w)%list ->
  exists more, sent w' = (sent w ++ more)%list.
Proof.
  intros L. unfold sent, history. rewrite L, rev_app_distr, flat_map_app.
  eexists. reflexivity.
Qed.

(** What a write that did not fail did. *)
Lemma WRITE_taken fd data len w written w1 :
  WRITE fd data len w = Some (written, w1) ->
  0 <= len ->
  0 <= written ->
  written <= len
  /\ sent w1 = (sent w ++ [take_bytes written data])%list
  /\ closes w1 = closes w
  /\ tutorSerial w1 = tutorSerial w.
Proof.
  unfold WRITE. intros H Hl Hw.
  destruct (fd =? INVALID_SERIAL); [inversion H; subst; lia|].
  destruct (writes w) as [|[|n] rest]; inversion H; subst; try lia.
  split; [lia|]. split; [|split; reflexivity].
  rewrite sent_add_log.
  destruct (Z.leb_spec 0 (Z.min (Z.of_nat n) len)); [reflexivity|lia].
Qed.

Lemma write_all_delivers fuel : forall data len retry w w',
  write_all fuel data len retry w = Some (tt, w') ->
  closes w' = closes w ->
  0 <= len <= Z.of_nat (String.length data) ->
  exists chunks,
    sent w' = (sent w ++ chunks)%list
    /\ join chunks = take_bytes len data.
Proof.
  induction fuel as [|fuel IH]; intros data len retry w w' H Hc Hl;
    cbn [write_all] in H; [discriminate|].
  destruct (Z.ltb_spec 0 len) as [Hpos|Hpos].
  2:{ inversion H; subst. exists []. rewrite app_nil_r.
      split; [reflexivity|].
      replace len with 0 by lia. unfold take_bytes. cbn [Z.to_nat].
      rewrite substring_0_0. reflexivity. }
  unfold bind at 1, get at 1 in H. unfold bind at 1 in H.
  destruct (WRITE (tutorSerial w) data len w) as [[written w1]|] eqn:Ew;
    [|discriminate].
  destruct (Z.ltb_spec written 0) as [Hneg|Hok].
  - (* a failed write closes the port: excluded *)
    exfalso.
    pose proof (closes_kept _ _ _ _
                  (ao_WRITE _ (tutorSerial w) data len (fun _ _ _ => eq_refl)) Ew)
      as C1.
    unfold bind at 1, CLOSE at 1, modify at 1 in H.
    unfold bind at 1, modify at 1 in H.
    set (w2 := set_tutorSerial INVALID_SERIAL
                 (add_log (EvClose (tutorSerial w)) w1)) in H.
    assert (C2 : closes w2 = S (closes w1)) by reflexivity.
    destruct (0 <? retry).
    + unfold bind at 1 in H.
      destruct (checkSerial w2) as [[ok w3]|] eqn:Ec; [|discriminate].
      pose proof (closes_kept _ _ _ _ checkSerial_no_close Ec) as C3.
      pose proof (closes_mono _ _ _ _ _ (ao_write_all _ _ _ _) H). lia.
    + inversion H; subst w'. lia.
  - destruct (WRITE_taken _ _ _ _ _ _ Ew ltac:(lia) Hok) as (Hle & S1 & C1 & _).
    assert (Hlen : String.length (drop_bytes written data)
                   = (String.length data - Z.to_nat written)%nat).
    { unfold drop_bytes. apply substring_length_le. lia. }
    destruct (IH _ _ _ _ _ H) as (chunks & S2 & J2).
    + lia.
    + rewrite Hlen. lia.
    + exists (take_bytes written data :: chunks).
      split; [rewrite S2, S1, <- app_assoc; reflexivity|].
      cbn [join fold_right]. fold (join chunks). rewrite J2.
      unfold take_bytes, drop_bytes.
      replace (Z.to_nat (len - written))
        with (Z.to_nat len - Z.to_nat written)%nat by lia.
      apply take_then_take. lia.
Qed.

(** X21.  When no write fails (the port is not closed during the call),
    [safe_write] delivers the command whole, however the device splits it:
    the buffers taken by the device end with pieces that, put end to end,
    are the first [len] bytes of [data]. *)
Theorem safe_write_delivers data len flush_op w w' :
  safe_write data len flush_op w = Some (tt, w') ->
  closes w' = closes w ->
  0 <= len <= Z.of_nat (String.length data) ->
  exists before chunks,
    sent w' = (sent w ++ before ++ chunks)%list
    /\ join chunks = take_bytes len data.
Proof.
  unfold safe_write. unfold bind at 1, get at 1. unfold bind at 1.
  intros H Hc Hl.
  destruct (do_while _ _ _ _ w) as [[s w1]|] eqn:Eh; [|discriminate].
  pose proof (closes_kept _ _ _ _ (ao_handshake _ _) Eh) as C1.
  destruct (ao_handshake _ _ _ _ _ Eh) as (new & L & _).
  destruct (sent_grow _ _ _ L) as (before & S1).
  unfold bind at 1, get at 1 in H.
  destruct (write_all_delivers _ _ _ _ _ _ H ltac:(lia) Hl)
    as (chunks & S2 & J).
  exists before, chunks. rewrite S2, S1, <- app_assoc. auto.
Qed.

Lemma safe_write_delivers_witness :
  option_map (fun r => sent (snd r))
    (safe_write (line "H47100010") 10 false
       (plugged [ReadByte "P"] [Wrote 2; Wrote 3; Wrote 0; Wrote 4; Wrote 9]))
  = Some [line "P"; "H47"%string; EmptyString; "1000"%string; line "10"].
Proof.
  destruct (safe_write (line "H47100010") 10 false
              (plugged [ReadByte "P"]
                 [Wrote 2; Wrote 3; Wrote 0; Wrote 4; Wrote 9]))
    as [[[] w']|] eqn:E.
  - destruct (safe_write_delivers _ _ _ _ _ E) as (before & chunks & S & J).
    + vm_compute in E. inversion E. reflexivity.
    + vm_compute. split; discriminate.
    + vm_compute in E. inversion E. reflexivity.
  - vm_compute in E. discriminate E.
Defined.

(** ** Opening the port *)

Lemma READ_effect fd w r w1 :
  READ fd w = Some (r, w1) ->
  tutorSerial w1 = tutorSerial w
  /\ ((fst r < 0 /\ bytes_got w1 = bytes_got w)
      \/ (fst r = 0 /\ bytes_got w1 = bytes_got w)
      \/ (fst r = 1 /\ bytes_got w1 = S (bytes_got w))).
Proof.
  unfold READ. intros H.
  destruct (fd =? INVALID_SERIAL);
    [inversion H; subst; split; [reflexivity|left; split; [cbn; lia|reflexivity]]|].
  destruct (reads w) as [|[| |b] rest]; inversion H; subst;
    (split; [reflexivity|]).
  - left. split; [cbn; lia|reflexivity].
  - left. split; [cbn; lia|reflexivity].
  - right. left. split; reflexivity.
  - right. right. split; reflexivity.
Qed.

(** The greeting loop ends well only after [to_read] bytes were read. *)
Lemma wait_banner_counts fuel : forall n w w',
  wait_banner fuel n w = Some (true, w') ->
  0 <= n ->
  tutorSerial w' = tutorSerial w
  /\ bytes_got w' = (bytes_got w + Z.to_nat n)%nat.
Proof.
  induction fuel as [|fuel IH]; intros n w w' H Hn; cbn [wait_banner] in H;
    [discriminate|].
  destruct (Z.ltb_spec 0 n) as [Hpos|Hpos].
  2:{ inversion H; subst. split; [reflexivity|].
      replace (Z.to_nat n) with 0%nat by lia. lia. }
  unfold bind at 1, get at 1 in H. unfold bind at 1 in H.
  destruct (READ (tutorSerial w) w) as [[r w1]|] eqn:Er; [|discriminate].
  destruct (READ_effect _ _ _ _ Er) as (Hfd & Hcase).
  destruct (Z.ltb_spec (fst r) 0) as [Hneg|Hok]; [discriminate|].
  destruct Hcase as [[Hr _]|[[Hr Hb]|[Hr Hb]]]; [lia| |].
  - destruct (IH _ _ _ H) as (F & B); [lia|].
    rewrite F, B, Hfd, Hb, Hr. split; [reflexivity|]. f_equal. f_equal. lia.
  - destruct (IH _ _ _ H) as (F & B); [lia|].
    rewrite F, B, Hfd, Hb, Hr. split; [reflexivity|]. lia.
Qed.

Lemma wait_banner_keeps_fd fuel : forall n w ok w',
  wait_banner fuel n w = Some (ok, w') -> tutorSerial w' = tutorSerial w.
Proof.
  induction fuel as [|fuel IH]; intros n w ok w' H; cbn [wait_banner] in H;
    [discriminate|].
  destruct (0 <? n); [|inversion H; subst; reflexivity].
  unfold bind at 1, get at 1 in H. unfold bind at 1 in H.
  destruct (READ (tutorSerial w) w) as [[r w1]|] eqn:Er; [|discriminate].
  destruct (READ_effect _ _ _ _ Er) as (Hfd & _).
  destruct (fst r <? 0).
  - inversion H; subst. exact Hfd.
  - rewrite (IH _ _ _ _ H). exact Hfd.
Qed.

(** What [checkSerial] did when it found the port closed. *)
Lemma checkSerial_from_closed w ok w' :
  tutorSerial w = INVALID_SERIAL ->
  checkSerial w = Some (ok, w') ->
  closes w' = closes w
  /\ tutorSerial w'
     = o_fd (match opens w with [] => no_device | r :: _ => r end)
  /\ (ok = true ->
      tutorSerial w' <> INVALID_SERIAL
      /\ bytes_got w' = (bytes_got w + 25)%nat
      /\ exists l, log w' = EvSleep 10 :: l).
Proof.
  intros Hfd H.
  split; [exact (closes_kept _ _ _ _ checkSerial_no_close H)|].
  unfold checkSerial in H. unfold bind at 1, get at 1 in H.
  rewrite Hfd in H. cbn [Z.eqb Pos.eqb negb INVALID_SERIAL] in H.
  unfold bind at 1 in H.
  set (r := match opens w with [] => no_device | r :: _ => r end).
  destruct (OPEN w) as [[r' w0]|] eqn:Eo; [|discriminate].
  assert (Hr : r' = r /\ bytes_got w0 = bytes_got w).
  { unfold OPEN in Eo. unfold r.
    destruct (opens w); inversion Eo; subst; split; reflexivity. }
  destruct Hr as [-> B0].
  unfold bind at 1, modify at 1 in H.
  set (w1 := set_tutorSerial (o_fd r) w0) in H.
  assert (F1 : tutorSerial w1 = o_fd r) by reflexivity.
  assert (B1 : bytes_got w1 = bytes_got w) by exact B0.
  destruct (Z.eqb_spec (o_fd r) INVALID_SERIAL) as [Ei|Ei].
  { inversion H; subst. split; [exact F1|]. discriminate. }
  destruct (o_tcgetattr r); cbn [negb] in H;
    [|inversion H; subst; split; [exact F1|discriminate]].
  destruct (o_cfsetspeed r); cbn [negb] in H;
    [|inversion H; subst; split; [exact F1|discriminate]].
  destruct (o_tcsetattr r); cbn [negb] in H;
    [|inversion H; subst; split; [exact F1|discriminate]].
  unfold bind at 1, get at 1 in H. unfold bind at 1 in H.
  destruct (wait_banner _ 25 w1) as [[b w2]|] eqn:Eb; [|discriminate].
  pose proof (wait_banner_keeps_fd _ _ _ _ _ Eb) as F2.
  destruct b.
  - unfold bind, MILLI_SLEEP, modify, ret in H. inversion H; subst ok w'.
    destruct (wait_banner_counts _ _ _ _ Eb ltac:(lia)) as (_ & B2).
    split; [cbn; rewrite F2; exact F1|]. intros _.
    split; [cbn; rewrite F2, F1; exact Ei|].
    split; [|eexists; reflexivity].
    change (bytes_got w2 = (bytes_got w + 25)%nat).
    rewrite B2, B1. reflexivity.
  - inversion H; subst. split; [rewrite F2; exact F1|discriminate].
Qed.

(** X18.  [checkSerial] answers true only with the port open, never
    closes a descriptor, and on an open port it does nothing at all. *)
Theorem checkSerial_true_is_open w ok w' :
  checkSerial w = Some (ok, w') ->
  (ok = true -> tutorSerial w' <> INVALID_SERIAL)
  /\ closes w' = closes w
  /\ (tutorSerial w <> INVALID_SERIAL -> ok = true /\ w' = w).
Proof.
  intros H.
  destruct (Z.eq_dec (tutorSerial w) INVALID_SERIAL) as [Hfd|Hfd].
  - destruct (checkSerial_from_closed w ok w' Hfd H) as (C & _ & Ht).
    split; [intros Hok; apply Ht; exact Hok|]. split; [exact C|].
    intros X. contradiction.
  - assert (E : checkSerial w = Some (true, w)).
    { unfold checkSerial. unfold bind at 1, get at 1.
      apply Z.eqb_neq in Hfd. rewrite Hfd. reflexivity. }
    rewrite E in H. inversion H; subst. auto.
Qed.

Lemma checkSerial_true_is_open_witness :
  option_map (fun r => (fst r, tutorSerial (snd r)))
    (checkSerial (Tutor_new mem0 [mk_open_reply 4 true true true]
                    (repeat (ReadByte "r") 25) []))
  = Some (true, 4).
Proof.
  destruct (checkSerial (Tutor_new mem0 [mk_open_reply 4 true true true]
                           (repeat (ReadByte "r") 25) []))
    as [[ok w']|] eqn:E.
  - pose proof (checkSerial_true_is_open _ _ _ E) as (H1 & _).
    vm_compute in E. inversion E. reflexivity.
  - vm_compute in E. discriminate E.
Defined.

(** X19.  When [checkSerial] opens the port with success it has read
    exactly 25 bytes of greeting, however many reads timed out in between,
    and ends with the sleep of 10 ms. *)
Theorem checkSerial_reads_greeting w w' :
  tutorSerial w = INVALID_SERIAL ->
  checkSerial w = Some (true, w') ->
  bytes_got w' = (bytes_got w + 25)%nat
  /\ exists l, log w' = EvSleep 10 :: l.
Proof.
  intros Hfd H.
  destruct (checkSerial_from_closed w true w' Hfd H) as (_ & _ & Ht).
  destruct (Ht eq_refl) as (_ & B & L). auto.
Qed.

Lemma checkSerial_reads_greeting_witness :
  option_map (fun r => (bytes_got (snd r), List.length (reads (snd r))))
    (checkSerial (Tutor_new mem0 [mk_open_reply 4 true true true]
                    (ReadNone :: repeat (ReadByte "r") 20 ++ ReadNone
                       :: repeat (ReadByte "r") 7) []))
  = Some (25%nat, 2%nat).
Proof.
  set (w := Tutor_new mem0 _ _ []).
  destruct (checkSerial w) as [[ok w']|] eqn:E.
  - assert (Hok : ok = true) by (vm_compute in E; inversion E; reflexivity).
    subst ok.
    destruct (checkSerial_reads_greeting w w' eq_refl E) as (B & _).
    cbn [option_map fst snd]. rewrite B.
    vm_compute in E. inversion E. reflexivity.
  - vm_compute in E. discriminate E.
Defined.



(** ** The flush flag *)

Lemma mf_ret {A} (a : A) : marks_flush (ret a).
Proof. intros w b w' H. inversion H; subst. auto. Qed.

Lemma mf_get {A} (f : World -> A) : marks_flush (get f).
Proof. intros w b w' H. inversion H; subst. auto. Qed.

Lemma mf_diverge {A} : marks_flush (@diverge A).
Proof. intros w b w' H. discriminate H. Qed.

Lemma mf_bind {A B} (m : M A) (k : A -> M B) :
  marks_flush m -> (forall a, marks_flush (k a)) -> marks_flush (bind m k).
Proof.
  intros Hm Hk w b w' H. unfold bind in H.
  destruct (m w) as [[a w1]|] eqn:E; [|discriminate].
  destruct (Hm _ _ _ E) as [A1|[S1 N1]];
    destruct (Hk _ _ _ _ H) as [A2|[S2 N2]]; auto.
  - left. congruence.
  - right. split; congruence.
Qed.

Lemma mf_if {A} (b : bool) (m1 m2 : M A) :
  marks_flush m1 -> marks_flush m2 -> marks_flush (if b then m1 else m2).
Proof. destruct b; auto. Qed.

Lemma mf_modify (f : World -> World) :
  (forall w, log (f w) = log w /\ needs_flush (f w) = needs_flush w) ->
  marks_flush (modify f).
Proof.
  intros Hf w b w' H. inversion H; subst. right.
  destruct (Hf w) as [L N]. split; [|exact N].
  unfold sent, history. rewrite L. reflexivity.
Qed.

Lemma mf_event e :
  is_write e = false -> marks_flush (modify (add_log e)).
Proof.
  intros He w b w' H. inversion H; subst. right. split; [|reflexivity].
  rewrite sent_add_log. destruct e; try discriminate; apply app_nil_r.
Qed.

Lemma mf_OPEN : marks_flush OPEN.
Proof.
  intros w a w' H. unfold OPEN in H. right.
  destruct (opens w) as [|r rest]; inversion H; subst; (split; [|reflexivity]).
  - rewrite sent_add_log. apply app_nil_r.
  - match goal with
    | |- sent (add_log ?e ?x) = _ => change (sent (add_log e w) = sent w)
    end.
    rewrite sent_add_log. apply app_nil_r.
Qed.

Lemma mf_READ fd : marks_flush (READ fd).
Proof.
  intros w a w' H. unfold READ in H. right.
  destruct (fd =? INVALID_SERIAL).
  { inversion H; subst. split; [|reflexivity].
    rewrite sent_add_log. apply app_nil_r. }
  destruct (reads w) as [|[| |b] rest]; inversion H; subst;
    (split; [|reflexivity]);
    match goal with
    | |- sent (add_log ?e ?x) = _ =>
        change (sent (add_log e w) = sent w)
    end; rewrite sent_add_log; apply app_nil_r.
Qed.

Lemma mf_wait_banner fuel : forall n, marks_flush (wait_banner fuel n).
Proof.
  induction fuel as [|fuel IH]; intro n; cbn [wait_banner].
  - apply mf_diverge.
  - apply mf_if; [|apply mf_ret].
    apply mf_bind; [apply mf_get|]. intro fd.
    apply mf_bind; [apply mf_READ|]. intro r.
    apply mf_if; [apply mf_ret|apply IH].
Qed.

Lemma mf_checkSerial : marks_flush checkSerial.
Proof.
  unfold checkSerial.
  apply mf_bind; [apply mf_get|]. intro fd.
  apply mf_if; [apply mf_ret|].
  apply mf_bind; [apply mf_OPEN|]. intro r.
  apply mf_bind; [apply mf_modify; intro; split; reflexivity|]. intros _.
  repeat (apply mf_if; [apply mf_ret|]).
  apply mf_bind; [apply mf_get|]. intro n.
  apply mf_bind; [apply mf_wait_banner|]. intro ok.
  apply mf_if; [|apply mf_ret].
  apply mf_bind; [apply mf_event; reflexivity|]. intros _. apply mf_ret.
Qed.

(** A command handed to [safe_write] is followed by the flag. *)
Lemma mf_command (cmd : World -> string * Z) (m : string * Z -> M unit) :
  marks_flush (c <- get cmd ;;
               m c ;;
               modify (set_needs_flush true)).
Proof.
  intros w a w' H. left. unfold bind, get, modify in H.
  destruct (m _ w) as [[u w1]|]; [|discriminate].
  inversion H; subst. reflexivity.
Qed.

Lemma mf_setTutorLight p v c f : marks_flush (setTutorLight p v c f).
Proof.
  unfold setTutorLight. apply mf_bind; [apply mf_checkSerial|]. intro ok.
  apply mf_if; [apply mf_command|apply mf_ret].
Qed.

Lemma mf_clearTutorLight p : marks_flush (clearTutorLight p).
Proof.
  unfold clearTutorLight. apply mf_bind; [apply mf_checkSerial|]. intro ok.
  apply mf_if; [apply mf_command|apply mf_ret].
Qed.

Lemma mf_setTutorLightPressed p : marks_flush (setTutorLightPressed p).
Proof.
  unfold setTutorLightPressed. apply mf_bind; [apply mf_checkSerial|].
  intro ok. apply mf_if; [apply mf_command|apply mf_ret].
Qed.

Create HintDb flag discriminated.
#[export] Hint Resolve mf_ret mf_get mf_setTutorLight mf_clearTutorLight
  mf_setTutorLightPressed : flag.

Ltac mf_step :=
  repeat first
    [ solve [auto with flag]
    | apply mf_modify; intro; split; reflexivity
    | apply mf_event; reflexivity
    | apply mf_if
    | match goal with
      | |- marks_flush (match ?x with _ => _ end) => destruct x
      end
    | apply mf_bind; [|intro] ].

Lemma mf_clearKeyNoLock pitch mark now :
  marks_flush (clearKeyNoLock pitch mark now).
Proof. unfold clearKeyNoLock. mf_step. Qed.

Lemma mf_arbitrate n v h : marks_flush (arbitrate n v h).
Proof. unfold arbitrate. mf_step. Qed.
#[export] Hint Resolve mf_clearKeyNoLock mf_arbitrate : flag.

Lemma mf_addKey pitch v c h now : marks_flush (addKey pitch v c h now).
Proof. unfold addKey, clearKey. mf_step. Qed.

Lemma mf_keyPressed pitch v now : marks_flush (keyPressed pitch v now).
Proof. unfold keyPressed, singleShot_onFlushTimer. mf_step. Qed.
#[export] Hint Resolve mf_addKey mf_keyPressed : flag.

Lemma mf_do_call c now : marks_flush (do_call c now).
Proof. destruct c; cbn [do_call]; unfold clearKey; mf_step. Qed.

Lemma mf_run cs : marks_flush (run cs).
Proof.
  induction cs as [|[c now] cs IH]; cbn [run].
  - apply mf_ret.
  - apply mf_bind; [apply mf_do_call|]. intros _. exact IH.
Qed.

Lemma run_steps_app ss1 : forall ss2 w,
  run_steps (ss1 ++ ss2) w = (run_steps ss1 ;; run_steps ss2) w.
Proof.
  induction ss1 as [|s ss1 IH]; intros ss2 w; cbn [app run_steps].
  - reflexivity.
  - unfold bind. destruct (do_step s w) as [[[] w1]|]; [|reflexivity].
    rewrite IH. reflexivity.
Qed.

Lemma run_steps_calls cs : forall w, run_steps (calls cs) w = run cs w.
Proof.
  induction cs as [|[c now] cs IH]; intro w; cbn [calls map run_steps run].
  - reflexivity.
  - cbn [fst snd do_step]. unfold bind.
    destruct (do_call c now w) as [[[] w1]|]; [|reflexivity].
    apply IH.
Qed.

(** X17.  Nothing is written to the device behind the back of the
    flush flag.  In a run of calls of [addKey], [clearKey] and
    [keyPressed], callbacks of the flush timer and calls of [flush], take
    the calls that come after the last callback or [flush]: at the end
    either a flush is pending, or these calls wrote nothing and the flag is
    as it was before them. *)
Theorem writes_leave_flush_pending ss cs w w' :
  run_steps (ss ++ calls cs) w = Some (tt, w') ->
  exists w1,
    run_steps ss w = Some (tt, w1)
    /\ (needs_flush w' = true
        \/ (sent w' = sent w1 /\ needs_flush w' = needs_flush w1)).
Proof.
  intros H. rewrite run_steps_app in H. unfold bind in H.
  destruct (run_steps ss w) as [[[] w1]|]; [|discriminate].
  exists w1. split; [reflexivity|].
  rewrite run_steps_calls in H. exact (mf_run cs _ _ _ H).
Qed.

Lemma writes_leave_flush_pending_witness :
  option_map (fun r => needs_flush (snd r)) (run_steps sample_steps (prompt 8))
  = Some false
  /\ option_map (fun r => needs_flush (snd r))
       (run_steps (sample_steps ++ calls [(AddKey 64 90 1 3, t_10s_200)])
          (prompt 8))
     = Some true.
Proof.
  split; [vm_compute; reflexivity|].
  destruct (run_steps (sample_steps ++ calls [(AddKey 64 90 1 3, t_10s_200)])
              (prompt 8)) as [[[] w']|] eqn:E.
  - destruct (writes_leave_flush_pending _ _ _ _ E) as (w1 & E1 & [H|[H _]]).
    + cbn [option_map fst snd]. rewrite H. reflexivity.
    + exfalso. vm_compute in E1. inversion E1; subst w1.
      vm_compute in E. inversion E; subst w'.
      vm_compute in H. discriminate H.
  - vm_compute in E. discriminate E.
Defined.

(** ** Changing the device *)

Lemma checkSerial_opens_first w ok w' :
  tutorSerial w = INVALID_SERIAL ->
  checkSerial w = Some (ok, w') ->
  exists fd l,
    history w' = (history w ++ EvOpen (serialDevice w) fd :: l)%list.
Proof.
  intros Hfd H.
  unfold checkSerial in H. unfold bind at 1, get at 1 in H.
  rewrite Hfd in H. cbn [Z.eqb Pos.eqb negb INVALID_SERIAL] in H.
  unfold bind at 1 in H.
  destruct (OPEN w) as [[r w0]|] eqn:Eo; [|discriminate].
  assert (L0 : log w0 = EvOpen (serialDevice w) (o_fd r) :: log w).
  { unfold OPEN in Eo. destruct (opens w); inversion Eo; subst; reflexivity. }
  match type of H with
  | ?k w0 = _ => assert (A : adds_only opening_event k)
  end.
  { apply ao_bind; [apply ao_modify; reflexivity|]. intros _.
    repeat (apply ao_if; [apply ao_ret|]).
    apply ao_bind; [apply ao_get|]. intro n.
    apply ao_bind; [apply ao_wait_banner|]. intro b.
    apply ao_if; [|apply ao_ret].
    apply ao_bind; [apply ao_add_log; reflexivity|]. intros _.
    apply ao_ret. }
  destruct (A _ _ _ H) as (new & L & _).
  exists (o_fd r), (rev new). unfold history.
  rewrite L, L0, rev_app_distr. cbn [rev]. rewrite <- app_assoc.
  reflexivity.
Qed.

(** X25.  [setSerialDevice] always returns; it closes the port when,
    and only when, it was open, leaves the port marked closed and the key
    table, counter and calibration as they were, and the next
    [checkSerial] starts by opening the device of the new name. *)
Theorem setSerialDevice_reopens s w :
  exists w1,
    setSerialDevice s w = Some (tt, w1)
    /\ tutorSerial w1 = INVALID_SERIAL
    /\ getSerialDevice w1 = Some (s, w1)
    /\ same_keys w w1
    /\ closes w1
       = (closes w + if (tutorSerial w =? INVALID_SERIAL)%Z then 0 else 1)%nat
    /\ forall ok w2,
         checkSerial w1 = Some (ok, w2) ->
         exists fd l, history w2 = (history w1 ++ EvOpen s fd :: l)%list.
Proof.
  unfold setSerialDevice, bind, get, modify, CLOSE, getSerialDevice.
  destruct (Z.eqb_spec (tutorSerial w) INVALID_SERIAL) as [E|E];
    cbn [negb]; eexists; (split; [reflexivity|]);
    (split; [reflexivity|]); (split; [reflexivity|]);
    (split; [constructor; reflexivity|]);
    (split; [unfold closes; cbn; lia|]).
  all: intros ok w2 H;
    apply (checkSerial_opens_first _ ok w2) in H; [exact H|reflexivity].
Qed.

(** ** The light command *)

Lemma bytes_formatted :
  forallb (fun x => (String.length (fmt_02x x) =? 2)%nat
                    && (hex2_value (fmt_02x x) =? x)) slots = true.
Proof. vm_compute. reflexivity. Qed.

Lemma fmt_02x_byte x :
  0 <= x <= 255 ->
  hex2_value (fmt_02x x) = x
  /\ exists a b, fmt_02x x = String a (String b EmptyString).
Proof.
  intros Hx. pose proof bytes_formatted as H.
  rewrite forallb_forall in H.
  specialize (H x (slots_In x ltac:(lia))).
  apply andb_true_iff in H. destruct H as [Hl Hv].
  apply Z.eqb_eq in Hv. apply Nat.eqb_eq in Hl.
  split; [exact Hv|].
  destruct (fmt_02x x) as [|a [|b [|c s]]]; try discriminate.
  eauto.
Qed.

(** X23.  For a LED index and colour components that are bytes, the
    command is the whole ten-character text, 'H', four pairs of hexadecimal
    digits and a newline: nothing is cut by the buffer, and the length
    handed to [safe_write] is 10. *)
Theorem light_cmd_bytes led r g b :
  0 <= led <= 255 -> 0 <= r <= 255 -> 0 <= g <= 255 -> 0 <= b <= 255 ->
  light_cmd led r g b
  = (String "H" (fmt_02x led ++ fmt_02x r ++ fmt_02x g ++ fmt_02x b
                 ++ String nl EmptyString), 10)
  /\ String.length (fst (light_cmd led r g b)) = 10%nat.
Proof.
  intros Hl Hr Hg Hb.
  destruct (fmt_02x_byte led Hl) as (_ & l1 & l2 & El).
  destruct (fmt_02x_byte r Hr) as (_ & r1 & r2 & Er).
  destruct (fmt_02x_byte g Hg) as (_ & g1 & g2 & Eg).
  destruct (fmt_02x_byte b Hb) as (_ & b1 & b2 & Eb).
  unfold light_cmd, light_text. rewrite El, Er, Eg, Eb. split; reflexivity.
Qed.

Lemma light_cmd_bytes_witness :
  light_cmd 71 16 0 16 = (line "H47100010", 10)
  /\ String.length (fst (light_cmd 71 16 0 16)) = 10%nat.
Proof.
  destruct (light_cmd_bytes 71 16 0 16) as [E L]; try lia.
  split; [rewrite E; reflexivity|exact L].
Defined.

(** X24.  On bytes the command loses nothing: two commands are equal
    only if LED index and colour components are. *)
Theorem light_cmd_injective led r g b led' r' g' b' :
  0 <= led <= 255 -> 0 <= r <= 255 -> 0 <= g <= 255 -> 0 <= b <= 255 ->
  0 <= led' <= 255 -> 0 <= r' <= 255 -> 0 <= g' <= 255 -> 0 <= b' <= 255 ->
  light_cmd led r g b = light_cmd led' r' g' b' ->
  led = led' /\ r = r' /\ g = g' /\ b = b'.
Proof.
  intros Hl Hr Hg Hb Hl' Hr' Hg' Hb' H.
  destruct (fmt_02x_byte led Hl) as (Vl & l1 & l2 & El).
  destruct (fmt_02x_byte r Hr) as (Vr & r1 & r2 & Er).
  destruct (fmt_02x_byte g Hg) as (Vg & g1 & g2 & Eg).
  destruct (fmt_02x_byte b Hb) as (Vb & b1 & b2 & Eb).
  destruct (fmt_02x_byte led' Hl') as (Vl' & l1' & l2' & El').
  destruct (fmt_02x_byte r' Hr') as (Vr' & r1' & r2' & Er').
  destruct (fmt_02x_byte g' Hg') as (Vg' & g1' & g2' & Eg').
  destruct (fmt_02x_byte b' Hb') as (Vb' & b1' & b2' & Eb').
  unfold light_cmd, light_text in H.
  rewrite El, Er, Eg, Eb, El', Er', Eg', Eb' in H.
  cbn in H. inversion H; subst.
  rewrite <- Vl, <- Vr, <- Vg, <- Vb, <- Vl', <- Vr', <- Vg', <- Vb'.
  rewrite El, Er, Eg, Eb, El', Er', Eg', Eb'. auto.
Qed.

Lemma light_cmd_injective_witness :
  71 = 71 /\ 16 = 16 /\ 0 = 0 /\ 2 = 2.
Proof.
  apply (light_cmd_injective 71 16 0 2 71 16 0 2); solve [lia | reflexivity].
Defined.

(** ** Colours *)

(** X26.  The row of the colour table: 0 for the mistake marker, and
    for the other channels 1 when the channel is even and 2 when it is odd
    and not negative; an odd negative channel falls on row 0, the mistake
    colour. *)
Theorem color_row_parity c :
  color_row (-1) = 0
  /\ (Z.even c = true -> color_row c = 1)
  /\ (Z.odd c = true -> 0 <= c -> color_row c = 2)
  /\ (Z.odd c = true -> c < 0 -> color_row c = 0).
Proof.
  split; [reflexivity|].
  pose proof (Z.quot_rem' c 2) as Hqr.
  pose proof (Z.rem_bound_abs c 2 ltac:(lia)) as Hb.
  split; [|split].
  - intros He. apply Z.even_spec in He. destruct He as [k ->].
    unfold color_row.
    destruct (Z.eqb_spec (2 * k) (-1)); [lia|].
    replace (Z.rem (2 * k) 2) with 0; [reflexivity|].
    symmetry. rewrite Z.mul_comm. apply Z.rem_mul. lia.
  - intros Ho Hc. apply Z.odd_spec in Ho. destruct Ho as [k ->].
    unfold color_row.
    destruct (Z.eqb_spec (2 * k + 1) (-1)); [lia|].
    pose proof (Z.rem_nonneg (2 * k + 1) 2 ltac:(lia) Hc).
    assert (Z.rem (2 * k + 1) 2 <> 0).
    { intros E. rewrite E in Hqr. lia. }
    lia.
  - intros Ho Hc. apply Z.odd_spec in Ho. destruct Ho as [k ->].
    unfold color_row.
    destruct (Z.eqb_spec (2 * k + 1) (-1)); [reflexivity|].
    pose proof (Z.rem_nonpos (2 * k + 1) 2 ltac:(lia) ltac:(lia)).
    assert (Z.rem (2 * k + 1) 2 <> 0).
    { intros E. rewrite E in Hqr. lia. }
    lia.
Qed.

Lemma color_row_parity_witness :
  color_row 4 = 1 /\ color_row 7 = 2 /\ color_row (-3) = 0.
Proof.
  destruct (color_row_parity 4) as (_ & H4 & _).
  destruct (color_row_parity 7) as (_ & _ & H7 & _).
  destruct (color_row_parity (-3)) as (_ & _ & _ & H3).
  split; [apply H4; reflexivity|].
  split; [apply H7; [reflexivity|lia]|].
  apply H3; [reflexivity|lia].
Defined.
